(** * Chess coverage search: board model, successor reduction and frontier

    A shallow embedding of the Go packages [chess] (pieces, points, boards,
    support graph, compaction, reduction) and [main] (worker, orchestrator)
    of chess-coverage-search, with the properties of its specification. *)

From stdpp Require Import gmap list strings sorting pretty.
From Stdlib Require Import ZArith Lia Floats.SpecFloat.

Open Scope Z_scope.
Set Warnings "-clear-no-such-hyp".

(** ** Outcomes of Go calls

    A Go call either returns normally, returns a non-nil [error], or panics.
    [Err] holds the text of the error.  [Panic] holds the text that names the
    panic, without the operands that the program or the runtime append to it
    (the piece value, the index and the length).
    [OutOfFuel] is the only outcome that is not a Go outcome: it marks that the
    iteration bound of a modelled loop or recursion was reached. *)

Inductive outcome (A : Type) : Type :=
| Ok (a : A)
| Err (msg : string)
| Panic (msg : string)
| OutOfFuel.

Arguments Ok {A} a.
Arguments Err {A} msg.
Arguments Panic {A} msg.
Arguments OutOfFuel {A}.

#[global] Instance outcome_ret : MRet outcome := fun A a => Ok a.
#[global] Instance outcome_bind : MBind outcome := fun A B f m =>
  match m with
  | Ok a => f a
  | Err e => Err e
  | Panic e => Panic e
  | OutOfFuel => OutOfFuel
  end.

(** [fmt.Errorf("prefix: %w", err)] around a failed call. *)
Definition wrapErr {A} (prefix : string) (m : outcome A) : outcome A :=
  match m with
  | Err e => Err (prefix +:+ ": " +:+ e)
  | _ => m
  end.

(** Indexing a Go array or slice with an [int]: out of range panics. *)
Definition index {A} (l : list A) (i : Z) : outcome A :=
  if i <? 0 then Panic "index out of range"
  else match l !! Z.to_nat i with
       | Some a => Ok a
       | None => Panic "index out of range"
       end.

(** A left-to-right loop over a list with an accumulator, stopping at the
    first iteration that does not return normally. *)
Fixpoint foldM {A B} (f : A -> B -> outcome A) (a : A) (l : list B) : outcome A :=
  match l with
  | [] => Ok a
  | b :: l' => a' ← f a b; foldM f a' l'
  end.

(** ** Pieces (pieces.go) *)

(** [type Piece byte] with the constants of the [iota] block. *)
Abbreviation Piece := Z (only parsing).

Definition NONE : Piece := 0.
Definition PAWN : Piece := 1.
Definition KNIGHT : Piece := 2.
Definition BISHOP : Piece := 3.
Definition ROOK : Piece := 4.
Definition QUEEN : Piece := 5.

Definition scores : gmap Z Z :=
  {[ PAWN := 1; KNIGHT := 3; BISHOP := 3; ROOK := 5; QUEEN := 9 ]}.

Definition GetScore (piece : Piece) : outcome Z :=
  match scores !! piece with
  | Some score => Ok score
  | None => Panic "tried to get score for unknown piece"
  end.

(** [var runes = map[Piece]rune{...}]: a rune is the code point of its
    character: '_' is 95, 'P' 80, 'K' 75, 'B' 66, 'R' 82 and 'Q' 81. *)
Definition runes : gmap Z Z :=
  {[ NONE := 95; PAWN := 80; KNIGHT := 75; BISHOP := 66; ROOK := 82; QUEEN := 81 ]}.

(** [runes[p]]: a missing key reads as the zero value of [rune]. *)
Definition GetRune (p : Z) : Z := default 0 (runes !! p).

(** ** Points and cells (board.go) *)

Definition BOARD_SIZE : Z := 8.

(** Conversion to [int8]: two's complement wrap-around. *)
Definition int8 (z : Z) : Z := (z + 128) mod 256 - 128.

(** [type point int8] *)
Abbreviation point := Z (only parsing).

(** [type pointSet map[point]struct{}]; the nil map is the empty set. *)
Abbreviation pointSet := (gset Z) (only parsing).

Definition put (ps : pointSet) (p : point) : pointSet := {[ p ]} ∪ ps.
Definition has (ps : pointSet) (p : point) : bool := bool_decide (p ∈ ps).

Record cell : Type := mkCell {
  piece : Piece;
  supports : pointSet;
  supportedBy : pointSet
}.

(** [type Board [BOARD_SIZE][BOARD_SIZE]*cell]: the rows of the board; every
    board built by [RebuildBoard] or [copy] owns its cells, so the model
    stores the cells in place of the pointers. *)
Abbreviation Board := (list (list cell)) (only parsing).

(** The Go array type fixes both dimensions. *)
Definition wfBoard (b : Board) : Prop :=
  length b = Z.to_nat BOARD_SIZE /\
  Forall (fun row => length row = Z.to_nat BOARD_SIZE) b.

(** Truncated division and remainder, as Go's [/] and [%]. *)
Definition point_x (p : point) : Z := Z.quot p BOARD_SIZE.
Definition point_y (p : point) : Z := Z.rem p BOARD_SIZE.

Definition inBounds (x y : Z) : bool :=
  negb ((x <? 0) || (x >=? BOARD_SIZE) || (y <? 0) || (y >=? BOARD_SIZE)).

Definition newPoint (x y : Z) : point * bool :=
  (int8 (x * BOARD_SIZE + y), inBounds x y).

Definition newPointUnsafe (x y : Z) : point := int8 (x * BOARD_SIZE + y).

Definition add (p : point) (x y : Z) : point * bool :=
  let newX := int8 (point_x p + x) in
  let newY := int8 (point_y p + y) in
  (int8 (p + int8 (int8 (x * BOARD_SIZE) + y)), inBounds newX newY).

Definition cell_copy (c : cell) : cell :=
  {| piece := piece c; supports := ∅; supportedBy := ∅ |}.

Definition addSupport (c : cell) (p : point) : cell :=
  {| piece := piece c; supports := supports c; supportedBy := put (supportedBy c) p |}.

Definition supportOther (c : cell) (p : point) : cell :=
  {| piece := piece c; supports := put (supports c) p; supportedBy := supportedBy c |}.

Definition clearSupport (c : cell) : cell :=
  {| piece := piece c; supports := ∅; supportedBy := ∅ |}.

Definition getCell (b : Board) (p : point) : outcome cell :=
  row ← index b (point_x p); index row (point_y p).

(** A write through the pointer [b.getCell(p)]. *)
Definition updCell (b : Board) (p : point) (f : cell -> cell) : outcome Board :=
  row ← index b (point_x p);
  _ ← index row (point_y p);
  Ok (alter (alter f (Z.to_nat (point_y p))) (Z.to_nat (point_x p)) b).

Definition isEmpty (b : Board) (p : point) : outcome bool :=
  c ← getCell b p; Ok (bool_decide (piece c = NONE)).

(** ** Coverage rules (pieces.go) *)

(** [if possiblePoint, valid := p.add(x, y); valid { result.put(possiblePoint) }] *)
Definition putValid (result : pointSet) (pv : point * bool) : pointSet :=
  if pv.2 then put result pv.1 else result.

Definition pawnCoverage (p : point) : pointSet :=
  let result := putValid ∅ (add p 1 1) in
  putValid result (add p 1 (-1)).

Definition knightCoverage (p : point) : pointSet :=
  let result := putValid ∅ (add p 1 2) in
  let result := putValid result (add p 2 1) in
  let result := putValid result (add p (-1) 2) in
  let result := putValid result (add p (-2) 1) in
  let result := putValid result (add p 1 (-2)) in
  let result := putValid result (add p 2 (-1)) in
  let result := putValid result (add p (-1) (-2)) in
  putValid result (add p (-2) (-1)).

(** One sliding loop with the statement that follows it:
    [for ...; valid && board.isEmpty(next); next, valid = next.add(x, y)
       { result.put(next) }
     if valid { result.put(next) }]
    entered with [next, valid] already set by the loop's init statement. *)
Fixpoint slide (fuel : nat) (board : Board) (x y : Z) (next : point) (valid : bool)
    (result : pointSet) : outcome pointSet :=
  if valid then
    empty ← isEmpty board next;
    if (empty : bool) then
      match fuel with
      | O => OutOfFuel
      | S fuel' =>
          let nv := add next x y in
          slide fuel' board x y nv.1 nv.2 (put result next)
      end
    else Ok (put result next)
  else Ok result.

(** No ray has more than [BOARD_SIZE - 1] cells. *)
Definition rayFuel : nat := Z.to_nat BOARD_SIZE.

Definition ray (board : Board) (p : point) (x y : Z) (result : pointSet) : outcome pointSet :=
  let nv := add p x y in slide rayFuel board x y nv.1 nv.2 result.

Definition bishopCoverage (board : Board) (p : point) : outcome pointSet :=
  result ← ray board p 1 1 ∅;
  result ← ray board p (-1) 1 result;
  result ← ray board p 1 (-1) result;
  ray board p (-1) (-1) result.

Definition rookCoverage (board : Board) (p : point) : outcome pointSet :=
  result ← ray board p 1 0 ∅;
  result ← ray board p 0 1 result;
  result ← ray board p (-1) 0 result;
  ray board p 0 (-1) result.

(** [for newP := range rookCoverage(board, p) { result.put(newP) }]; Go leaves
    the iteration order of a map open, the model takes that of [elements]. *)
Definition queenCoverage (board : Board) (p : point) : outcome pointSet :=
  result ← bishopCoverage board p;
  rook ← rookCoverage board p;
  Ok (foldl put result (elements rook)).

(** The [default] branch returns
    [fmt.Errorf("attempted to get coverage for unknown piece: %d", piece)];
    [%d] prints the value of the byte in decimal digits, as [pretty] does. *)
Definition getCoverage (board : Board) (p : point) (piece : Piece) : outcome pointSet :=
  if bool_decide (piece = PAWN) then Ok (pawnCoverage p)
  else if bool_decide (piece = KNIGHT) then Ok (knightCoverage p)
  else if bool_decide (piece = BISHOP) then bishopCoverage board p
  else if bool_decide (piece = ROOK) then rookCoverage board p
  else if bool_decide (piece = QUEEN) then queenCoverage board p
  else Err ("attempted to get coverage for unknown piece: " +:+ pretty piece).

(** ** Boards (board.go) *)

(** [for i, v := range l]: the elements with their indices. *)
Definition enum {A} (l : list A) : list (Z * A) :=
  zip (seqZ 0 (Z.of_nat (length l))) l.

(** The write [b[x][y].supports = coverage] through the cell pointer. *)
Definition setSupports (b : Board) (x y : Z) (coverage : pointSet) : Board :=
  alter (alter (fun c => {| piece := piece c; supports := coverage;
                            supportedBy := supportedBy c |}) (Z.to_nat y))
        (Z.to_nat x) b.

(** The write [b[x][y].piece = piece] through the cell pointer. *)
Definition setPiece (b : Board) (x y : Z) (p : Piece) : Board :=
  alter (alter (fun c => {| piece := p; supports := supports c;
                            supportedBy := supportedBy c |}) (Z.to_nat y))
        (Z.to_nat x) b.

(** The cells of the array in the order of the nested [range] loops. *)
Definition cellIndices : list (Z * Z) :=
  x ← seqZ 0 BOARD_SIZE; y ← seqZ 0 BOARD_SIZE; [(x, y)].

(** The read [b[x][y]] of the cell the range variable points to. *)
Definition cellAt (b : Board) (x y : Z) : outcome cell :=
  row ← index b x; index row y.

(** The body of the second loop of [settleSupportGraph] for the cell at
    [(x, y)]; [currCell] is a pointer, so the cell is read from the board. *)
Definition settleCell (b : Board) (xy : Z * Z) : outcome Board :=
  let '(x, y) := xy in
  currCell ← cellAt b x y;
  if bool_decide (piece currCell ≠ NONE) then
    let currPoint := newPointUnsafe x y in
    coverage ← wrapErr "failed to get coverage of piece"
                 (getCoverage b currPoint (piece currCell));
    let b := setSupports b x y coverage in
    foldM (fun b coveredPoint => updCell b coveredPoint (fun c => addSupport c currPoint))
          b (elements coverage)
  else Ok b.

Definition settleSupportGraph (b : Board) : outcome Board :=
  let b := map (map clearSupport) b in
  foldM settleCell b cellIndices.

Definition GetCoverageLevel (b : Board) : Z :=
  foldl (fun result row =>
           foldl (fun result currCell =>
                    if bool_decide (0 < size (supportedBy currCell))%nat
                    then result + 1 else result) result row) 0 b.

Definition Board_Score (b : Board) : outcome Z :=
  foldM (fun result row =>
           foldM (fun result currCell =>
                    if bool_decide (piece currCell ≠ NONE) then
                      score ← wrapErr "failed to score board" (GetScore (piece currCell));
                      Ok (result + score)
                    else Ok result) result row) 0 b.

Definition Board_copy (b : Board) : Board := map (map cell_copy) b.

(** ** Compact states (board.go) *)

Abbreviation float32 := spec_float (only parsing).
Definition f32add : float32 -> float32 -> float32 := SFadd 24 128.
Definition f32div : float32 -> float32 -> float32 := SFdiv 24 128.
(** The conversion [float32(n)] of an integer, rounding to nearest even. *)
Definition float32_of_int (n : Z) : float32 := binary_normalize 24 128 n 0 false.

Record MinimalBoard : Type := mkMinimalBoard {
  board : list Z;
  Heuristic : float32;
  IsSolved : bool;
  Score : Z;
  Coverage : Z
}.

(** The array type [[BOARD_SIZE * BOARD_SIZE]Piece] fixes the length. *)
Definition wfMinimal (m : MinimalBoard) : Prop :=
  length (board m) = Z.to_nat (BOARD_SIZE * BOARD_SIZE).

(** The zero value [MinimalBoard{}]. *)
Definition zeroMinimalBoard : MinimalBoard :=
  {| board := replicate (Z.to_nat (BOARD_SIZE * BOARD_SIZE)) NONE;
     Heuristic := S754_zero false; IsSolved := false; Score := 0; Coverage := 0 |}.

Definition getMinimalBoard (heuristic : Board -> outcome float32) (b : Board)
    : outcome MinimalBoard :=
  heuristicScore ← wrapErr "failed to calculate heuristic while minimizing" (heuristic b);
  score ← wrapErr "failed to score board while minimizing" (Board_Score b);
  let cells :=
    foldl (fun cells xrow =>
             foldl (fun cells yc =>
                      <[Z.to_nat (xrow.1 * BOARD_SIZE + yc.1) := piece yc.2]> cells)
                   cells (enum xrow.2))
          (board zeroMinimalBoard) (enum b) in
  Ok {| board := cells;
        Heuristic := heuristicScore;
        IsSolved := bool_decide (GetCoverageLevel b = BOARD_SIZE * BOARD_SIZE);
        Score := score;
        Coverage := GetCoverageLevel b |}.

(** [&Board{}] holds nil pointers; the loop of [RebuildBoard] stores a fresh
    cell at every index before any is read, so the model starts from cells
    holding no piece. *)
Definition emptyCells : Board :=
  replicate (Z.to_nat BOARD_SIZE) (replicate (Z.to_nat BOARD_SIZE) (mkCell NONE ∅ ∅)).

Definition RebuildBoard (m : MinimalBoard) : outcome Board :=
  let b :=
    foldl (fun b ip =>
             alter (fun row => <[Z.to_nat (Z.rem ip.1 BOARD_SIZE) := mkCell ip.2 ∅ ∅]> row)
                   (Z.to_nat (Z.quot ip.1 BOARD_SIZE)) b)
          emptyCells (enum (board m)) in
  wrapErr "failed to settle support graph" (settleSupportGraph b).

(** ** The heuristic (main.go) *)

Definition heuristic (b : Board) : outcome float32 :=
  score ← wrapErr "failed to calculate score during heuristic" (Board_Score b);
  let coverage := float32_of_int (GetCoverageLevel b) in
  Ok (f32add (f32div coverage (float32_of_int score)) coverage).

(** ** Reduction (board.go)

    [reduce] works on [*Board] values: it reads the board it is given, and
    writes to the copies it allocates.  The heap holds the boards that have
    been allocated, a pointer is an index into it, and allocation appends. *)

Abbreviation heap := (list (list (list cell))) (only parsing).
Abbreviation ptr := nat (only parsing).

Definition load (h : heap) (p : ptr) : outcome Board :=
  match h !! p with
  | Some b => Ok b
  | None => Panic "invalid memory address or nil pointer dereference"
  end.

Definition store (h : heap) (p : ptr) (b : Board) : heap := <[p := b]> h.

Definition alloc (h : heap) (b : Board) : heap * ptr := (h ++ [b], length h).

(** The inner loop of [reduce]: does [currCell] support a cell that no other
    piece supports?  ([continue cellLoop] when it does.) *)
Fixpoint contributing (b : Board) (supported : list Z) : outcome bool :=
  match supported with
  | [] => Ok false
  | currPoint :: rest =>
      c ← getCell b currPoint;
      if bool_decide (size (supportedBy c) = 1%nat) then Ok true
      else contributing b rest
  end.

(** [newBoard := b.copy(); newBoard.getCell(p).piece = NONE;
     err := newBoard.settleSupportGraph()] *)
Definition removePiece (h : heap) (b : ptr) (x y : Z) : outcome (heap * ptr) :=
  bv ← load h b;
  let '(h, newBoard) := alloc h (Board_copy bv) in
  nb ← load h newBoard;
  nb ← updCell nb (newPointUnsafe x y)
         (fun c => {| piece := NONE; supports := supports c; supportedBy := supportedBy c |});
  let h := store h newBoard nb in
  nb ← load h newBoard;
  nb ← wrapErr "failed to settle board while reducing" (settleSupportGraph nb);
  Ok (store h newBoard nb, newBoard).

Fixpoint reduce (fuel : nat) (h : heap) (b : ptr) : outcome (list nat * heap) :=
  match fuel with
  | O => OutOfFuel
  | S fuel' =>
      '(result, h) ←
        foldM (fun (st : list nat * heap) (xy : Z * Z) =>
                 let '(result, h) := st in
                 let '(x, y) := xy in
                 bv ← load h b;
                 currCell ← cellAt bv x y;
                 if bool_decide (piece currCell = NONE) then Ok (result, h)
                 else
                   skip ← contributing bv (elements (supports currCell));
                   if (skip : bool) then Ok (result, h)
                   else
                     '(h, newBoard) ← removePiece h b x y;
                     '(reduceResult, h) ←
                       wrapErr "failed to reduce board while reducing"
                         (reduce fuel' h newBoard);
                     Ok (result ++ reduceResult, h))
              ([], h) cellIndices;
      if bool_decide (length result = 0%nat) then Ok ([b], h) else Ok (result, h)
  end.

(** The recursion of [reduce] removes a piece at every level. *)
Definition reduceFuel : nat := S (Z.to_nat (BOARD_SIZE * BOARD_SIZE)).

(** ** Sets of compact states (board.go)

    [MinimalBoard] is a comparable struct used as a map key: Go's [==] on it
    compares every field, the array element by element and the [float32] by
    IEEE equality. *)

Definition f32eqb : float32 -> float32 -> bool := SFeqb.
Definition f32ltb : float32 -> float32 -> bool := SFltb.

Definition MinimalBoard_eqb (m1 m2 : MinimalBoard) : bool :=
  bool_decide (board m1 = board m2)
  && f32eqb (Heuristic m1) (Heuristic m2)
  && bool_decide (IsSolved m1 = IsSolved m2)
  && bool_decide (Score m1 = Score m2)
  && bool_decide (Coverage m1 = Coverage m2).

(** [type MinimalBoardSet map[MinimalBoard]struct{}], as the list of its keys;
    a key is found by [==].  An assignment under a key that is found leaves
    the set of keys as it is up to [==]. *)
Abbreviation MinimalBoardSet := (list MinimalBoard) (only parsing).

Definition Contains (m : MinimalBoardSet) (b : MinimalBoard) : bool :=
  existsb (fun key => MinimalBoard_eqb key b) m.

Definition Put (m : MinimalBoardSet) (b : MinimalBoard) : MinimalBoardSet :=
  if Contains m b then m else m ++ [b].

(** ** Successor generation (board.go)

    Go leaves the order of a [range] over a map open; the model visits the
    pieces of [coverages] in the order of [map_to_list] and the points of a
    coverage in the order of [elements]. *)

Definition getAllCoverage (b : Board) (p : point) : outcome (gmap Z (gset Z)) :=
  let result : gmap Z (gset Z) := ∅ in
  coverage ← wrapErr "failed to get pawn coverage" (getCoverage b p PAWN);
  let result := <[PAWN := coverage]> result in
  coverage ← wrapErr "failed to get knight coverage" (getCoverage b p KNIGHT);
  let result := <[KNIGHT := coverage]> result in
  coverage ← wrapErr "failed to get rook coverage" (getCoverage b p ROOK);
  let result := <[ROOK := coverage]> result in
  coverage ← wrapErr "failed to get bishop coverage" (getCoverage b p BISHOP);
  let result := <[BISHOP := coverage]> result in
  coverage ← wrapErr "failed to get queen coverage" (getCoverage b p QUEEN);
  let result := <[QUEEN := coverage]> result in
  Ok result.

(** The loop that sets [coveredNew]. *)
Fixpoint coversNew (b : Board) (coverage : list Z) : outcome bool :=
  match coverage with
  | [] => Ok false
  | currThreatenedPoint :: rest =>
      c ← getCell b currThreatenedPoint;
      if bool_decide (size (supportedBy c) = 0%nat) then Ok true
      else coversNew b rest
  end.

(** The body of [if coveredNew { ... }]. *)
Definition proposePiece (heuristic : Board -> outcome float32) (b : ptr)
    (currCellPoint : point) (piece : Piece) (st : MinimalBoardSet * heap)
    : outcome (MinimalBoardSet * heap) :=
  let '(result, h) := st in
  bv ← load h b;
  let '(h, newBoard) := alloc h (Board_copy bv) in
  nb ← load h newBoard;
  row ← index nb (point_x currCellPoint);
  _ ← index row (point_y currCellPoint);
  let nb := setPiece nb (point_x currCellPoint) (point_y currCellPoint) piece in
  nb ← wrapErr "failed to settle cloned board" (settleSupportGraph nb);
  let h := store h newBoard nb in
  '(reducedBoards, h) ← wrapErr "failed to reduce cloned board" (reduce reduceFuel h newBoard);
  result ← foldM (fun result reducedBoard =>
                    rb ← load h reducedBoard;
                    minimalBoard ← wrapErr "failed to minimize cloned board"
                                     (getMinimalBoard heuristic rb);
                    Ok (Put result minimalBoard))
                 result reducedBoards;
  Ok (result, h).

Definition ProposeBoards (heuristic : Board -> outcome float32) (h : heap) (b : ptr)
    : outcome (MinimalBoardSet * heap) :=
  foldM (fun (st : list MinimalBoard * heap) (xy : Z * Z) =>
           let '(x, y) := xy in
           bv ← load st.2 b;
           currCell ← cellAt bv x y;
           if bool_decide (piece currCell ≠ NONE) then Ok st
           else
             let currCellPoint := (newPoint x y).1 in
             coverages ← wrapErr "failed to get coverages" (getAllCoverage bv currCellPoint);
             foldM (fun (st : list MinimalBoard * heap) (pc : Z * gset Z) =>
                      bv ← load st.2 b;
                      coveredNew ← coversNew bv (elements pc.2);
                      if (coveredNew : bool)
                      then proposePiece heuristic b currCellPoint pc.1 st
                      else Ok st)
                   st (map_to_list coverages))
        ([], h) cellIndices.

(** ** Shared state of the search (main.go) *)

(** Wrap-around of the atomic counters. *)
Definition int32 (z : Z) : Z := (z + 2 ^ 31) mod 2 ^ 32 - 2 ^ 31.
Definition int64 (z : Z) : Z := (z + 2 ^ 63) mod 2 ^ 64 - 2 ^ 63.

(** The package-level variables and the two channels between orchestrator and
    workers; a channel is the list of the values it buffers, oldest first.
    The drawing thread and its queue only print boards and are left out, as
    are the cancellation of the context and the profiling flags. *)
Record state : Type := mkState {
  processed : Z;
  duplicates : Z;
  currBestScore : Z;
  outstandingJobs : Z;
  seenBoards : list MinimalBoard;
  edgeSet : list MinimalBoard;
  workQueue : list MinimalBoard;
  newBoardQueue : list MinimalBoard;
  workQueueClosed : bool
}.

Definition setEdgeSet (st : state) (es : list MinimalBoard) : state :=
  mkState (processed st) (duplicates st) (currBestScore st) (outstandingJobs st)
          (seenBoards st) es (workQueue st) (newBoardQueue st) (workQueueClosed st).

Definition setWorkQueue (st : state) (q : list MinimalBoard) : state :=
  mkState (processed st) (duplicates st) (currBestScore st) (outstandingJobs st)
          (seenBoards st) (edgeSet st) q (newBoardQueue st) (workQueueClosed st).

Definition setNewBoardQueue (st : state) (q : list MinimalBoard) : state :=
  mkState (processed st) (duplicates st) (currBestScore st) (outstandingJobs st)
          (seenBoards st) (edgeSet st) (workQueue st) q (workQueueClosed st).

(** [outstandingJobs.Add(delta)] *)
Definition addOutstandingJobs (st : state) (delta : Z) : state :=
  mkState (processed st) (duplicates st) (currBestScore st)
          (int32 (outstandingJobs st + delta))
          (seenBoards st) (edgeSet st) (workQueue st) (newBoardQueue st)
          (workQueueClosed st).

(** [processed.Add(delta)] *)
Definition addProcessed (st : state) (delta : Z) : state :=
  mkState (int64 (processed st + delta)) (duplicates st) (currBestScore st)
          (outstandingJobs st) (seenBoards st) (edgeSet st) (workQueue st)
          (newBoardQueue st) (workQueueClosed st).

(** [currBestScore.Store(v)] *)
Definition storeBestScore (st : state) (v : Z) : state :=
  mkState (processed st) (duplicates st) v (outstandingJobs st)
          (seenBoards st) (edgeSet st) (workQueue st) (newBoardQueue st)
          (workQueueClosed st).

Definition insertBoard (st : state) (minimalBoard : MinimalBoard) : state * bool :=
  if negb (Contains (seenBoards st) minimalBoard) then
    (mkState (processed st) (duplicates st) (currBestScore st) (outstandingJobs st)
             (Put (seenBoards st) minimalBoard) (edgeSet st ++ [minimalBoard])
             (workQueue st) (newBoardQueue st) (workQueueClosed st), true)
  else
    (mkState (processed st) (int64 (duplicates st + 1)) (currBestScore st)
             (outstandingJobs st) (seenBoards st) (edgeSet st) (workQueue st)
             (newBoardQueue st) (workQueueClosed st), false).

(** The start of [run]: the bound, and the empty board as the root. *)
Definition initialState : state :=
  let baseBoard := zeroMinimalBoard in
  mkState 0 0 (int32 28) 0 (Put [] baseBoard) [baseBoard] [] [] false.

(** ** The worker (main.go)

    The closure a worker runs for one board [b] it received.  The board is
    rebuilt and expanded; every proposed board within the bound is sent to
    [newBoardQueue]; the closure then runs [outstandingJobs.Add(-1)] and
    returns nil, and the deferred [outstandingJobs.Add(-1)] runs as it
    returns.  When the closure returns an error, the deferred call alone
    runs (and the worker returns nil).  One call of the closure is one step
    of the model: the bound is read once and the sends do not block. *)

(** The statements of the closure after its [defer]: [Ok] is [return nil],
    with the state the statements leave; [Err] is the error the closure
    returns when [RebuildBoard] or [ProposeBoards] fail, which is before it
    sends a board. *)
Definition workerBody (st : state) (b : MinimalBoard) : outcome state :=
  bv ← RebuildBoard b;
  '(proposedBoards, _) ← wrapErr "failed to propose new boards"
                           (ProposeBoards heuristic [bv] 0%nat);
  let sent := filter (fun proposedBoard =>
                        Score proposedBoard <= currBestScore st) proposedBoards in
  let st := setNewBoardQueue st (newBoardQueue st ++ sent) in
  Ok (addOutstandingJobs st (-1)).

(** The closure with its deferred call, and the worker's
    [if err != nil { return nil }], which drops the error. *)
Definition workerJob (st : state) (b : MinimalBoard) : outcome state :=
  let deferred := fun st => addOutstandingJobs st (-1) in
  match workerBody st b with
  | Ok st' => Ok (deferred st')
  | Err _ => Ok (deferred st)
  | Panic e => Panic e
  | OutOfFuel => OutOfFuel
  end.

(** ** The orchestrator (main.go) *)

(** [for edgeSet[tailIndex].Score > int(currBestScore.Load())
       { edgeSet = edgeSet[:tailIndex]; tailIndex-- }] *)
Fixpoint prune (fuel : nat) (edgeSet : list MinimalBoard) (tailIndex : Z) (bound : Z)
    : outcome (list MinimalBoard * Z) :=
  tail ← index edgeSet tailIndex;
  if bool_decide (Score tail > bound) then
    match fuel with
    | O => OutOfFuel
    | S fuel' => prune fuel' (take (Z.to_nat tailIndex) edgeSet) (tailIndex - 1) bound
    end
  else Ok (edgeSet, tailIndex).

(** The first statement of the orchestrator's loop: prune the tail of the edge
    set, then hand the last board to the work queue when the queue has room
    (the [default] case of the [select] otherwise). *)
Definition dispatch (workQueueSize : Z) (st : state) : outcome state :=
  if bool_decide (Z.of_nat (length (edgeSet st)) > 0) then
    let tailIndex := Z.of_nat (length (edgeSet st)) - 1 in
    '(es, tailIndex) ← prune (length (edgeSet st)) (edgeSet st) tailIndex (currBestScore st);
    let st := setEdgeSet st es in
    if bool_decide (Z.of_nat (length es) > 0) then
      tail ← index es tailIndex;
      if bool_decide (Z.of_nat (length (workQueue st)) < workQueueSize) then
        let st := setWorkQueue st (workQueue st ++ [tail]) in
        let st := setEdgeSet st (take (Z.to_nat tailIndex) es) in
        let st := addOutstandingJobs st 1 in
        Ok (addProcessed st 1)
      else Ok st
    else Ok st
  else Ok st.

(** The termination condition without profiling flags. *)
Definition searchDone (st : state) : bool :=
  bool_decide (length (edgeSet st) = 0%nat)
  && bool_decide (length (workQueue st) = 0%nat)
  && bool_decide (length (newBoardQueue st) = 0%nat)
  && bool_decide (outstandingJobs st = 0).

(** What the orchestrator does with one board received from [newBoardQueue]. *)
Definition ingestBoard (st : state) (scoreIsDirty : bool) (newBoard : MinimalBoard)
    : state * bool :=
  if IsSolved newBoard then
    if IsSolved newBoard && bool_decide (Score newBoard < currBestScore st)
    then (storeBestScore st (int32 (Score newBoard)), true)
    else (st, scoreIsDirty)
  else ((insertBoard st newBoard).1, scoreIsDirty).

(** [newBoardLoop]: receive while a board is buffered; after each board the
    termination condition is tested.  The result holds the state, the dirty
    flag, [newBoards], and whether the orchestrator returned. *)
Fixpoint newBoardLoop (fuel : nat) (st : state) (scoreIsDirty : bool) (newBoards : Z)
    : outcome (state * bool * Z * bool) :=
  match newBoardQueue st with
  | [] => Ok (st, scoreIsDirty, newBoards, false)
  | newBoard :: rest =>
      let st := setNewBoardQueue st rest in
      let '(st, scoreIsDirty) := ingestBoard st scoreIsDirty newBoard in
      let newBoards := newBoards + 1 in
      if searchDone st then
        Ok (mkState (processed st) (duplicates st) (currBestScore st)
                    (outstandingJobs st) (seenBoards st) (edgeSet st) (workQueue st)
                    (newBoardQueue st) true,
            scoreIsDirty, newBoards, true)
      else
        match fuel with
        | O => OutOfFuel
        | S fuel' => newBoardLoop fuel' st scoreIsDirty newBoards
        end
  end.

(** Go's [sort.Slice] is library code: it leaves the slice sorted by [less]
    and is not stable.  The model sorts by insertion. *)
Fixpoint insertBy {A} (less : A -> A -> bool) (a : A) (l : list A) : list A :=
  match l with
  | [] => [a]
  | b :: l' => if less b a then b :: insertBy less a l' else a :: b :: l'
  end.

Definition sortSlice {A} (less : A -> A -> bool) (l : list A) : list A :=
  foldr (insertBy less) [] l.

(** The last statements of the orchestrator's loop:
    [offset := len(edgeSet) - (newBoards + workQueueSize)
     if offset < 0 || scoreIsDirty { offset = 0; scoreIsDirty = false }]
    and the sort of [edgeSet[offset:]] by ascending heuristic. *)
Definition sortOffset (st : state) (scoreIsDirty : bool) (newBoards workQueueSize : Z)
    : Z * bool :=
  let offset := Z.of_nat (length (edgeSet st)) - (newBoards + workQueueSize) in
  if bool_decide (offset < 0) || scoreIsDirty then (0, false) else (offset, scoreIsDirty).

Definition lessHeuristic (a b : MinimalBoard) : bool :=
  f32ltb (Heuristic a) (Heuristic b).

Definition sortEdgeSet (st : state) (offset : Z) : state :=
  let es := edgeSet st in
  setEdgeSet st
    (take (Z.to_nat offset) es ++ sortSlice lessHeuristic (drop (Z.to_nat offset) es)).

(** One pass of the orchestrator's outer loop; the last boolean tells whether
    the orchestrator returned, the dirty flag is carried to the next pass. *)
Definition orchestratorPass (workQueueSize : Z) (st : state) (scoreIsDirty : bool)
    : outcome (state * bool * bool) :=
  st ← dispatch workQueueSize st;
  '(st, scoreIsDirty, newBoards, returned) ←
    newBoardLoop (length (newBoardQueue st)) st scoreIsDirty 0;
  if (returned : bool) then Ok (st, scoreIsDirty, true)
  else
    let '(offset, scoreIsDirty) := sortOffset st scoreIsDirty newBoards workQueueSize in
    Ok (sortEdgeSet st offset, scoreIsDirty, false).

(** ** The search as a transition system

    A configuration is the shared state, the orchestrator's dirty flag and the
    boards the workers hold.  The orchestrator makes a pass, a worker receives
    a board from the work queue, or a worker runs its closure on the board it
    holds. *)
Record config : Type := mkConfig {
  shared : state;
  dirty : bool;
  inFlight : list MinimalBoard
}.

Inductive step (workQueueSize : Z) : config -> config -> Prop :=
| step_orchestrator c st' dirty' returned :
    workQueueClosed (shared c) = false ->
    orchestratorPass workQueueSize (shared c) (dirty c) = Ok (st', dirty', returned) ->
    step workQueueSize c (mkConfig st' dirty' (inFlight c))
| step_receive c b rest :
    workQueue (shared c) = b :: rest ->
    step workQueueSize c (mkConfig (setWorkQueue (shared c) rest) (dirty c) (inFlight c ++ [b]))
| step_expand c b st' before after :
    inFlight c = before ++ b :: after ->
    workerJob (shared c) b = Ok st' ->
    step workQueueSize c (mkConfig st' (dirty c) (before ++ after)).

Inductive reachable (workQueueSize : Z) : config -> Prop :=
| reachable_init : reachable workQueueSize (mkConfig initialState false [])
| reachable_step c c' :
    reachable workQueueSize c -> step workQueueSize c c' -> reachable workQueueSize c'.

(** * Notions of the specification *)

Definition pieceAt (b : list (list cell)) (x y : Z) : option Z :=
  if inBounds x y then
    row ← b !! Z.to_nat x; c ← row !! Z.to_nat y; Some (piece c)
  else None.

Definition pointOf (x y : Z) : Z := x * BOARD_SIZE + y.

Definition rayReaches (b : list (list cell)) (x0 y0 dx dy : Z) (c : Z) : Prop :=
  exists k, 1 <= k /\ inBounds (x0 + k * dx) (y0 + k * dy) = true /\
            c = pointOf (x0 + k * dx) (y0 + k * dy) /\
            forall j, 1 <= j < k -> pieceAt b (x0 + j * dx) (y0 + j * dy) = Some NONE.

Definition bishopDirs : list (Z * Z) := [(1, 1); (-1, 1); (1, -1); (-1, -1)].
Definition rookDirs : list (Z * Z) := [(1, 0); (0, 1); (-1, 0); (0, -1)].

Definition unitDir (dx dy : Z) : Prop :=
  -1 <= dx <= 1 /\ -1 <= dy <= 1 /\ (dx <> 0 \/ dy <> 0).

(** The cells a slide adds when it is entered at the [i]-th cell of the ray. *)
Definition reachesFrom (b : list (list cell)) (x0 y0 dx dy i : Z) (c : Z) : Prop :=
  exists k, i <= k /\ inBounds (x0 + k * dx) (y0 + k * dy) = true /\
            c = pointOf (x0 + k * dx) (y0 + k * dy) /\
            forall j, i <= j < k -> pieceAt b (x0 + j * dx) (y0 + j * dy) = Some NONE.

Definition reachedAlong (dirs : list (Z * Z)) (b : list (list cell)) (x0 y0 : Z) (c : Z) : Prop :=
  exists d, d ∈ dirs /\ rayReaches b x0 y0 d.1 d.2 c.

(** Closed piece set on every cell. *)
Definition knownPiece (p : Z) : Prop := 0 <= p <= 5.
Definition validPieces (b : list (list cell)) : Prop :=
  Forall (Forall (fun c => knownPiece (piece c))) b.

(** The coverage of the piece standing at [(x, y)]; empty for an empty cell. *)
Definition coverageAt (b : list (list cell)) (x y : Z) : gset Z :=
  match cellAt b x y with
  | Ok c =>
      if bool_decide (piece c ≠ NONE) then
        match getCoverage b (newPointUnsafe x y) (piece c) with
        | Ok s => s
        | _ => ∅
        end
      else ∅
  | _ => ∅
  end.

(** The pieces among [cells] whose coverage holds [p]. *)
Definition supportersAmong (b : list (list cell)) (cells : list (Z * Z)) (p : Z) : gset Z :=
  list_to_set (map (fun xy => pointOf xy.1 xy.2)
                   (filter (fun xy => p ∈ coverageAt b xy.1 xy.2) cells)).

Definition samePieces (b b' : list (list cell)) : Prop :=
  forall x y, pieceAt b x y = pieceAt b' x y.

Definition pieceOf (b : list (list cell)) (x y : Z) : Z := default NONE (pieceAt b x y).

(** The cell a settled board holds at [(x, y)], given the pieces of [b]. *)
Definition settledCell (b : list (list cell)) (x y : Z) : cell :=
  mkCell (pieceOf b x y) (coverageAt b x y) (supportersAmong b cellIndices (pointOf x y)).

(** The board after the second loop of [settleSupportGraph] has visited [done]. *)
Definition settledUpTo (b0 : list (list cell)) (done : list (Z * Z)) (b : list (list cell)) : Prop :=
  wfBoard b /\
  forall x y, 0 <= x < 8 -> 0 <= y < 8 ->
    cellAt b x y =
    Ok (mkCell (pieceOf b0 x y)
               (if bool_decide ((x, y) ∈ done) then coverageAt b0 x y else ∅)
               (supportersAmong b0 done (pointOf x y))).

(** The value of a piece of the closed set; nothing for an empty cell. *)
Definition pieceValue (p : Z) : Z :=
  if bool_decide (p = PAWN) then 1
  else if bool_decide (p = KNIGHT) then 3
  else if bool_decide (p = BISHOP) then 3
  else if bool_decide (p = ROOK) then 5
  else if bool_decide (p = QUEEN) then 9
  else 0.

Definition sumValues (b : list (list cell)) : Z :=
  foldr (fun row acc => foldr (fun c acc => pieceValue (piece c) + acc) acc row) 0 b.

Definition unknownPieceMsg : string := "tried to get score for unknown piece".

#[global] Instance knownPiece_dec p : Decision (knownPiece p).
Proof. unfold knownPiece. apply _. Defined.

#[global] Instance validPieces_dec b : Decision (validPieces b).
Proof. unfold validPieces. apply _. Defined.

#[global] Instance wfBoard_dec b : Decision (wfBoard b).
Proof. unfold wfBoard. apply _. Defined.

Definition scoreCell (result : Z) (currCell : cell) : outcome Z :=
  if bool_decide (piece currCell ≠ NONE) then
    score ← wrapErr "failed to score board" (GetScore (piece currCell));
    Ok (result + score)
  else Ok result.

(** Decide a closed decidable proposition by evaluation. *)
Ltac by_compute :=
  match goal with
  | |- ?P => apply (bool_decide_eq_true_1 P); vm_compute; reflexivity
  end.

Definition boardWithUnknownPiece : list (list cell) := setPiece emptyCells 0 0 6.

(** The occupancy of a board, row by row. *)
Definition occupancy (b : list (list cell)) : list (list Z) := map (map piece) b.

(** Name the eight rows and the sixty-four cells of a well-formed board. *)
Ltac board_cells b Hwf :=
  let Hl := fresh "Hl" in
  let Hr := fresh "Hr" in
  destruct Hwf as [Hl Hr];
  do 9 (destruct b as [|? b]; [try discriminate Hl|]); [|discriminate Hl];
  repeat match goal with
         | H : Forall _ (_ :: _) |- _ => apply Forall_cons in H as [? H]
         end;
  repeat match goal with
         | H : length ?row = Z.to_nat BOARD_SIZE |- _ =>
             do 9 (destruct row as [|? row]; [try discriminate H|]);
             [|discriminate H]; clear H
         end.

(** The board [RebuildBoard] fills before it settles the support graph. *)
Definition rebuiltCells (pieces : list Z) : list (list cell) :=
  foldl (fun b ip =>
           alter (fun row => <[Z.to_nat (Z.rem ip.1 BOARD_SIZE) := mkCell ip.2 ∅ ∅]> row)
                 (Z.to_nat (Z.quot ip.1 BOARD_SIZE)) b)
        emptyCells (enum pieces).

Definition isNaN (f : spec_float) : bool :=
  match f with S754_nan => true | _ => false end.

(** A float that is not NaN, placed in a lexicographic order on triples. *)
Definition floatRank (f : spec_float) : Z * Z * Z :=
  match f with
  | S754_infinity true => (-2, 0, 0)
  | S754_finite true m e => (-1, - e, - Z.pos m)
  | S754_zero _ => (0, 0, 0)
  | S754_nan => (0, 0, 0)
  | S754_finite false m e => (1, e, Z.pos m)
  | S754_infinity false => (2, 0, 0)
  end.

Definition lexLt (a b : Z * Z * Z) : Prop :=
  a.1.1 < b.1.1 \/
  (a.1.1 = b.1.1 /\ (a.1.2 < b.1.2 \/ (a.1.2 = b.1.2 /\ a.2 < b.2))).

Definition overBound (bound : Z) (m : MinimalBoard) : Prop := Score m > bound.

Definition outOfRange : string := "index out of range".

(** [x] may stand before [y] in a slice sorted by [less]. *)
Definition ascending {A} (less : A -> A -> bool) (x y : A) : Prop := less y x = false.

Definition numericHeuristic (m : MinimalBoard) : Prop := isNaN (Heuristic m) = false.

(** The state after a dispatch that handed [d] to the work queue and kept
    [kept] in the edge set. *)
Definition dispatched (st : state) (kept : list MinimalBoard) (d : MinimalBoard) : state :=
  addProcessed
    (addOutstandingJobs
       (setEdgeSet (setWorkQueue (setEdgeSet st (kept ++ [d])) (workQueue st ++ [d])) kept) 1) 1.

(** A board over the closed piece set whose support graph is consistent with
    its occupancy. *)
Definition settled (b : list (list cell)) : Prop :=
  wfBoard b /\ validPieces b /\ settleSupportGraph b = Ok b.

(** [b.copy()] with the piece at [(x, y)] removed and the graph resettled. *)
Definition removedBoard (b : list (list cell)) (x y : Z) : outcome (list (list cell)) :=
  nb ← updCell (Board_copy b) (newPointUnsafe x y)
         (fun c => {| piece := NONE; supports := supports c; supportedBy := supportedBy c |});
  wrapErr "failed to settle board while reducing" (settleSupportGraph nb).

(** The boards [reduce] returns, read without the heap. *)
Fixpoint reduceBoards (fuel : nat) (b : list (list cell)) : outcome (list (list (list cell))) :=
  match fuel with
  | O => OutOfFuel
  | S fuel' =>
      result ←
        foldM (fun (result : list (list (list cell))) (xy : Z * Z) =>
                 currCell ← cellAt b xy.1 xy.2;
                 if bool_decide (piece currCell = NONE) then Ok result
                 else
                   skip ← contributing b (elements (supports currCell));
                   if (skip : bool) then Ok result
                   else
                     nb ← removedBoard b xy.1 xy.2;
                     reduceResult ← wrapErr "failed to reduce board while reducing"
                                      (reduceBoards fuel' nb);
                     Ok (result ++ reduceResult))
              [] cellIndices;
      if bool_decide (length result = 0%nat) then Ok [b] else Ok result
  end.

(** The pieces whose coverage holds the cell [p]. *)
Definition supportersOf (b : list (list cell)) (p : Z) : gset Z := supportersAmong b cellIndices p.

(** Does the piece at [(x, y)] cover a cell that no other piece covers?  This
    is what the inner loop of [reduce] computes on a settled board. *)
Definition contributes (b : list (list cell)) (x y : Z) : bool :=
  bool_decide (Exists (fun c => size (supportersOf b c) = 1%nat) (elements (coverageAt b x y))).

(** The cells whose piece [reduce] removes, in the order it visits them. *)
Definition removableCells (b : list (list cell)) : list (Z * Z) :=
  filter (fun xy => pieceOf b xy.1 xy.2 <> NONE /\ contributes b xy.1 xy.2 = false) cellIndices.

(** The specification's reading: every cell the piece covers is covered by a
    piece on another cell. *)
Definition redundant (b : list (list cell)) (x y : Z) : Prop :=
  forall c, c ∈ coverageAt b x y ->
    exists x' y', 0 <= x' < 8 /\ 0 <= y' < 8 /\ (x', y') <> (x, y) /\ c ∈ coverageAt b x' y'.

(** [br] holds at each cell what [b] holds there, or nothing. *)
Definition restricts (br b : list (list cell)) : Prop :=
  forall x y, pieceOf br x y = pieceOf b x y \/ pieceOf br x y = NONE.

Definition occupiedCells (b : list (list cell)) : gset (Z * Z) :=
  list_to_set (filter (fun xy => pieceOf b xy.1 xy.2 <> NONE) cellIndices).

(** One removal branch of [reduce]: the boards reached from [b] once the piece
    at [xy] is removed. *)
Definition removalBranch (fuel : nat) (b : list (list cell)) (xy : Z * Z)
    : outcome (list (list (list cell))) :=
  nb ← removedBoard b xy.1 xy.2;
  wrapErr "failed to reduce board while reducing" (reduceBoards fuel nb).

(** The cells some piece of the board covers. *)
Definition coveredCells (b : list (list cell)) : gset Z :=
  ⋃ (map (fun xy => coverageAt b xy.1 xy.2) cellIndices).

(** How many cells of the board are covered. *)
Definition coverageCount (b : list (list cell)) : nat :=
  length (filter (fun xy => pointOf xy.1 xy.2 ∈ coveredCells b) cellIndices).

(** Every empty cell of [b] is empty in [b']. *)
Definition emptier (b b' : list (list cell)) : Prop :=
  forall x y, pieceAt b x y = Some NONE -> pieceAt b' x y = Some NONE.

Definition isSupported (c : cell) : Prop := (0 < size (supportedBy c))%nat.

(** The cell at [(x, y)], for a board of the right dimensions. *)
Definition cellOf (b : list (list cell)) (xy : Z * Z) : cell :=
  match cellAt b xy.1 xy.2 with
  | Ok c => c
  | _ => mkCell NONE ∅ ∅
  end.

(** The pointers [rs] lead to the boards [bs]. *)
Definition pointTo (h : list (list (list cell))) (rs : list nat) (bs : list (list (list cell))) : Prop :=
  Forall2 (fun r br => h !! r = Some br) rs bs.

(** A compact state with the given pieces at the given indices of the
    occupancy array, as the tests of the package build them. *)
Definition occupancyOf (pieces : list (Z * Z)) : MinimalBoard :=
  {| board := foldl (fun cells ip => <[Z.to_nat ip.1 := ip.2]> cells)
                    (board zeroMinimalBoard) pieces;
     Heuristic := S754_zero false; IsSolved := false; Score := 0; Coverage := 0 |}.

Definition rebuilt (pieces : list (Z * Z)) : list (list cell) :=
  match RebuildBoard (occupancyOf pieces) with
  | Ok b => b
  | _ => emptyCells
  end.

Definition compactOf (b : list (list cell)) : MinimalBoard :=
  match getMinimalBoard heuristic b with
  | Ok m => m
  | _ => zeroMinimalBoard
  end.

Definition threePawns : list (list cell) := rebuilt [(0, PAWN); (2, PAWN); (4, PAWN)].
Definition rookBehindPawn : list (list cell) := rebuilt [(56, ROOK); (57, PAWN)].

(** A rook on (0,0) with a pawn on (0,2); the same with a second rook on
    (1,7); and the two rooks alone. *)
Definition rookAndPawn : list (list cell) := rebuilt [(0, ROOK); (2, PAWN)].
Definition rooksAndPawn : list (list cell) := rebuilt [(0, ROOK); (2, PAWN); (15, ROOK)].
Definition twoRooks : list (list cell) := rebuilt [(0, ROOK); (15, ROOK)].

(** Does [ProposeBoards] on the board [bv] return a set that holds the
    compact state [m]? *)
Definition proposes (bv : list (list cell)) (m : MinimalBoard) : bool :=
  match ProposeBoards heuristic [bv] 0%nat with
  | Ok (ms, _) => Contains ms m
  | _ => false
  end.
Definition queenAndPawn : list (list cell) := rebuilt [(27, QUEEN); (29, PAWN)].

Definition queenCompact : MinimalBoard := compactOf (rebuilt [(0, QUEEN)]).
Definition emptyCompact : MinimalBoard := compactOf (rebuilt []).

Definition pawnCompact : MinimalBoard := compactOf (rebuilt [(0, PAWN)]).
Definition knightCompact : MinimalBoard := compactOf (rebuilt [(0, KNIGHT)]).

(** The edge set holds the knight board then the pawn board. *)
Definition twoBoardState : state := setEdgeSet initialState [knightCompact; pawnCompact].

Definition afterDispatch (st : state) : state :=
  match dispatch 8 st with
  | Ok st' => st'
  | _ => st
  end.

(** A board of score 29 under the bound 28. *)
Definition overBoundBoard : MinimalBoard :=
  {| board := board zeroMinimalBoard; Heuristic := S754_zero false; IsSolved := false;
     Score := 29; Coverage := 0 |}.

(** ** Notions of the further properties *)

(** The offsets of [pawnCoverage] and [knightCoverage], in the order of the
    [if] statements. *)
Definition pawnOffsets : list (Z * Z) := [(1, 1); (1, -1)].
Definition knightOffsets : list (Z * Z) :=
  [(1, 2); (2, 1); (-1, 2); (-2, 1); (1, -2); (2, -1); (-1, -2); (-2, -1)].

(** [c] is the cell one of the [offsets] away from [(x, y)], on the board. *)
Definition stepsTo (offsets : list (Z * Z)) (x y : Z) (c : Z) : Prop :=
  exists d, d ∈ offsets /\ inBounds (x + d.1) (y + d.2) = true /\
            c = pointOf (x + d.1) (y + d.2).

(** The error of the [default] branch of [getCoverage] for the piece value
    [pc]: the text of its [fmt.Errorf] with the value in decimal digits. *)
Definition unknownCoverageMsg (pc : Z) : string :=
  "attempted to get coverage for unknown piece: " +:+ pretty pc.

Definition sliders : list Z := [BISHOP; ROOK; QUEEN].

(** The error [settleSupportGraph] returns when [getCoverage] fails for the
    piece value [pc], and the error [RebuildBoard] makes of it. *)
Definition settleErrMsg (pc : Z) : string :=
  "failed to get coverage of piece: " +:+ unknownCoverageMsg pc.
Definition rebuildErrMsg (pc : Z) : string :=
  "failed to settle support graph: " +:+ settleErrMsg pc.

(** The first piece value of the list that is outside the closed set; for
    the occupancy in row-major order, the first one the nested [range] loops
    of [settleSupportGraph] meet. *)
Definition firstUnknown (pieces : list Z) : option Z :=
  head (filter (fun p => ~ knownPiece p) pieces).

(** The value [heuristic] returns for a coverage level and a score. *)
Definition heuristicOf (coverage score : Z) : spec_float :=
  f32add (f32div (float32_of_int coverage) (float32_of_int score)) (float32_of_int coverage).

Definition isFinite (f : spec_float) : bool :=
  match f with S754_zero _ | S754_finite _ _ _ => true | _ => false end.

(** What holds of [heuristicOf] at one coverage level and score. *)
Definition heuristicChecked (coverage score : Z) : bool :=
  let h := heuristicOf coverage score in
  Bool.eqb (isNaN h) ((coverage =? 0) && (score =? 0))
  && ((score =? 0) || (isFinite h && negb (f32ltb h (float32_of_int coverage)))).

(** A solved compact state of score 20, and the state in which it is the only
    board waiting in [newBoardQueue]. *)
Definition solvedCompact : MinimalBoard :=
  {| board := board zeroMinimalBoard; Heuristic := S754_zero false; IsSolved := true;
     Score := 20; Coverage := 64 |}.
Definition solvedWaiting : state := setNewBoardQueue initialState [solvedCompact].

(** The boards of the test [getBasicCompleteRookBoard]: one row of rooks. *)
Definition rookRow : list (list cell) :=
  rebuilt [(0, ROOK); (1, ROOK); (2, ROOK); (3, ROOK); (4, ROOK); (5, ROOK); (6, ROOK); (7, ROOK)].

(** [br] holds the pieces of [bv] and one more piece on a cell that is empty
    in [bv], less the pieces that were removed. *)
Definition successorOf (bv br : list (list cell)) : Prop :=
  exists x y pc, 0 <= x < 8 /\ 0 <= y < 8 /\ pieceOf bv x y = NONE /\ PAWN <= pc <= QUEEN /\
    forall x' y', pieceOf br x' y' = NONE \/
                  pieceOf br x' y' = if bool_decide ((x', y') = (x, y)) then pc
                                     else pieceOf bv x' y'.

(** What [ProposeBoards] puts in its result for the board [bv]. *)
Definition proposedFrom (bv : list (list cell)) (m : MinimalBoard) : Prop :=
  exists br, settled br /\ successorOf bv br /\ getMinimalBoard heuristic br = Ok m.

(** A compact state a worker can rebuild and score. *)
Definition rebuildable (m : MinimalBoard) : Prop :=
  wfMinimal m /\ Forall knownPiece (board m) /\ 0 <= Score m.

(** What every reachable configuration of the search satisfies. *)
Definition searchInvariant (workQueueSize : Z) (c : config) : Prop :=
  currBestScore (shared c) <= 28 /\
  Z.of_nat (length (workQueue (shared c))) <= workQueueSize /\
  Forall rebuildable (edgeSet (shared c)) /\
  Forall rebuildable (workQueue (shared c)) /\
  Forall rebuildable (newBoardQueue (shared c)) /\
  Forall rebuildable (inFlight c).

(** The configuration after the first pass of the orchestrator. *)
Definition firstPass : config :=
  match orchestratorPass 8 initialState false with
  | Ok (st', dirty', _) => mkConfig st' dirty' []
  | _ => mkConfig initialState false []
  end.

(** The configuration once a worker has received the root board that the
    first pass dispatched. *)
Definition firstReceive : config :=
  mkConfig (setWorkQueue (shared firstPass) []) (dirty firstPass)
           (inFlight firstPass ++ [zeroMinimalBoard]).

(** * Properties *)

(** ** Points and cells *)

Lemma inBounds_iff x y : inBounds x y = true <-> 0 <= x < 8 /\ 0 <= y < 8.
Proof. unfold inBounds, BOARD_SIZE. lia. Qed.

Lemma inBounds_false x y : inBounds x y = false <-> ~ (0 <= x < 8 /\ 0 <= y < 8).
Proof. rewrite <- inBounds_iff. destruct (inBounds x y); intuition congruence. Qed.

Lemma int8_small z : -128 <= z < 128 -> int8 z = z.
Proof. intros H. unfold int8. rewrite Z.mod_small; lia. Qed.

Lemma point_xy x y : 0 <= x < 8 -> 0 <= y < 8 ->
  point_x (pointOf x y) = x /\ point_y (pointOf x y) = y.
Proof.
  intros Hx Hy. unfold point_x, point_y, pointOf, BOARD_SIZE.
  rewrite Z.quot_div_nonneg, Z.rem_mod_nonneg by lia.
  split.
  - symmetry. apply (Z.div_unique _ 8 x y); lia.
  - symmetry. apply (Z.mod_unique _ 8 x y); lia.
Qed.

Lemma newPointUnsafe_pointOf x y : 0 <= x < 8 -> 0 <= y < 8 -> newPointUnsafe x y = pointOf x y.
Proof. intros. unfold newPointUnsafe, pointOf, BOARD_SIZE. apply int8_small. lia. Qed.

Lemma add_pointOf x y dx dy :
  0 <= x < 8 -> 0 <= y < 8 -> -2 <= dx <= 2 -> -2 <= dy <= 2 ->
  add (pointOf x y) dx dy = (pointOf (x + dx) (y + dy), inBounds (x + dx) (y + dy)).
Proof.
  intros Hx Hy Hdx Hdy. unfold add.
  destruct (point_xy x y Hx Hy) as [-> ->].
  rewrite !(int8_small (x + dx)), !(int8_small (y + dy)) by lia.
  f_equal. unfold pointOf, BOARD_SIZE.
  rewrite (int8_small (dx * 8)) by lia.
  rewrite (int8_small (dx * 8 + dy)) by lia.
  rewrite int8_small by lia. lia.
Qed.

Lemma index_Ok {A} (l : list A) i a : index l i = Ok a <-> 0 <= i /\ l !! Z.to_nat i = Some a.
Proof.
  unfold index. destruct (Z.ltb_spec i 0).
  - split; [discriminate | lia].
  - destruct (l !! Z.to_nat i); split; intros; try discriminate; intuition congruence.
Qed.

Lemma wfBoard_lookup b x y : wfBoard b -> 0 <= x < 8 -> 0 <= y < 8 ->
  exists row c, b !! Z.to_nat x = Some row /\ row !! Z.to_nat y = Some c /\ length row = 8%nat.
Proof.
  intros [Hl Hr] Hx Hy.
  destruct (lookup_lt_is_Some_2 b (Z.to_nat x)) as [row Hrow].
  { rewrite Hl. unfold BOARD_SIZE. lia. }
  assert (Hlen : length row = 8%nat).
  { rewrite Forall_forall in Hr. apply (Hr row). eapply list_elem_of_lookup_2; eauto. }
  destruct (lookup_lt_is_Some_2 row (Z.to_nat y)) as [c Hc]; [lia|].
  eauto.
Qed.

Lemma cellAt_wf b x y : wfBoard b -> 0 <= x < 8 -> 0 <= y < 8 ->
  exists c, cellAt b x y = Ok c /\ pieceAt b x y = Some (piece c).
Proof.
  intros Hwf Hx Hy. destruct (wfBoard_lookup b x y Hwf Hx Hy) as (row & c & Hrow & Hc & _).
  exists c. unfold cellAt, pieceAt.
  assert (Hi : index b x = Ok row) by (apply index_Ok; split; [lia | done]).
  assert (Hj : index row y = Ok c) by (apply index_Ok; split; [lia | done]).
  rewrite Hi. simpl. rewrite Hj.
  rewrite (proj2 (inBounds_iff x y)) by lia.
  rewrite Hrow. simpl. rewrite Hc. done.
Qed.

Lemma getCell_cellAt b x y : 0 <= x < 8 -> 0 <= y < 8 ->
  getCell b (pointOf x y) = cellAt b x y.
Proof. intros Hx Hy. unfold getCell, cellAt. destruct (point_xy x y Hx Hy) as [-> ->]. done. Qed.

#[global] Arguments add : simpl never.
#[global] Arguments slide : simpl nomatch.

(** ** Sliding coverage *)

Lemma isEmpty_wf b x y : wfBoard b -> 0 <= x < 8 -> 0 <= y < 8 ->
  exists p, pieceAt b x y = Some p /\ isEmpty b (pointOf x y) = Ok (bool_decide (p = NONE)).
Proof.
  intros Hwf Hx Hy. destruct (cellAt_wf b x y Hwf Hx Hy) as (c & Hc & Hp).
  exists (piece c). split; [done|].
  unfold isEmpty. rewrite getCell_cellAt, Hc by done. done.
Qed.

Lemma pieceAt_Some_inBounds b x y p : pieceAt b x y = Some p -> inBounds x y = true.
Proof. unfold pieceAt. destruct (inBounds x y); [done | discriminate]. Qed.

Lemma slide_spec b x0 y0 dx dy :
  wfBoard b -> 0 <= x0 < 8 -> 0 <= y0 < 8 -> unitDir dx dy ->
  forall fuel i next acc,
    1 <= i -> 8 <= Z.of_nat fuel + i ->
    (inBounds (x0 + i * dx) (y0 + i * dy) = true -> next = pointOf (x0 + i * dx) (y0 + i * dy)) ->
    exists s, slide fuel b dx dy next (inBounds (x0 + i * dx) (y0 + i * dy)) acc = Ok s /\
              forall c, c ∈ s <-> c ∈ acc \/ reachesFrom b x0 y0 dx dy i c.
Proof.
  intros Hwf Hx Hy (Hdx & Hdy & Hnz).
  induction fuel as [|fuel IH]; intros i next acc Hi Hfuel Hnext.
  - (* no fuel left: the cell is off the board *)
    assert (Hout : inBounds (x0 + i * dx) (y0 + i * dy) = false).
    { apply inBounds_false. nia. }
    rewrite Hout. simpl. exists acc. split; [done|].
    intros c. split; [auto|]. intros [H | (k & Hk & Hin & _ & Hall)]; [done|].
    exfalso. apply inBounds_iff in Hin. nia.
  - destruct (inBounds (x0 + i * dx) (y0 + i * dy)) eqn:Hin.
    + specialize (Hnext eq_refl). subst next.
      pose proof (proj1 (inBounds_iff _ _) Hin) as [Hxi Hyi].
      destruct (isEmpty_wf b _ _ Hwf Hxi Hyi) as (p & Hp & He).
      cbn [slide]. rewrite He. cbn.
      destruct (bool_decide (p = NONE)) eqn:Hpe.
      * apply bool_decide_eq_true in Hpe. subst p.
        rewrite add_pointOf by lia.
        cbn [fst snd].
        replace (x0 + i * dx + dx) with (x0 + (i + 1) * dx) by lia.
        replace (y0 + i * dy + dy) with (y0 + (i + 1) * dy) by lia.
        destruct (IH (i + 1) (pointOf (x0 + (i + 1) * dx) (y0 + (i + 1) * dy))
                     (put acc (pointOf (x0 + i * dx) (y0 + i * dy))))
          as (s & Hs & Hspec); [lia | lia | done |].
        exists s. split; [done|]. intros c. rewrite Hspec. unfold put.
        rewrite elem_of_union, elem_of_singleton. split.
        -- intros [[-> | H] | (k & Hk & Hkin & Hc & Hall)]; [| by left |].
           ++ right. exists i. repeat split; [lia | done | intros; lia].
           ++ right. exists k. repeat split; [lia | done | done |].
              intros j Hj. destruct (decide (j = i)) as [-> | Hne]; [done|].
              apply Hall. lia.
        -- intros [H | (k & Hk & Hkin & Hc & Hall)]; [by left; right|].
           destruct (decide (k = i)) as [-> | Hne]; [by left; left|].
           right. exists k. repeat split; [lia | done | done |].
           intros j Hj. apply Hall. lia.
      * apply bool_decide_eq_false in Hpe.
        eexists. split; [done|]. intros c. unfold put.
        rewrite elem_of_union, elem_of_singleton. split.
        -- intros [-> | H]; [|by left].
           right. exists i. repeat split; [lia | done | intros; lia].
        -- intros [H | (k & Hk & Hkin & Hc & Hall)]; [by right|].
           destruct (decide (k = i)) as [-> | Hne]; [by left|].
           exfalso. specialize (Hall i ltac:(lia)). congruence.
    + cbn [slide]. exists acc. split; [done|].
      intros c. split; [auto|]. intros [H | (k & Hk & Hkin & Hc & Hall)]; [done|].
      exfalso. destruct (decide (k = i)) as [-> | Hne]; [congruence|].
      specialize (Hall i ltac:(lia)). apply pieceAt_Some_inBounds in Hall. congruence.
Qed.

Lemma ray_spec b x0 y0 dx dy acc :
  wfBoard b -> 0 <= x0 < 8 -> 0 <= y0 < 8 -> unitDir dx dy ->
  exists s, ray b (pointOf x0 y0) dx dy acc = Ok s /\
            forall c, c ∈ s <-> c ∈ acc \/ rayReaches b x0 y0 dx dy c.
Proof.
  intros Hwf Hx Hy Hd. unfold ray.
  pose proof Hd as (Hdx & Hdy & _).
  rewrite add_pointOf by lia. cbn [fst snd].
  replace (x0 + dx) with (x0 + 1 * dx) by lia.
  replace (y0 + dy) with (y0 + 1 * dy) by lia.
  apply (slide_spec b x0 y0 dx dy Hwf Hx Hy Hd rayFuel 1); [lia | vm_compute; discriminate | done].
Qed.

Lemma unitDir_bishop d : d ∈ bishopDirs -> unitDir d.1 d.2.
Proof. unfold bishopDirs, unitDir. rewrite !elem_of_cons, elem_of_nil.
  intros [-> | [-> | [-> | [-> | []]]]]; cbn; lia. Qed.

Lemma unitDir_rook d : d ∈ rookDirs -> unitDir d.1 d.2.
Proof. unfold rookDirs, unitDir. rewrite !elem_of_cons, elem_of_nil.
  intros [-> | [-> | [-> | [-> | []]]]]; cbn; lia. Qed.

Lemma four_rays b x0 y0 d1 d2 d3 d4 :
  wfBoard b -> 0 <= x0 < 8 -> 0 <= y0 < 8 ->
  unitDir d1.1 d1.2 -> unitDir d2.1 d2.2 -> unitDir d3.1 d3.2 -> unitDir d4.1 d4.2 ->
  exists s,
    (result ← ray b (pointOf x0 y0) d1.1 d1.2 ∅;
     result ← ray b (pointOf x0 y0) d2.1 d2.2 result;
     result ← ray b (pointOf x0 y0) d3.1 d3.2 result;
     ray b (pointOf x0 y0) d4.1 d4.2 result) = Ok s /\
    forall c, c ∈ s <-> reachedAlong [d1; d2; d3; d4] b x0 y0 c.
Proof.
  intros Hwf Hx Hy H1 H2 H3 H4.
  destruct (ray_spec b x0 y0 _ _ ∅ Hwf Hx Hy H1) as (s1 & E1 & S1).
  destruct (ray_spec b x0 y0 _ _ s1 Hwf Hx Hy H2) as (s2 & E2 & S2).
  destruct (ray_spec b x0 y0 _ _ s2 Hwf Hx Hy H3) as (s3 & E3 & S3).
  destruct (ray_spec b x0 y0 _ _ s3 Hwf Hx Hy H4) as (s4 & E4 & S4).
  exists s4. rewrite E1. cbn. rewrite E2. cbn. rewrite E3. cbn. split; [done|].
  intros c. rewrite S4, S3, S2, S1. unfold reachedAlong. split.
  - intros [[[[H | H] | H] | H] | H]; [by apply not_elem_of_empty in H | ..];
      eexists; (split; [|exact H]); rewrite !elem_of_cons; auto.
  - intros (d & Hd & H). rewrite !elem_of_cons, elem_of_nil in Hd.
    destruct Hd as [-> | [-> | [-> | [-> | []]]]]; auto.
Qed.

Lemma bishopCoverage_spec b x0 y0 :
  wfBoard b -> 0 <= x0 < 8 -> 0 <= y0 < 8 ->
  exists s, bishopCoverage b (pointOf x0 y0) = Ok s /\
            forall c, c ∈ s <-> reachedAlong bishopDirs b x0 y0 c.
Proof.
  intros Hwf Hx Hy.
  apply (four_rays b x0 y0 (1, 1) (-1, 1) (1, -1) (-1, -1) Hwf Hx Hy);
    apply unitDir_bishop; unfold bishopDirs; rewrite !elem_of_cons; auto.
Qed.

Lemma rookCoverage_spec b x0 y0 :
  wfBoard b -> 0 <= x0 < 8 -> 0 <= y0 < 8 ->
  exists s, rookCoverage b (pointOf x0 y0) = Ok s /\
            forall c, c ∈ s <-> reachedAlong rookDirs b x0 y0 c.
Proof.
  intros Hwf Hx Hy.
  apply (four_rays b x0 y0 (1, 0) (0, 1) (-1, 0) (0, -1) Hwf Hx Hy);
    apply unitDir_rook; unfold rookDirs; rewrite !elem_of_cons; auto.
Qed.

Lemma foldl_put (l : list Z) (acc : gset Z) : foldl put acc l = acc ∪ list_to_set l.
Proof.
  revert acc. induction l as [|a l IH]; intros acc; cbn.
  - set_solver.
  - rewrite IH. unfold put. set_solver.
Qed.

Lemma queenCoverage_union b p bs rs :
  bishopCoverage b p = Ok bs -> rookCoverage b p = Ok rs ->
  queenCoverage b p = Ok (bs ∪ rs).
Proof.
  intros Hb Hr. unfold queenCoverage. rewrite Hb. cbn. rewrite Hr. cbn.
  rewrite foldl_put. f_equal. f_equal. apply list_to_set_elements_L.
Qed.

Lemma point_decompose p : 0 <= p < BOARD_SIZE * BOARD_SIZE ->
  0 <= point_x p < 8 /\ 0 <= point_y p < 8 /\ p = pointOf (point_x p) (point_y p).
Proof.
  unfold BOARD_SIZE, point_x, point_y, pointOf, BOARD_SIZE. intros Hp.
  rewrite Z.quot_div_nonneg, Z.rem_mod_nonneg by lia.
  pose proof (Z.div_mod p 8 ltac:(lia)). pose proof (Z.mod_pos_bound p 8 ltac:(lia)).
  assert (0 <= p / 8 < 8) by (split; [apply Z.div_pos; lia | apply Z.div_lt_upper_bound; lia]).
  lia.
Qed.

(** C1: on every board and from every cell, the coverage of a bishop and of
    a rook holds exactly the cells reached along their four rays: a cell of
    the board at [k >= 1] steps from the origin such that the cells at steps
    [1 .. k-1] are empty (so the first occupied cell is in, nothing behind it
    is, and nothing off the board is); the coverage of a queen is the union
    of the two. *)
Theorem sliding_coverage_exact (b : list (list cell)) (p : Z) :
  wfBoard b -> 0 <= p < BOARD_SIZE * BOARD_SIZE ->
  exists bs rs qs,
    bishopCoverage b p = Ok bs /\ rookCoverage b p = Ok rs /\ queenCoverage b p = Ok qs /\
    (forall c, c ∈ bs <-> reachedAlong bishopDirs b (point_x p) (point_y p) c) /\
    (forall c, c ∈ rs <-> reachedAlong rookDirs b (point_x p) (point_y p) c) /\
    qs = bs ∪ rs.
Proof.
  intros Hwf Hp. destruct (point_decompose p Hp) as (Hx & Hy & Heq).
  destruct (bishopCoverage_spec b _ _ Hwf Hx Hy) as (bs & Hb & Hbs).
  destruct (rookCoverage_spec b _ _ Hwf Hx Hy) as (rs & Hr & Hrs).
  rewrite <- Heq in Hb, Hr.
  exists bs, rs, (bs ∪ rs). repeat split; try done; try apply Hbs; try apply Hrs.
  by apply queenCoverage_union.
Qed.

(** ** The support graph *)

Lemma elem_of_cellIndices x y : (x, y) ∈ cellIndices <-> 0 <= x < 8 /\ 0 <= y < 8.
Proof.
  unfold cellIndices. rewrite list_elem_of_bind. split.
  - intros (x' & H & Hx). apply list_elem_of_bind in H as (y' & H & Hy).
    apply list_elem_of_singleton in H. injection H as -> ->.
    apply elem_of_seqZ in Hx, Hy. unfold BOARD_SIZE in *. lia.
  - intros [Hx Hy]. exists x. split; [|apply elem_of_seqZ; unfold BOARD_SIZE; lia].
    apply list_elem_of_bind. exists y. split; [apply list_elem_of_singleton; done|].
    apply elem_of_seqZ; unfold BOARD_SIZE; lia.
Qed.

Lemma foldM_invariant {A B} (f : A -> B -> outcome A) (I : list B -> A -> Prop) (l : list B) :
  (forall done x a, I done a -> x ∈ l -> exists a', f a x = Ok a' /\ I (done ++ [x]) a') ->
  forall a, I [] a -> exists a', foldM f a l = Ok a' /\ I l a'.
Proof.
  intros Hstep.
  assert (G : forall rest done a, (forall x, x ∈ rest -> x ∈ l) -> I done a ->
              exists a', foldM f a rest = Ok a' /\ I (done ++ rest) a').
  { induction rest as [|x rest IH]; intros done a Hsub Ha.
    - exists a. rewrite app_nil_r. done.
    - destruct (Hstep done x a Ha) as (a1 & Hf & Ha1); [apply Hsub; left|].
      destruct (IH (done ++ [x]) a1) as (a2 & Hf2 & Ha2); [intros; apply Hsub; by right | done |].
      exists a2. cbn. rewrite Hf. cbn. rewrite <- app_assoc in Ha2. done. }
  intros a Ha. apply (G l [] a); auto.
Qed.

Lemma pointOf_inj x y x' y' :
  0 <= y < 8 -> 0 <= y' < 8 -> pointOf x y = pointOf x' y' -> x = x' /\ y = y'.
Proof. unfold pointOf, BOARD_SIZE. lia. Qed.

(** *** Reading a board after a write to one cell *)

Lemma wfBoard_alter b f x y : wfBoard b -> wfBoard (alter (alter f y) x b).
Proof.
  intros [Hl Hr]. split; [by rewrite length_alter|].
  apply Forall_alter; [done|]. intros row _ Hrow. by rewrite length_alter.
Qed.

Lemma cellAt_Ok b x y c :
  cellAt b x y = Ok c <->
  0 <= x /\ 0 <= y /\ exists row, b !! Z.to_nat x = Some row /\ row !! Z.to_nat y = Some c.
Proof.
  unfold cellAt. split.
  - destruct (index b x) as [row| | |] eqn:Hi; try discriminate. cbn.
    intros Hj. apply index_Ok in Hi as [? ?], Hj as [? ?]. eauto.
  - intros (Hx & Hy & row & Hrow & Hc).
    rewrite (proj2 (index_Ok b x row)) by done. cbn. by apply index_Ok.
Qed.

Lemma cellAt_alter b f x y x' y' :
  wfBoard b -> 0 <= x < 8 -> 0 <= y < 8 -> 0 <= x' < 8 -> 0 <= y' < 8 ->
  cellAt (alter (alter f (Z.to_nat y')) (Z.to_nat x') b) x y =
  if bool_decide (x = x' /\ y = y')
  then c ← cellAt b x y; Ok (f c)
  else cellAt b x y.
Proof.
  intros Hwf Hx Hy Hx' Hy'.
  destruct (wfBoard_lookup b x y Hwf Hx Hy) as (row & c & Hrow & Hc & Hlen).
  assert (Hb : cellAt b x y = Ok c) by (apply cellAt_Ok; eauto 6 with lia).
  rewrite Hb. cbn.
  case_bool_decide as Heq.
  - destruct Heq as [<- <-]. apply cellAt_Ok. split; [lia|]. split; [lia|].
    exists (alter f (Z.to_nat y) row). split.
    + by rewrite list_lookup_alter_eq, Hrow.
    + by rewrite list_lookup_alter_eq, Hc.
  - apply cellAt_Ok. split; [lia|]. split; [lia|].
    destruct (decide (x = x')) as [<- | Hne].
    + exists (alter f (Z.to_nat y') row). split.
      * by rewrite list_lookup_alter_eq, Hrow.
      * rewrite list_lookup_alter_ne; [done|]. intros E. apply Heq. split; [done|lia].
    + exists row. split; [|done].
      rewrite list_lookup_alter_ne; [done|]. lia.
Qed.

Lemma pieceAt_cellAt b x y : 0 <= x < 8 -> 0 <= y < 8 ->
  pieceAt b x y = match cellAt b x y with Ok c => Some (piece c) | _ => None end.
Proof.
  intros Hx Hy. unfold pieceAt. rewrite (proj2 (inBounds_iff x y)) by done.
  destruct (cellAt b x y) as [c| | |] eqn:Hc.
  - apply cellAt_Ok in Hc as (_ & _ & row & -> & Hc). cbn. by rewrite Hc.
  - unfold cellAt in Hc. destruct (index b x) eqn:Hi; cbn in Hc; try discriminate.
    all: unfold index in *; repeat case_match; congruence.
  - destruct (b !! Z.to_nat x) as [row|] eqn:Hrow; cbn; [|done].
    destruct (row !! Z.to_nat y) as [c|] eqn:Hcc; cbn; [|done].
    exfalso. assert (cellAt b x y = Ok c) by (apply cellAt_Ok; eauto 6 with lia). congruence.
  - unfold cellAt in Hc. destruct (index b x) eqn:Hi; cbn in Hc; try discriminate.
    all: unfold index in *; repeat case_match; congruence.
Qed.

Lemma pieceAt_outside b x y : ~ (0 <= x < 8 /\ 0 <= y < 8) -> pieceAt b x y = None.
Proof. intros H. unfold pieceAt. by rewrite (proj2 (inBounds_false x y)). Qed.

Lemma pointOf_range x y : 0 <= x < 8 -> 0 <= y < 8 -> 0 <= pointOf x y < 64.
Proof. unfold pointOf, BOARD_SIZE. lia. Qed.

Lemma putValid_spec s pv c : c ∈ putValid s pv <-> c ∈ s \/ (pv.2 = true /\ c = pv.1).
Proof.
  unfold putValid, put. destruct pv as [p []]; cbn.
  - rewrite elem_of_union, elem_of_singleton. intuition.
  - intuition congruence.
Qed.

Lemma add_in_range x y dx dy c :
  0 <= x < 8 -> 0 <= y < 8 -> -2 <= dx <= 2 -> -2 <= dy <= 2 ->
  (add (pointOf x y) dx dy).2 = true /\ c = (add (pointOf x y) dx dy).1 -> 0 <= c < 64.
Proof.
  intros Hx Hy Hdx Hdy. rewrite add_pointOf by lia. cbn. intros [Hin ->].
  apply inBounds_iff in Hin as [? ?]. by apply pointOf_range.
Qed.

Lemma rayReaches_samePieces b b' x0 y0 dx dy c :
  samePieces b b' -> rayReaches b x0 y0 dx dy c -> rayReaches b' x0 y0 dx dy c.
Proof.
  intros Hs (k & Hk & Hin & Hc & Hall). exists k. repeat split; try done.
  intros j Hj. rewrite <- Hs. by apply Hall.
Qed.

Lemma reachedAlong_samePieces dirs b b' x0 y0 c :
  samePieces b b' -> reachedAlong dirs b x0 y0 c -> reachedAlong dirs b' x0 y0 c.
Proof. intros Hs (d & Hd & H). exists d. eauto using rayReaches_samePieces. Qed.

Lemma samePieces_sym b b' : samePieces b b' -> samePieces b' b.
Proof. intros H x y. symmetry. apply H. Qed.

Lemma rayReaches_in_range b x0 y0 dx dy c : rayReaches b x0 y0 dx dy c -> 0 <= c < 64.
Proof. intros (k & _ & Hin & -> & _). apply inBounds_iff in Hin as [? ?]. by apply pointOf_range. Qed.

Lemma getCoverage_known b x y pc :
  wfBoard b -> 0 <= x < 8 -> 0 <= y < 8 -> knownPiece pc -> pc <> NONE ->
  exists s, getCoverage b (pointOf x y) pc = Ok s /\ forall c, c ∈ s -> 0 <= c < 64.
Proof.
  intros Hwf Hx Hy Hk Hne. unfold getCoverage, knownPiece, NONE, PAWN, KNIGHT, BISHOP, ROOK, QUEEN in *.
  destruct (bishopCoverage_spec b x y Hwf Hx Hy) as (bs & Hb & Hbs).
  destruct (rookCoverage_spec b x y Hwf Hx Hy) as (rs & Hr & Hrs).
  repeat case_bool_decide; try lia.
  - eexists; split; [done|]. intros c. unfold pawnCoverage. rewrite !putValid_spec.
    intros [[Hm | Hm] | Hm]; [by apply not_elem_of_empty in Hm | ..];
      eapply add_in_range; try exact Hm; lia.
  - eexists; split; [done|]. intros c. unfold knightCoverage. rewrite !putValid_spec.
    intros [[[[[[[[Hm | Hm] | Hm] | Hm] | Hm] | Hm] | Hm] | Hm] | Hm];
      [by apply not_elem_of_empty in Hm | ..]; eapply add_in_range; try exact Hm; lia.
  - exists bs. split; [done|]. intros c Hc. apply Hbs in Hc as (d & _ & Hm).
    eauto using rayReaches_in_range.
  - exists rs. split; [done|]. intros c Hc. apply Hrs in Hc as (d & _ & Hm).
    eauto using rayReaches_in_range.
  - exists (bs ∪ rs). split; [by apply queenCoverage_union|].
    intros c [Hc | Hc]%elem_of_union.
    + apply Hbs in Hc as (d & _ & Hm). eauto using rayReaches_in_range.
    + apply Hrs in Hc as (d & _ & Hm). eauto using rayReaches_in_range.
Qed.

Lemma getCoverage_samePieces b b' x y pc :
  wfBoard b -> wfBoard b' -> samePieces b b' -> 0 <= x < 8 -> 0 <= y < 8 ->
  getCoverage b (pointOf x y) pc = getCoverage b' (pointOf x y) pc.
Proof.
  intros Hwf Hwf' Hs Hx Hy.
  destruct (bishopCoverage_spec b x y Hwf Hx Hy) as (bs & Hb & Hbs).
  destruct (rookCoverage_spec b x y Hwf Hx Hy) as (rs & Hr & Hrs).
  destruct (bishopCoverage_spec b' x y Hwf' Hx Hy) as (bs' & Hb' & Hbs').
  destruct (rookCoverage_spec b' x y Hwf' Hx Hy) as (rs' & Hr' & Hrs').
  assert (bs = bs') as <-.
  { apply set_eq. intros c. rewrite Hbs, Hbs'.
    split; apply reachedAlong_samePieces; auto using samePieces_sym. }
  assert (rs = rs') as <-.
  { apply set_eq. intros c. rewrite Hrs, Hrs'.
    split; apply reachedAlong_samePieces; auto using samePieces_sym. }
  unfold getCoverage.
  rewrite (queenCoverage_union b _ bs rs Hb Hr), (queenCoverage_union b' _ bs rs Hb' Hr').
  rewrite Hb, Hb', Hr, Hr'. reflexivity.
Qed.

Lemma updCell_wf b x y f :
  wfBoard b -> 0 <= x < 8 -> 0 <= y < 8 ->
  updCell b (pointOf x y) f = Ok (alter (alter f (Z.to_nat y)) (Z.to_nat x) b).
Proof.
  intros Hwf Hx Hy. unfold updCell. destruct (point_xy x y Hx Hy) as [-> ->].
  destruct (wfBoard_lookup b x y Hwf Hx Hy) as (row & c & Hrow & Hc & _).
  rewrite (proj2 (index_Ok b x row)) by (split; [lia | done]). cbn.
  rewrite (proj2 (index_Ok row y c)) by (split; [lia | done]). done.
Qed.

Lemma pieceOf_cellAt b x y c : 0 <= x < 8 -> 0 <= y < 8 -> cellAt b x y = Ok c -> pieceOf b x y = piece c.
Proof. intros Hx Hy Hc. unfold pieceOf. by rewrite pieceAt_cellAt, Hc. Qed.

Lemma coverageAt_samePieces b b' x y :
  wfBoard b -> wfBoard b' -> samePieces b b' -> 0 <= x < 8 -> 0 <= y < 8 ->
  coverageAt b x y = coverageAt b' x y.
Proof.
  intros Hwf Hwf' Hs Hx Hy. unfold coverageAt.
  destruct (cellAt_wf b x y Hwf Hx Hy) as (c & Hc & Hp).
  destruct (cellAt_wf b' x y Hwf' Hx Hy) as (c' & Hc' & Hp').
  rewrite Hc, Hc'. rewrite Hs, Hp' in Hp. injection Hp as Hp. rewrite Hp.
  rewrite newPointUnsafe_pointOf by done.
  by rewrite (getCoverage_samePieces b b').
Qed.

Lemma coverageAt_piece b x y c s :
  cellAt b x y = Ok c -> piece c <> NONE ->
  getCoverage b (newPointUnsafe x y) (piece c) = Ok s -> coverageAt b x y = s.
Proof.
  intros Hc Hne Hs. unfold coverageAt. rewrite Hc.
  rewrite bool_decide_eq_true_2 by done. by rewrite Hs.
Qed.

Lemma coverageAt_none b x y c :
  cellAt b x y = Ok c -> piece c = NONE -> coverageAt b x y = ∅.
Proof.
  intros Hc He. unfold coverageAt. rewrite Hc.
  rewrite bool_decide_eq_false_2; [done|]. intros H. by apply H.
Qed.

#[global] Opaque coverageAt.

Lemma supportersAmong_samePieces b b' cells p :
  wfBoard b -> wfBoard b' -> samePieces b b' ->
  (forall xy, xy ∈ cells -> 0 <= xy.1 < 8 /\ 0 <= xy.2 < 8) ->
  supportersAmong b cells p = supportersAmong b' cells p.
Proof.
  intros Hwf Hwf' Hs Hin. unfold supportersAmong.
  assert (E : filter (fun xy : Z * Z => p ∈ coverageAt b xy.1 xy.2) cells =
              filter (fun xy : Z * Z => p ∈ coverageAt b' xy.1 xy.2) cells).
  { induction cells as [|xy cells IH]; [cbn; reflexivity|].
    destruct (Hin xy) as [Hx Hy]; [left|].
    rewrite !filter_cons, IH by (intros; apply Hin; by right).
    by rewrite (coverageAt_samePieces b b' _ _ Hwf Hwf' Hs Hx Hy). }
  by rewrite E.
Qed.

Lemma supportersAmong_snoc b cells xy p :
  supportersAmong b (cells ++ [xy]) p =
  supportersAmong b cells p ∪
    (if bool_decide (p ∈ coverageAt b xy.1 xy.2) then {[ pointOf xy.1 xy.2 ]} else ∅).
Proof.
  unfold supportersAmong. rewrite filter_app, map_app, list_to_set_app_L. f_equal.
  rewrite filter_cons, filter_nil. case_bool_decide; case_decide; try done; cbn; set_solver.
Qed.

Lemma elem_of_supportersAmong b cells p q :
  q ∈ supportersAmong b cells p <->
  exists xy, xy ∈ cells /\ q = pointOf xy.1 xy.2 /\ p ∈ coverageAt b xy.1 xy.2.
Proof.
  unfold supportersAmong. rewrite elem_of_list_to_set, list_elem_of_fmap.
  split.
  - intros (xy & -> & H). apply list_elem_of_filter in H as [? ?]. eauto.
  - intros (xy & H & -> & Hc). exists xy. split; [done|]. by apply list_elem_of_filter.
Qed.

Lemma pieceAt_wf b x y : wfBoard b -> 0 <= x < 8 -> 0 <= y < 8 ->
  pieceAt b x y = Some (pieceOf b x y).
Proof.
  intros Hwf Hx Hy. destruct (cellAt_wf b x y Hwf Hx Hy) as (c & _ & Hp).
  unfold pieceOf. by rewrite Hp.
Qed.

Lemma settledUpTo_samePieces b0 done b :
  wfBoard b0 -> settledUpTo b0 done b -> samePieces b b0.
Proof.
  intros Hwf0 [Hwf Hcells] x y.
  destruct (decide (0 <= x < 8 /\ 0 <= y < 8)) as [[Hx Hy] | Hout].
  - rewrite (pieceAt_cellAt b), Hcells by done. cbn. symmetry. by apply pieceAt_wf.
  - by rewrite !pieceAt_outside.
Qed.

Lemma wfBoard_map f b : wfBoard b -> wfBoard (map (map f) b).
Proof.
  intros [Hl Hr]. split; [by rewrite length_map|].
  apply Forall_map. eapply Forall_impl; [exact Hr|]. intros row Hrow. cbn. by rewrite length_map.
Qed.

Lemma cellAt_map f b x y c : cellAt b x y = Ok c -> cellAt (map (map f) b) x y = Ok (f c).
Proof.
  intros (Hx & Hy & row & Hrow & Hc)%cellAt_Ok. apply cellAt_Ok. split; [done|]. split; [done|].
  exists (map f row). split.
  - by rewrite list_lookup_fmap, Hrow.
  - by rewrite list_lookup_fmap, Hc.
Qed.

Lemma supportersAmong_nil b p : supportersAmong b [] p = ∅.
Proof. reflexivity. Qed.

Lemma settledUpTo_clear b0 :
  wfBoard b0 -> settledUpTo b0 [] (map (map clearSupport) b0).
Proof.
  intros Hwf. split; [by apply wfBoard_map|]. intros x y Hx Hy.
  destruct (cellAt_wf b0 x y Hwf Hx Hy) as (c & Hc & Hp).
  rewrite (cellAt_map _ _ _ _ c Hc). unfold clearSupport.
  rewrite supportersAmong_nil. cbn. do 2 f_equal.
  unfold pieceOf. by rewrite Hp.
Qed.

Lemma knownPiece_pieceOf b x y : validPieces b -> knownPiece (pieceOf b x y).
Proof.
  intros Hv. unfold pieceOf, pieceAt.
  destruct (inBounds x y); [|cbn; unfold knownPiece, NONE; lia].
  destruct (b !! Z.to_nat x) as [row|] eqn:Hrow; cbn; [|unfold knownPiece, NONE; lia].
  destruct (row !! Z.to_nat y) as [c|] eqn:Hc; cbn; [|unfold knownPiece, NONE; lia].
  unfold validPieces in Hv. rewrite Forall_forall in Hv.
  specialize (Hv row ltac:(eapply list_elem_of_lookup_2; eauto)).
  rewrite Forall_forall in Hv. apply Hv. eapply list_elem_of_lookup_2; eauto.
Qed.

Lemma elem_of_snoc_ne {A} (l : list A) (a x : A) : a <> x -> a ∈ l ++ [x] <-> a ∈ l.
Proof. intros Hne. rewrite elem_of_app, list_elem_of_singleton. intuition. Qed.

(** The inner loop of [settleSupportGraph]: every covered cell records the
    covering piece. *)
Lemma addSupport_loop b0 done x y (cov : gset Z) :
  wfBoard b0 -> 0 <= x < 8 -> 0 <= y < 8 ->
  (forall c, c ∈ cov -> 0 <= c < 64) ->
  forall b1,
    (wfBoard b1 /\ forall x' y', 0 <= x' < 8 -> 0 <= y' < 8 ->
       cellAt b1 x' y' =
       Ok (mkCell (pieceOf b0 x' y')
                  (if bool_decide ((x', y') ∈ done ++ [(x, y)]) then coverageAt b0 x' y' else ∅)
                  (supportersAmong b0 done (pointOf x' y')))) ->
    exists b2,
      foldM (fun b coveredPoint => updCell b coveredPoint (fun c => addSupport c (pointOf x y)))
            b1 (elements cov) = Ok b2 /\
      wfBoard b2 /\
      forall x' y', 0 <= x' < 8 -> 0 <= y' < 8 ->
        cellAt b2 x' y' =
        Ok (mkCell (pieceOf b0 x' y')
                   (if bool_decide ((x', y') ∈ done ++ [(x, y)]) then coverageAt b0 x' y' else ∅)
                   (supportersAmong b0 done (pointOf x' y') ∪
                      (if bool_decide (pointOf x' y' ∈ cov) then {[ pointOf x y ]} else ∅))).
Proof.
  intros Hwf0 Hx Hy Hcov b1 [Hwf1 Hb1].
  pose (I := fun (ds : list Z) (b : list (list cell)) =>
    wfBoard b /\ forall x' y', 0 <= x' < 8 -> 0 <= y' < 8 ->
      cellAt b x' y' =
      Ok (mkCell (pieceOf b0 x' y')
                 (if bool_decide ((x', y') ∈ done ++ [(x, y)]) then coverageAt b0 x' y' else ∅)
                 (supportersAmong b0 done (pointOf x' y') ∪
                    (if bool_decide (pointOf x' y' ∈ ds) then {[ pointOf x y ]} else ∅)))).
  destruct (foldM_invariant
              (fun b coveredPoint => updCell b coveredPoint (fun c => addSupport c (pointOf x y)))
              I (elements cov)) with (a := b1) as (b2 & Hfold & Hwf2 & Hb2).
  - intros ds cp b [Hwf Hb] Hcp. apply elem_of_elements in Hcp.
    destruct (point_decompose cp) as (Hcx & Hcy & Hcpeq); [apply Hcov in Hcp; unfold BOARD_SIZE; lia|].
    pose proof (updCell_wf b _ _ (fun c => addSupport c (pointOf x y)) Hwf Hcx Hcy) as Hu.
    rewrite <- Hcpeq in Hu.
    eexists. split; [exact Hu|]. split; [by apply wfBoard_alter|].
    intros x' y' Hx' Hy'. rewrite cellAt_alter, Hb by done.
    case_bool_decide as Heq.
    + destruct Heq as [-> ->]. cbn. unfold addSupport, put. cbn.
      rewrite <- Hcpeq. f_equal. f_equal.
      rewrite (bool_decide_eq_true_2 (cp ∈ ds ++ [cp])) by (apply elem_of_app; right; by left).
      case_bool_decide; set_solver.
    + rewrite (bool_decide_ext (pointOf x' y' ∈ ds ++ [cp]) (pointOf x' y' ∈ ds)); [done|].
      apply elem_of_snoc_ne.
      intros E. apply Heq. rewrite Hcpeq in E. by apply pointOf_inj in E.
  - split; [done|]. intros x' y' Hx' Hy'. rewrite Hb1 by done.
    rewrite (bool_decide_eq_false_2 (_ ∈ [])) by (apply not_elem_of_nil).
    by rewrite (right_id_L ∅ (∪)).
  - exists b2. split; [done|]. split; [done|].
    intros x' y' Hx' Hy'. rewrite Hb2 by done.
    by rewrite (bool_decide_ext (pointOf x' y' ∈ elements cov) (pointOf x' y' ∈ cov))
      by apply elem_of_elements.
Qed.

Lemma wrapErr_Ok {A} prefix (a : A) : wrapErr prefix (Ok a) = Ok a.
Proof. reflexivity. Qed.

Lemma settleCell_step b0 done b x y :
  wfBoard b0 -> validPieces b0 -> 0 <= x < 8 -> 0 <= y < 8 ->
  settledUpTo b0 done b ->
  exists b', settleCell b (x, y) = Ok b' /\ settledUpTo b0 (done ++ [(x, y)]) b'.
Proof.
  intros Hwf0 Hv Hx Hy Hinv. pose proof Hinv as [Hwf Hb].
  pose proof (settledUpTo_samePieces _ _ _ Hwf0 Hinv) as Hsame.
  destruct (cellAt_wf b0 x y Hwf0 Hx Hy) as (c0 & Hc0 & Hp0).
  assert (Hpc : pieceOf b0 x y = piece c0) by (unfold pieceOf; by rewrite Hp0).
  unfold settleCell. rewrite Hb by done. cbn [mbind outcome_bind piece].
  case_bool_decide as Hne.
  - (* a piece stands on the cell *)
    destruct (getCoverage_known b0 x y (pieceOf b0 x y) Hwf0 Hx Hy) as (cov & Hcov & Hrange);
      [by apply knownPiece_pieceOf | done |].
    assert (Hcovb : getCoverage b (newPointUnsafe x y) (pieceOf b0 x y) = Ok cov).
    { rewrite newPointUnsafe_pointOf by done.
      by rewrite (getCoverage_samePieces b b0 x y _ Hwf Hwf0 Hsame Hx Hy). }
    assert (Hcat : coverageAt b0 x y = cov).
    { apply (coverageAt_piece b0 x y c0); [done | congruence |].
      rewrite newPointUnsafe_pointOf by done. by rewrite <- Hpc. }
    rewrite Hcovb, wrapErr_Ok. cbn [mbind outcome_bind].
    rewrite newPointUnsafe_pointOf by done.
    destruct (addSupport_loop b0 done x y cov Hwf0 Hx Hy Hrange (setSupports b x y cov))
      as (b2 & Hfold & Hwf2 & Hb2).
    { split; [by apply wfBoard_alter|]. intros x' y' Hx' Hy'.
      unfold setSupports. rewrite cellAt_alter, Hb by done.
      case_bool_decide as Heq.
      - destruct Heq as [-> ->]. cbn.
        rewrite (bool_decide_eq_true_2 ((x, y) ∈ done ++ [(x, y)]))
          by (apply elem_of_app; right; by left).
        by rewrite Hcat.
      - rewrite (bool_decide_ext ((x', y') ∈ done ++ [(x, y)]) ((x', y') ∈ done)); [done|].
        apply elem_of_snoc_ne. intros E. apply Heq. by injection E. }
    exists b2. split; [exact Hfold|]. split; [done|].
    intros x' y' Hx' Hy'. rewrite Hb2 by done.
    rewrite supportersAmong_snoc. cbn [fst snd]. by rewrite Hcat.
  - (* the cell is empty *)
    assert (He : pieceOf b0 x y = NONE) by (destruct (decide (pieceOf b0 x y = NONE)); tauto).
    assert (Hcat : coverageAt b0 x y = ∅).
    { apply (coverageAt_none b0 x y c0); [done | congruence]. }
    exists b. split; [done|]. split; [done|].
    intros x' y' Hx' Hy'. rewrite Hb by done.
    rewrite supportersAmong_snoc. cbn [fst snd]. rewrite Hcat.
    rewrite (bool_decide_eq_false_2 (_ ∈ ∅)) by (apply not_elem_of_empty).
    rewrite (right_id_L ∅ (∪)).
    destruct (decide ((x', y') = (x, y))) as [E | Hdiff].
    + injection E as -> ->. rewrite Hcat. by repeat case_bool_decide.
    + by rewrite (bool_decide_ext ((x', y') ∈ done ++ [(x, y)]) ((x', y') ∈ done))
        by (by apply elem_of_snoc_ne).
Qed.

(** [settleSupportGraph] succeeds on every board over the closed piece set and
    leaves at each cell its piece, the coverage of that piece and the pieces
    whose coverage holds the cell. *)
Lemma settleSupportGraph_spec b0 :
  wfBoard b0 -> validPieces b0 ->
  exists b1, settleSupportGraph b0 = Ok b1 /\ wfBoard b1 /\
             forall x y, 0 <= x < 8 -> 0 <= y < 8 -> cellAt b1 x y = Ok (settledCell b0 x y).
Proof.
  intros Hwf0 Hv. unfold settleSupportGraph.
  destruct (foldM_invariant settleCell (settledUpTo b0) cellIndices)
    with (a := map (map clearSupport) b0) as (b1 & Hfold & Hwf1 & Hb1).
  - intros done [x y] b Hinv [Hx Hy]%elem_of_cellIndices. by apply settleCell_step.
  - by apply settledUpTo_clear.
  - exists b1. split; [done|]. split; [done|].
    intros x y Hx Hy. rewrite Hb1 by done. unfold settledCell.
    by rewrite bool_decide_eq_true_2 by (by apply elem_of_cellIndices).
Qed.

(** ** Score *)

Lemma GetScore_known p : knownPiece p -> p <> NONE -> GetScore p = Ok (pieceValue p).
Proof.
  unfold knownPiece, NONE. intros Hk Hne.
  assert (p = 1 \/ p = 2 \/ p = 3 \/ p = 4 \/ p = 5) as [-> | [-> | [-> | [-> | ->]]]] by lia;
    reflexivity.
Qed.

Lemma GetScore_unknown p : ~ knownPiece p -> GetScore p = Panic unknownPieceMsg.
Proof.
  unfold knownPiece. intros Hk. unfold GetScore, scores, PAWN, KNIGHT, BISHOP, ROOK, QUEEN.
  rewrite !lookup_insert_ne by lia. by rewrite lookup_singleton_ne by lia.
Qed.

Lemma scoreCell_known acc c : knownPiece (piece c) -> scoreCell acc c = Ok (acc + pieceValue (piece c)).
Proof.
  intros Hk. unfold scoreCell. case_bool_decide as Hne.
  - by rewrite GetScore_known.
  - assert (piece c = NONE) as -> by (destruct (decide (piece c = NONE)); tauto).
    change (pieceValue NONE) with 0. f_equal. lia.
Qed.

Lemma scoreCell_unknown acc c : ~ knownPiece (piece c) -> scoreCell acc c = Panic unknownPieceMsg.
Proof.
  intros Hk. unfold scoreCell. rewrite bool_decide_eq_true_2.
  - by rewrite GetScore_unknown.
  - intros E. apply Hk. rewrite E. unfold knownPiece, NONE. lia.
Qed.

Lemma scoreRow_cases row acc :
  (Forall (fun c => knownPiece (piece c)) row /\
   foldM scoreCell acc row = Ok (acc + foldr (fun c a => pieceValue (piece c) + a) 0 row)) \/
  (~ Forall (fun c => knownPiece (piece c)) row /\
   foldM scoreCell acc row = Panic unknownPieceMsg).
Proof.
  revert acc. induction row as [|c row IH]; intros acc.
  - left. split; [constructor|]. cbn. f_equal. lia.
  - destruct (decide (knownPiece (piece c))) as [Hk | Hk].
    + cbn [foldM]. rewrite scoreCell_known by done. cbn [mbind outcome_bind].
      destruct (IH (acc + pieceValue (piece c))) as [[Hall ->] | [Hall ->]].
      * left. split; [by constructor|]. cbn. f_equal. lia.
      * right. split; [|done]. intros H. apply Hall. by inversion H.
    + right. split; [intros H; apply Hk; by inversion H|].
      cbn [foldM]. by rewrite scoreCell_unknown.
Qed.

Lemma foldr_values_acc row acc :
  foldr (fun c a => pieceValue (piece c) + a) acc row =
  foldr (fun c a => pieceValue (piece c) + a) 0 row + acc.
Proof. induction row as [|c row IH]; cbn; [lia|]. rewrite IH. lia. Qed.

Lemma Board_Score_from b acc :
  (validPieces b /\ foldM (fun result row => foldM scoreCell result row) acc b = Ok (acc + sumValues b)) \/
  (~ validPieces b /\
   foldM (fun result row => foldM scoreCell result row) acc b = Panic unknownPieceMsg).
Proof.
  revert acc. induction b as [|row b IH]; intros acc.
  - left. split; [constructor|]. cbn. f_equal. lia.
  - cbn [foldM]. destruct (scoreRow_cases row acc) as [[Hrow ->] | [Hrow ->]].
    + cbn [mbind outcome_bind].
      destruct (IH (acc + foldr (fun c a => pieceValue (piece c) + a) 0 row))
        as [[Hall ->] | [Hall ->]].
      * left. split; [by constructor|]. f_equal. unfold sumValues. cbn [foldr].
        fold (sumValues b). rewrite (foldr_values_acc row (sumValues b)). lia.
      * right. split; [|done]. intros H. apply Hall. by inversion H.
    + right. split; [|done]. intros H. apply Hrow. by inversion H.
Qed.

Lemma Board_Score_cases b :
  (validPieces b /\ Board_Score b = Ok (sumValues b)) \/
  (~ validPieces b /\ Board_Score b = Panic unknownPieceMsg).
Proof. destruct (Board_Score_from b 0) as [[? ?] | [? ?]]; [left | right]; done. Qed.

Lemma Board_Score_Ok_valid b s : Board_Score b = Ok s -> validPieces b.
Proof. destruct (Board_Score_cases b) as [[? ?] | [? E]]; [done|]. rewrite E. discriminate. Qed.

(** C8 (amended): over the closed piece set the score is the sum of the piece
    values (pawn 1, knight 3, bishop 3, rook 5, queen 9); with an
    unrecognized piece on the board [Score] panics, and it never returns an
    error value. *)
Theorem score_sum_or_panic (b : list (list cell)) :
  (validPieces b -> Board_Score b = Ok (sumValues b)) /\
  (~ validPieces b -> Board_Score b = Panic unknownPieceMsg) /\
  (forall e, Board_Score b <> Err e).
Proof.
  destruct (Board_Score_cases b) as [[Hv E] | [Hv E]]; rewrite E;
    repeat split; try done; intros; tauto.
Qed.

(** C8 as stated fails at a board holding the piece value 6: [Score] panics
    and returns no error. *)
Lemma score_unknown_piece_panics :
  wfBoard boardWithUnknownPiece /\
  Board_Score boardWithUnknownPiece = Panic unknownPieceMsg /\
  ~ (exists e, Board_Score boardWithUnknownPiece = Err e).
Proof.
  split; [by_compute|]. split; [reflexivity|].
  intros [e He]. discriminate He.
Qed.

(** ** Compaction and rebuilding *)

Lemma wrapErr_Ok_inv {A} prefix (m : outcome A) a : wrapErr prefix m = Ok a -> m = Ok a.
Proof. by destruct m. Qed.

Lemma getMinimalBoard_board heur b m :
  wfBoard b -> getMinimalBoard heur b = Ok m -> board m = concat (occupancy b).
Proof.
  intros Hwf Hm. unfold getMinimalBoard in Hm.
  destruct (wrapErr _ (heur b)) as [hs| | |]; try discriminate Hm. cbn [mbind outcome_bind] in Hm.
  destruct (wrapErr _ (Board_Score b)) as [sc| | |]; try discriminate Hm.
  cbn [mbind outcome_bind] in Hm. injection Hm as <-. cbn [board].
  clear hs sc. board_cells b Hwf. reflexivity.
Qed.

Lemma getMinimalBoard_scored heur b m :
  getMinimalBoard heur b = Ok m -> exists s, Board_Score b = Ok s.
Proof.
  intros Hm. unfold getMinimalBoard in Hm.
  destruct (wrapErr _ (heur b)) as [hs| | |]; try discriminate Hm. cbn [mbind outcome_bind] in Hm.
  destruct (wrapErr _ (Board_Score b)) as [sc| | |] eqn:Hs; try discriminate Hm.
  apply wrapErr_Ok_inv in Hs. eauto.
Qed.

Lemma rebuiltCells_occupancy b :
  wfBoard b -> rebuiltCells (concat (occupancy b)) = map (map cell_copy) b.
Proof. intros Hwf. board_cells b Hwf. reflexivity. Qed.

Lemma occupancy_copy b : occupancy (map (map cell_copy) b) = occupancy b.
Proof.
  unfold occupancy. rewrite <- list_fmap_compose. apply list_fmap_ext. intros _ row _.
  cbn. rewrite <- list_fmap_compose. by apply list_fmap_ext.
Qed.

Lemma validPieces_occupancy b b' : occupancy b = occupancy b' -> validPieces b -> validPieces b'.
Proof.
  unfold validPieces, occupancy. intros Ho Hv.
  assert (G : Forall (Forall knownPiece) (map (map piece) b')).
  { rewrite <- Ho. apply (Forall_fmap (map piece) (Forall knownPiece) b).
    eapply Forall_impl; [exact Hv|].
    intros row Hrow. by apply (Forall_fmap piece knownPiece row). }
  apply (Forall_fmap (map piece) (Forall knownPiece) b') in G.
  eapply Forall_impl; [exact G|].
  intros row Hrow. by apply (Forall_fmap piece knownPiece row) in Hrow.
Qed.

Lemma occupancy_lookup b x y : 0 <= x < 8 -> 0 <= y < 8 ->
  pieceAt b x y = (row ← occupancy b !! Z.to_nat x; row !! Z.to_nat y).
Proof.
  intros Hx Hy. unfold pieceAt, occupancy. rewrite (proj2 (inBounds_iff x y)) by done.
  rewrite list_lookup_fmap. destruct (b !! Z.to_nat x) as [row|]; cbn; [|done].
  rewrite list_lookup_fmap. by destruct (row !! Z.to_nat y).
Qed.

Lemma samePieces_occupancy b b' : occupancy b = occupancy b' -> samePieces b b'.
Proof.
  intros Ho x y. destruct (decide (0 <= x < 8 /\ 0 <= y < 8)) as [[Hx Hy] | Hout].
  - by rewrite !occupancy_lookup, Ho.
  - by rewrite !pieceAt_outside.
Qed.

Lemma occupancy_ext b b' : wfBoard b -> wfBoard b' -> samePieces b b' -> occupancy b = occupancy b'.
Proof.
  intros [Hl Hr] [Hl' Hr'] Hs. unfold occupancy.
  apply list_eq. intros i. rewrite !list_lookup_fmap.
  destruct (decide (i < 8)%nat) as [Hi | Hi].
  - destruct (lookup_lt_is_Some_2 b i) as [row Hrow]; [rewrite Hl; unfold BOARD_SIZE; lia|].
    destruct (lookup_lt_is_Some_2 b' i) as [row' Hrow']; [rewrite Hl'; unfold BOARD_SIZE; lia|].
    rewrite Hrow, Hrow'. cbn. f_equal.
    apply list_eq. intros j. rewrite !list_lookup_fmap.
    assert (Hlen : length row = 8%nat).
    { rewrite Forall_forall in Hr. apply (Hr row). eapply list_elem_of_lookup_2; eauto. }
    assert (Hlen' : length row' = 8%nat).
    { rewrite Forall_forall in Hr'. apply (Hr' row'). eapply list_elem_of_lookup_2; eauto. }
    destruct (decide (j < 8)%nat) as [Hj | Hj].
    + specialize (Hs (Z.of_nat i) (Z.of_nat j)). unfold pieceAt in Hs.
      rewrite (proj2 (inBounds_iff _ _)) in Hs by lia.
      rewrite !Nat2Z.id, Hrow, Hrow' in Hs. cbn in Hs.
      destruct (row !! j), (row' !! j); cbn in *; congruence.
    + rewrite !lookup_ge_None_2 by lia. done.
  - rewrite !lookup_ge_None_2 by (rewrite ?Hl, ?Hl'; unfold BOARD_SIZE; lia). done.
Qed.

Lemma wfBoard_settled_pieces b0 b1 :
  wfBoard b0 -> wfBoard b1 ->
  (forall x y, 0 <= x < 8 -> 0 <= y < 8 -> cellAt b1 x y = Ok (settledCell b0 x y)) ->
  occupancy b1 = occupancy b0.
Proof.
  intros Hwf0 Hwf1 Hc. apply occupancy_ext; [done | done |].
  intros x y. destruct (decide (0 <= x < 8 /\ 0 <= y < 8)) as [[Hx Hy] | Hout].
  - rewrite (pieceAt_cellAt b1), Hc by done. cbn. symmetry. by apply pieceAt_wf.
  - by rewrite !pieceAt_outside.
Qed.

Lemma getMinimalBoard_total b :
  validPieces b -> exists m, getMinimalBoard heuristic b = Ok m.
Proof.
  intros Hv. unfold getMinimalBoard, heuristic.
  destruct (Board_Score_cases b) as [[_ E] | [Hn _]]; [|done].
  rewrite E. cbn [wrapErr mbind outcome_bind]. eauto.
Qed.

Lemma RebuildBoard_getMinimalBoard heur b m :
  wfBoard b -> getMinimalBoard heur b = Ok m ->
  exists b', RebuildBoard m = Ok b' /\ wfBoard b' /\ occupancy b' = occupancy b.
Proof.
  intros Hwf Hm.
  destruct (getMinimalBoard_scored _ _ _ Hm) as [s Hs].
  apply Board_Score_Ok_valid in Hs.
  pose proof (getMinimalBoard_board _ _ _ Hwf Hm) as Hb.
  unfold RebuildBoard. fold (rebuiltCells (board m)). rewrite Hb, rebuiltCells_occupancy by done.
  destruct (settleSupportGraph_spec (map (map cell_copy) b)) as (b1 & Hsettle & Hwf1 & Hcells).
  { by apply wfBoard_map. }
  { apply (validPieces_occupancy b); [by rewrite occupancy_copy | done]. }
  exists b1. rewrite Hsettle. split; [done|]. split; [done|].
  rewrite <- (occupancy_copy b). apply wfBoard_settled_pieces; [by apply wfBoard_map | done | done].
Qed.

(** C9: a board over the closed piece set has a compact state, and whenever
    a board has a compact state (under any heuristic function) rebuilding it
    returns a board with the occupancy of the original, cell for cell (the
    compact state holds no support graph; [RebuildBoard] settles it anew). *)
Theorem rebuild_compact_roundtrip (b : list (list cell)) :
  wfBoard b ->
  (validPieces b -> exists m, getMinimalBoard heuristic b = Ok m) /\
  (forall heur m, getMinimalBoard heur b = Ok m ->
     exists b', RebuildBoard m = Ok b' /\ wfBoard b' /\ occupancy b' = occupancy b).
Proof.
  intros Hwf. split; [apply getMinimalBoard_total|].
  intros heur m Hm. by apply (RebuildBoard_getMinimalBoard heur).
Qed.

(** ** The dedup set and the frontier *)

(** *** float32 comparisons *)

Lemma f32ltb_rank x y :
  isNaN x = false -> isNaN y = false ->
  (f32ltb x y = true <-> lexLt (floatRank x) (floatRank y)).
Proof.
  unfold f32ltb, SFltb, lexLt.
  destruct x as [sx|sx| |sx mx ex], y as [sy|sy| |sy my ey]; try discriminate; intros _ _;
    repeat match goal with s : bool |- _ => destruct s end; cbn;
    try (split; [discriminate | lia]); try (split; [lia | reflexivity]);
    try (split; [reflexivity | lia]).
  - destruct (Z.compare_spec ex ey); try (split; [discriminate | lia]);
      try (split; [reflexivity | lia]); try (split; [lia | reflexivity]).
    subst. fold (Pos.compare mx my).
    destruct (Pos.compare_spec mx my); cbn; split; try discriminate; try reflexivity; lia.
  - destruct (Z.compare_spec ex ey); try (split; [discriminate | lia]);
      try (split; [reflexivity | lia]); try (split; [lia | reflexivity]).
    subst. fold (Pos.compare mx my).
    destruct (Pos.compare_spec mx my); cbn; split; try discriminate; try reflexivity; lia.
Qed.

Lemma f32eqb_refl x : isNaN x = false -> f32eqb x x = true.
Proof.
  unfold f32eqb, SFeqb. destruct x as [s|s| |s m e]; try discriminate; intros _; cbn.
  - done.
  - by destruct s.
  - rewrite Z.compare_refl. fold (Pos.compare m m). rewrite Pos.compare_refl. by destruct s.
Qed.

Lemma f32eqb_nan x : isNaN x = true -> forall y, f32eqb x y = false /\ f32eqb y x = false.
Proof.
  destruct x; try discriminate. intros _ y. unfold f32eqb, SFeqb. by destruct y.
Qed.

Lemma f32ltb_asym x y :
  isNaN x = false -> isNaN y = false -> f32ltb x y = true -> f32ltb y x = false.
Proof.
  intros Hx Hy H. apply (f32ltb_rank x y Hx Hy) in H.
  apply not_true_is_false. intros H'. apply (f32ltb_rank y x Hy Hx) in H'.
  unfold lexLt in *. lia.
Qed.

Lemma f32ltb_negtrans x y z :
  isNaN x = false -> isNaN y = false -> isNaN z = false ->
  f32ltb x y = false -> f32ltb y z = false -> f32ltb x z = false.
Proof.
  intros Hx Hy Hz H1 H2. apply not_true_is_false. intros H3.
  apply (f32ltb_rank x z Hx Hz) in H3.
  assert (N1 : ~ lexLt (floatRank x) (floatRank y)).
  { intros L. apply (f32ltb_rank x y Hx Hy) in L. congruence. }
  assert (N2 : ~ lexLt (floatRank y) (floatRank z)).
  { intros L. apply (f32ltb_rank y z Hy Hz) in L. congruence. }
  unfold lexLt in *. lia.
Qed.

(** *** Equality of compact states *)

Lemma MinimalBoard_eqb_spec m1 m2 :
  MinimalBoard_eqb m1 m2 = true <->
  board m1 = board m2 /\ f32eqb (Heuristic m1) (Heuristic m2) = true /\
  IsSolved m1 = IsSolved m2 /\ Score m1 = Score m2 /\ Coverage m1 = Coverage m2.
Proof.
  unfold MinimalBoard_eqb. rewrite !andb_true_iff, !bool_decide_eq_true. tauto.
Qed.

Lemma MinimalBoard_eqb_refl m : isNaN (Heuristic m) = false -> MinimalBoard_eqb m m = true.
Proof. intros H. apply MinimalBoard_eqb_spec. by rewrite f32eqb_refl. Qed.

Lemma Contains_Put s m : isNaN (Heuristic m) = false -> Contains (Put s m) m = true.
Proof.
  intros H. unfold Put. destruct (Contains s m) eqn:E; [done|].
  unfold Contains. rewrite existsb_app. cbn. rewrite MinimalBoard_eqb_refl by done.
  by rewrite orb_true_r.
Qed.

(** C4 (amended): equality of compact states is equality of the occupancy and
    of the four scalars; a compact state whose heuristic is a number is equal
    to a second compaction of the same board and is rejected when inserted a
    second time. *)
Theorem compact_state_equality :
  (forall m1 m2,
     MinimalBoard_eqb m1 m2 = true <->
     board m1 = board m2 /\ f32eqb (Heuristic m1) (Heuristic m2) = true /\
     IsSolved m1 = IsSolved m2 /\ Score m1 = Score m2 /\ Coverage m1 = Coverage m2) /\
  (forall heur b m1 m2 st,
     getMinimalBoard heur b = Ok m1 -> getMinimalBoard heur b = Ok m2 ->
     isNaN (Heuristic m1) = false ->
     MinimalBoard_eqb m1 m2 = true /\
     (insertBoard (insertBoard st m1).1 m2).2 = false).
Proof.
  split; [apply MinimalBoard_eqb_spec|].
  intros heur b m1 m2 st H1 H2 Hn. rewrite H1 in H2. injection H2 as <-.
  split; [by apply MinimalBoard_eqb_refl|].
  assert (Hc : Contains (seenBoards (insertBoard st m1).1) m1 = true).
  { unfold insertBoard. destruct (Contains (seenBoards st) m1) eqn:E; cbn; [done|].
    by apply Contains_Put. }
  generalize dependent ((insertBoard st m1).1). intros st1 Hc.
  unfold insertBoard. by rewrite Hc.
Qed.

(** *** Pruning the tail of the edge set *)

Lemma index_last {A} (l : list A) (a : A) : index (l ++ [a]) (Z.of_nat (length (l ++ [a])) - 1) = Ok a.
Proof.
  apply index_Ok. rewrite length_app. cbn. split; [lia|].
  replace (Z.to_nat (Z.of_nat (length l + 1) - 1)) with (length l) by lia.
  by rewrite lookup_app_r, Nat.sub_diag.
Qed.

Lemma prune_spec bound es :
  forall fuel, (length es <= fuel)%nat -> es <> [] ->
  (exists kept d dropped,
      es = kept ++ [d] ++ dropped /\ ~ overBound bound d /\ Forall (overBound bound) dropped /\
      prune fuel es (Z.of_nat (length es) - 1) bound = Ok (kept ++ [d], Z.of_nat (length kept))) \/
  (Forall (overBound bound) es /\
   prune fuel es (Z.of_nat (length es) - 1) bound = Panic outOfRange).
Proof.
  induction es as [|t es0 IH] using rev_ind; intros fuel Hfuel Hne; [done|].
  rewrite length_app in Hfuel. cbn in Hfuel.
  destruct fuel as [|fuel]; [lia|].
  cbn [prune]. rewrite index_last. cbn [mbind outcome_bind].
  case_bool_decide as Hover.
  - rewrite length_app. cbn [length].
    replace (Z.to_nat (Z.of_nat (length es0 + 1) - 1)) with (length es0) by lia.
    rewrite take_app_length.
    replace (Z.of_nat (length es0 + 1) - 1 - 1) with (Z.of_nat (length es0) - 1) by lia.
    destruct es0 as [|e es1].
    + right. split; [by repeat constructor|]. by destruct fuel.
    + destruct (IH fuel) as [(kept & d & dropped & Hes & Hd & Hdrop & Hp) | [Hall Hp]]; [lia | done | |].
      * left. exists kept, d, (dropped ++ [t]). rewrite Hp. repeat split; try done.
        -- rewrite Hes. by rewrite <- !app_assoc.
        -- apply Forall_app. split; [done|]. by repeat constructor.
      * right. rewrite Hp. split; [|done]. apply Forall_app. split; [done|]. by repeat constructor.
  - left. exists es0, t, []. rewrite length_app. cbn [length].
    repeat split; try done. do 2 f_equal. lia.
Qed.

(** *** Sorting by insertion *)

Section Sorting.
Context {A : Type} (less : A -> A -> bool) (P : A -> Prop).
Hypothesis less_asym : forall x y, P x -> P y -> less x y = true -> less y x = false.
Hypothesis less_negtrans :
  forall x y z, P x -> P y -> P z -> less x y = false -> less y z = false -> less x z = false.

Lemma insertBy_perm a l : insertBy less a l ≡ₚ a :: l.
Proof.
  induction l as [|b l IH]; cbn; [done|].
  destruct (less b a); [|done]. rewrite IH. apply Permutation_swap.
Qed.

Lemma sortSlice_perm l : sortSlice less l ≡ₚ l.
Proof.
  induction l as [|a l IH]; cbn; [done|].
  fold (sortSlice less l). rewrite insertBy_perm. by rewrite IH.
Qed.

Lemma insertBy_sorted a l :
  P a -> Forall P l -> StronglySorted (ascending less) l ->
  StronglySorted (ascending less) (insertBy less a l).
Proof.
  intros Ha. induction l as [|b l IH]; intros Hl Hs; cbn.
  - by repeat constructor.
  - apply Forall_cons in Hl as [Hb Hl]. apply StronglySorted_inv in Hs as [Hs Hbl].
    destruct (less b a) eqn:Hba.
    + constructor; [by apply IH|].
      rewrite insertBy_perm. constructor; [by apply less_asym|done].
    + constructor; [by constructor|].
      constructor; [done|].
      rewrite Forall_forall in Hbl, Hl. apply Forall_forall. intros z Hz.
      unfold ascending in *. apply (less_negtrans z b a); auto.
Qed.

Lemma sortSlice_sorted l : Forall P l -> StronglySorted (ascending less) (sortSlice less l).
Proof.
  induction l as [|a l IH]; intros Hl; cbn; [constructor|].
  apply Forall_cons in Hl as [Ha Hl]. fold (sortSlice less l).
  apply insertBy_sorted; [done | | by apply IH].
  by rewrite sortSlice_perm.
Qed.
End Sorting.

Lemma StronglySorted_lookup_lt {A} (R : A -> A -> Prop) l i j x y :
  StronglySorted R l -> (i < j)%nat -> l !! i = Some x -> l !! j = Some y -> R x y.
Proof.
  intros Hs. revert i j. induction Hs as [|a l Hs IH Hal]; intros i j Hij Hi Hj; [done|].
  destruct j as [|j]; [lia|]. cbn in Hj.
  destruct i as [|i]; cbn in Hi.
  - injection Hi as <-. rewrite Forall_forall in Hal. apply Hal. by eapply list_elem_of_lookup_2.
  - apply (IH i j); [lia | done | done].
Qed.

Lemma lessHeuristic_asym x y :
  numericHeuristic x -> numericHeuristic y -> lessHeuristic x y = true -> lessHeuristic y x = false.
Proof. unfold lessHeuristic. apply f32ltb_asym. Qed.

Lemma lessHeuristic_negtrans x y z :
  numericHeuristic x -> numericHeuristic y -> numericHeuristic z ->
  lessHeuristic x y = false -> lessHeuristic y z = false -> lessHeuristic x z = false.
Proof. unfold lessHeuristic. apply f32ltb_negtrans. Qed.

Lemma lessHeuristic_irrefl x : numericHeuristic x -> lessHeuristic x x = false.
Proof.
  intros Hx. destruct (lessHeuristic x x) eqn:E; [|done].
  by rewrite (lessHeuristic_asym x x Hx Hx E) in E.
Qed.

Lemma sorted_segment_sorted es :
  Forall numericHeuristic es -> StronglySorted (ascending lessHeuristic) (sortSlice lessHeuristic es).
Proof.
  apply (sortSlice_sorted lessHeuristic numericHeuristic);
    [exact lessHeuristic_asym | exact lessHeuristic_negtrans].
Qed.

Lemma dispatch_cases ws st :
  (edgeSet st = [] /\ dispatch ws st = Ok st) \/
  (edgeSet st <> [] /\ Forall (overBound (currBestScore st)) (edgeSet st) /\
   dispatch ws st = Panic outOfRange) \/
  (exists kept d dropped,
      edgeSet st = kept ++ [d] ++ dropped /\ ~ overBound (currBestScore st) d /\
      Forall (overBound (currBestScore st)) dropped /\
      dispatch ws st =
      Ok (if bool_decide (Z.of_nat (length (workQueue st)) < ws)
          then dispatched st kept d
          else setEdgeSet st (kept ++ [d]))).
Proof.
  unfold dispatch. destruct (edgeSet st) as [|e es] eqn:Hes.
  - left. done.
  - right. rewrite bool_decide_eq_true_2 by (cbn; lia).
    destruct (prune_spec (currBestScore st) (e :: es) (length (e :: es)))
      as [(kept & d & dropped & Heq & Hd & Hdrop & Hp) | [Hall Hp]]; [lia | done | |].
    + right. exists kept, d, dropped. rewrite Hp. cbn [mbind outcome_bind].
      rewrite bool_decide_eq_true_2 by (rewrite length_app; cbn; lia).
      replace (Z.of_nat (length kept)) with (Z.of_nat (length (kept ++ [d])) - 1)
        by (rewrite length_app; cbn; lia).
      rewrite index_last. cbn [mbind outcome_bind].
      repeat split; try done.
      cbn [workQueue setEdgeSet]. case_bool_decide; [|done].
      unfold dispatched. do 4 f_equal.
      rewrite length_app. cbn [length].
      replace (Z.to_nat (Z.of_nat (length kept + 1) - 1)) with (length kept) by lia.
      by rewrite take_app_length.
    + left. rewrite Hp. done.
Qed.

(** C6: when every board of the edge set is over the bound, the prune loop
    drops them all and then reads [edgeSet[-1]]. *)
Theorem prune_reads_before_front (workQueueSize : Z) (st : state) :
  edgeSet st <> [] -> Forall (overBound (currBestScore st)) (edgeSet st) ->
  dispatch workQueueSize st = Panic outOfRange.
Proof.
  intros Hne Hall.
  destruct (dispatch_cases workQueueSize st)
    as [[He _] | [(_ & _ & Hp) | (kept & d & dropped & Heq & Hd & _)]]; [done | done |].
  exfalso. apply Hd. rewrite Heq in Hall.
  apply Forall_app in Hall as [_ Hall]. by apply Forall_cons in Hall as [Hall _].
Qed.

(** C7 (amended): the board handed to a worker is the last board left by the
    prune, and no board left in the segment that was sorted has a higher
    heuristic. *)
Theorem dispatch_takes_highest_of_sorted (workQueueSize offset : Z) (st st2 : state)
    (d : MinimalBoard) :
  0 <= offset ->
  Forall numericHeuristic (drop (Z.to_nat offset) (edgeSet st)) ->
  dispatch workQueueSize (sortEdgeSet st offset) = Ok st2 ->
  workQueue st2 = workQueue st ++ [d] ->
  (exists dropped,
      edgeSet (sortEdgeSet st offset) = edgeSet st2 ++ [d] ++ dropped /\
      Forall (overBound (currBestScore st)) dropped) /\
  (forall i x, offset <= Z.of_nat i -> (edgeSet st2 ++ [d]) !! i = Some x ->
               f32ltb (Heuristic d) (Heuristic x) = false).
Proof.
  intros Hoff Hnum Hd Hwq.
  destruct (dispatch_cases workQueueSize (sortEdgeSet st offset))
    as [[He Hp] | [(_ & _ & Hp) | (kept & d' & dropped & Heq & Hd' & Hdrop & Hp)]];
    rewrite Hp in Hd; try discriminate Hd.
  - injection Hd as <-. cbn in Hwq. exfalso.
    apply (f_equal length) in Hwq. rewrite length_app in Hwq. cbn in Hwq. lia.
  - injection Hd as <-.
    change (currBestScore (sortEdgeSet st offset)) with (currBestScore st) in *.
    change (workQueue (sortEdgeSet st offset)) with (workQueue st) in *.
    case_bool_decide.
    + change (workQueue (dispatched (sortEdgeSet st offset) kept d'))
        with (workQueue st ++ [d']) in Hwq.
      apply app_inv_head in Hwq. injection Hwq as ->.
      change (edgeSet (dispatched (sortEdgeSet st offset) kept d)) with kept.
      split; [by exists dropped|].
      change (edgeSet (sortEdgeSet st offset))
        with (take (Z.to_nat offset) (edgeSet st) ++
              sortSlice lessHeuristic (drop (Z.to_nat offset) (edgeSet st))) in Heq.
      intros i x Hi Hx.
      pose proof (sorted_segment_sorted _ Hnum) as Hsorted.
      set (seg := sortSlice lessHeuristic (drop (Z.to_nat offset) (edgeSet st))) in *.
      assert (Hlk : forall j y, (kept ++ [d]) !! j = Some y ->
                (take (Z.to_nat offset) (edgeSet st) ++ seg) !! j = Some y).
      { intros j y Hj. rewrite Heq, app_assoc. by apply lookup_app_l_Some. }
      assert (Hlen : (Z.to_nat offset <= length (edgeSet st))%nat).
      { destruct (decide (Z.to_nat offset <= length (edgeSet st))%nat); [done|].
        exfalso. apply lookup_lt_Some in Hx.
        assert (Hle : (length (kept ++ [d] ++ dropped) <= length (edgeSet st))%nat).
        { rewrite <- Heq, length_app, length_take.
          unfold seg. rewrite (Permutation_length (sortSlice_perm _ _)), length_drop. lia. }
        rewrite !length_app in *. cbn in *. lia. }
      assert (Hseg : forall j y, (Z.to_nat offset <= j)%nat -> (kept ++ [d]) !! j = Some y ->
                seg !! (j - Z.to_nat offset)%nat = Some y).
      { intros j y Hj Hy. apply Hlk in Hy.
        rewrite lookup_app_r in Hy by (rewrite length_take; lia).
        rewrite length_take in Hy. by replace (Z.to_nat offset `min` length (edgeSet st))%nat
          with (Z.to_nat offset) in Hy by lia. }
      assert (Hdpos : (kept ++ [d]) !! length kept = Some d).
      { by rewrite lookup_app_r, Nat.sub_diag. }
      assert (Hi' : (i <= length kept)%nat).
      { apply lookup_lt_Some in Hx. rewrite length_app in Hx. cbn in Hx. lia. }
      assert (Hnumd : numericHeuristic d).
      { assert (d ∈ seg) by (eapply list_elem_of_lookup_2, (Hseg (length kept)); [lia | done]).
        assert (Hp' : Forall numericHeuristic seg).
        { unfold seg. by rewrite sortSlice_perm. }
        rewrite Forall_forall in Hp'. by apply Hp'. }
      destruct (decide (i = length kept)) as [-> | Hne].
      * rewrite Hdpos in Hx. injection Hx as <-. by apply lessHeuristic_irrefl.
      * apply (StronglySorted_lookup_lt _ seg (i - Z.to_nat offset) (length kept - Z.to_nat offset) x d
                 Hsorted); [lia | apply Hseg; [lia | done] | apply Hseg; [lia | done]].
    + change (workQueue (setEdgeSet (sortEdgeSet st offset) (kept ++ [d'])))
        with (workQueue st) in Hwq. exfalso.
      apply (f_equal length) in Hwq. rewrite length_app in Hwq. cbn in Hwq. lia.
Qed.

(** ** Settled boards and reduction *)

Lemma board_ext b b' :
  wfBoard b -> wfBoard b' ->
  (forall x y, 0 <= x < 8 -> 0 <= y < 8 -> cellAt b x y = cellAt b' x y) -> b = b'.
Proof.
  intros [Hl Hr] [Hl' Hr'] Hc.
  apply list_eq. intros i.
  destruct (decide (i < 8)%nat) as [Hi | Hi].
  - destruct (lookup_lt_is_Some_2 b i) as [row Hrow]; [rewrite Hl; unfold BOARD_SIZE; lia|].
    destruct (lookup_lt_is_Some_2 b' i) as [row' Hrow']; [rewrite Hl'; unfold BOARD_SIZE; lia|].
    rewrite Hrow, Hrow'. f_equal.
    assert (Hlen : length row = 8%nat).
    { rewrite Forall_forall in Hr. apply (Hr row). eapply list_elem_of_lookup_2; eauto. }
    assert (Hlen' : length row' = 8%nat).
    { rewrite Forall_forall in Hr'. apply (Hr' row'). eapply list_elem_of_lookup_2; eauto. }
    apply list_eq. intros j.
    destruct (decide (j < 8)%nat) as [Hj | Hj].
    + destruct (lookup_lt_is_Some_2 row j) as [c Hcj]; [lia|].
      destruct (lookup_lt_is_Some_2 row' j) as [c' Hcj']; [lia|].
      assert (E1 : cellAt b (Z.of_nat i) (Z.of_nat j) = Ok c).
      { apply cellAt_Ok. rewrite !Nat2Z.id. eauto 6 with lia. }
      assert (E2 : cellAt b' (Z.of_nat i) (Z.of_nat j) = Ok c').
      { apply cellAt_Ok. rewrite !Nat2Z.id. eauto 6 with lia. }
      rewrite Hc in E1 by lia. rewrite Hcj, Hcj'. congruence.
    + by rewrite !lookup_ge_None_2 by lia.
  - by rewrite !lookup_ge_None_2 by (rewrite ?Hl, ?Hl'; unfold BOARD_SIZE; lia).
Qed.

Lemma pieceOf_samePieces b b' x y : samePieces b b' -> pieceOf b x y = pieceOf b' x y.
Proof. intros Hs. unfold pieceOf. by rewrite Hs. Qed.

Lemma samePieces_pieceOf b b' :
  wfBoard b -> wfBoard b' ->
  (forall x y, 0 <= x < 8 -> 0 <= y < 8 -> pieceOf b x y = pieceOf b' x y) -> samePieces b b'.
Proof.
  intros Hwf Hwf' Hp x y.
  destruct (decide (0 <= x < 8 /\ 0 <= y < 8)) as [[Hx Hy] | Hout].
  - rewrite !pieceAt_wf by done. f_equal. by apply Hp.
  - by rewrite !pieceAt_outside.
Qed.

Lemma elem_of_cellIndices_bounds xy : xy ∈ cellIndices -> 0 <= xy.1 < 8 /\ 0 <= xy.2 < 8.
Proof. destruct xy as [x y]. by intros H%elem_of_cellIndices. Qed.

Lemma settledCell_samePieces b b' x y :
  wfBoard b -> wfBoard b' -> samePieces b b' -> 0 <= x < 8 -> 0 <= y < 8 ->
  settledCell b x y = settledCell b' x y.
Proof.
  intros Hwf Hwf' Hs Hx Hy. unfold settledCell.
  rewrite (pieceOf_samePieces b b') by done.
  rewrite (coverageAt_samePieces b b') by done.
  rewrite (supportersAmong_samePieces b b') by (try done; apply elem_of_cellIndices_bounds).
  reflexivity.
Qed.

Lemma settled_cells b x y :
  settled b -> 0 <= x < 8 -> 0 <= y < 8 -> cellAt b x y = Ok (settledCell b x y).
Proof.
  intros (Hwf & Hv & Hs) Hx Hy.
  destruct (settleSupportGraph_spec b Hwf Hv) as (b1 & Hs1 & _ & Hc).
  rewrite Hs in Hs1. injection Hs1 as <-. by apply Hc.
Qed.

Lemma settled_samePieces b0 b1 :
  wfBoard b0 -> wfBoard b1 ->
  (forall x y, 0 <= x < 8 -> 0 <= y < 8 -> cellAt b1 x y = Ok (settledCell b0 x y)) ->
  samePieces b1 b0.
Proof.
  intros Hwf0 Hwf1 Hc. apply samePieces_occupancy. by apply wfBoard_settled_pieces.
Qed.

(** What [settleSupportGraph] returns is settled. *)
Lemma settleSupportGraph_settled b0 b1 :
  wfBoard b0 -> validPieces b0 -> settleSupportGraph b0 = Ok b1 ->
  settled b1 /\ samePieces b1 b0.
Proof.
  intros Hwf0 Hv0 Hs.
  destruct (settleSupportGraph_spec b0 Hwf0 Hv0) as (b1' & Hs1 & Hwf1 & Hc).
  rewrite Hs in Hs1. injection Hs1 as <-.
  pose proof (settled_samePieces b0 b1 Hwf0 Hwf1 Hc) as Hsame.
  assert (Hv1 : validPieces b1).
  { apply (validPieces_occupancy b0); [|done]. symmetry. by apply wfBoard_settled_pieces. }
  split; [|done]. split; [done|]. split; [done|].
  destruct (settleSupportGraph_spec b1 Hwf1 Hv1) as (b2 & Hs2 & Hwf2 & Hc2).
  rewrite Hs2. f_equal. apply board_ext; [done | done |].
  intros x y Hx Hy. rewrite Hc, Hc2 by done. f_equal.
  by apply settledCell_samePieces.
Qed.

Lemma coverageAt_range b x y c :
  wfBoard b -> validPieces b -> 0 <= x < 8 -> 0 <= y < 8 ->
  c ∈ coverageAt b x y -> 0 <= c < 64.
Proof.
  intros Hwf Hv Hx Hy Hc.
  destruct (cellAt_wf b x y Hwf Hx Hy) as (c0 & Hc0 & Hp0).
  destruct (decide (piece c0 = NONE)) as [He | Hne].
  - rewrite (coverageAt_none b x y c0 Hc0 He) in Hc. by apply not_elem_of_empty in Hc.
  - assert (Hk : knownPiece (piece c0)).
    { pose proof (knownPiece_pieceOf b x y Hv) as Hk. unfold pieceOf in Hk. by rewrite Hp0 in Hk. }
    destruct (getCoverage_known b x y (piece c0) Hwf Hx Hy Hk Hne) as (s & Hs & Hrange).
    rewrite (coverageAt_piece b x y c0 s Hc0 Hne) in Hc; [by apply Hrange|].
    by rewrite newPointUnsafe_pointOf.
Qed.

Lemma getCell_settled b c :
  settled b -> 0 <= c < 64 ->
  getCell b c = Ok (settledCell b (point_x c) (point_y c)).
Proof.
  intros Hs Hc. destruct (point_decompose c) as (Hx & Hy & Heq); [unfold BOARD_SIZE; lia|].
  rewrite Heq at 1. rewrite getCell_cellAt by done. by apply settled_cells.
Qed.

Lemma contributing_settled b l :
  settled b -> Forall (fun c => 0 <= c < 64) l ->
  contributing b l = Ok (bool_decide (Exists (fun c => size (supportersOf b c) = 1%nat) l)).
Proof.
  intros Hs. induction l as [|c l IH]; intros Hl.
  - reflexivity.
  - apply Forall_cons in Hl as [Hc Hl]. cbn [contributing].
    rewrite getCell_settled by done. cbn [mbind outcome_bind settledCell supportedBy].
    destruct (point_decompose c) as (_ & _ & Heq); [unfold BOARD_SIZE; lia|].
    rewrite <- Heq. fold (supportersOf b c).
    destruct (decide (size (supportersOf b c) = 1%nat)) as [Hsz | Hsz].
    + rewrite (bool_decide_eq_true_2 _ Hsz). f_equal. symmetry.
      apply bool_decide_eq_true_2. by left.
    + rewrite (bool_decide_eq_false_2 _ Hsz), IH by done. f_equal. apply bool_decide_ext.
      rewrite Exists_cons. tauto.
Qed.

Lemma contributing_cell b x y :
  settled b -> 0 <= x < 8 -> 0 <= y < 8 ->
  contributing b (elements (supports (settledCell b x y))) = Ok (contributes b x y).
Proof.
  intros Hs Hx Hy. destruct Hs as (Hwf & Hv & Hst).
  apply contributing_settled; [done|]. apply Forall_forall. intros c Hc.
  apply elem_of_elements in Hc. by apply (coverageAt_range b x y).
Qed.

Lemma validPieces_pointwise b :
  wfBoard b -> (forall x y, 0 <= x < 8 -> 0 <= y < 8 -> knownPiece (pieceOf b x y)) ->
  validPieces b.
Proof.
  intros [Hl Hr] Hk. apply Forall_forall. intros row Hrow. apply Forall_forall. intros c Hc.
  apply list_elem_of_lookup in Hrow as [i Hi]. apply list_elem_of_lookup in Hc as [j Hj].
  assert (Hlen : length row = 8%nat).
  { rewrite Forall_forall in Hr. apply (Hr row). eapply list_elem_of_lookup_2; eauto. }
  pose proof (lookup_lt_Some _ _ _ Hi) as Hi'. pose proof (lookup_lt_Some _ _ _ Hj) as Hj'.
  rewrite Hl in Hi'. unfold BOARD_SIZE in Hi'.
  specialize (Hk (Z.of_nat i) (Z.of_nat j) ltac:(lia) ltac:(lia)).
  unfold pieceOf, pieceAt in Hk. rewrite (proj2 (inBounds_iff _ _)) in Hk by lia.
  rewrite !Nat2Z.id, Hi in Hk. cbn in Hk. by rewrite Hj in Hk.
Qed.

Lemma removedBoard_spec b x y :
  settled b -> 0 <= x < 8 -> 0 <= y < 8 ->
  exists nb, removedBoard b x y = Ok nb /\ settled nb /\
    forall x' y', pieceOf nb x' y' =
                  if bool_decide ((x', y') = (x, y)) then NONE else pieceOf b x' y'.
Proof.
  intros (Hwf & Hv & Hst) Hx Hy. unfold removedBoard.
  rewrite newPointUnsafe_pointOf by done.
  assert (Hwfc : wfBoard (Board_copy b)) by (by apply wfBoard_map).
  rewrite updCell_wf by done. cbn [mbind outcome_bind].
  set (b' := alter (alter _ (Z.to_nat y)) (Z.to_nat x) (Board_copy b)).
  assert (Hwf' : wfBoard b') by (by apply wfBoard_alter).
  assert (Hp' : forall x' y', pieceOf b' x' y' =
                  if bool_decide ((x', y') = (x, y)) then NONE else pieceOf b x' y').
  { intros x' y'. destruct (decide (0 <= x' < 8 /\ 0 <= y' < 8)) as [[Hx' Hy'] | Hout].
    - destruct (cellAt_wf b x' y' Hwf Hx' Hy') as (c & Hc & Hp).
      unfold pieceOf at 1. rewrite pieceAt_cellAt by done. unfold b'.
      rewrite cellAt_alter by done. unfold Board_copy.
      rewrite (cellAt_map _ _ _ _ c Hc).
      assert (Hpc : pieceOf b x' y' = piece c) by (unfold pieceOf; by rewrite Hp).
      case_bool_decide as H1; case_bool_decide as H2; cbn; try done.
      + exfalso. apply H2. destruct H1. congruence.
      + exfalso. apply H1. by injection H2.
    - unfold pieceOf. rewrite !pieceAt_outside by done. cbn. by case_bool_decide. }
  assert (Hv' : validPieces b').
  { apply validPieces_pointwise; [done|]. intros x' y' _ _. rewrite Hp'.
    case_bool_decide; [unfold knownPiece, NONE; lia | by apply knownPiece_pieceOf]. }
  destruct (settleSupportGraph_spec b' Hwf' Hv') as (nb & Hs & Hwfn & Hc).
  rewrite Hs. exists nb. split; [done|].
  destruct (settleSupportGraph_settled b' nb Hwf' Hv' Hs) as [Hsettled Hsame].
  split; [done|]. intros x' y'. by rewrite (pieceOf_samePieces nb b'), Hp'.
Qed.

(** On a settled board the loop of [reduce] skips exactly the pieces that are
    not redundant in the specification's sense. *)
Lemma contributes_redundant b x y :
  wfBoard b -> validPieces b -> 0 <= x < 8 -> 0 <= y < 8 ->
  (contributes b x y = false <-> redundant b x y).
Proof.
  intros Hwf Hv Hx Hy. unfold contributes, redundant.
  rewrite bool_decide_eq_false, Exists_exists. split.
  - intros Hno c Hc.
    assert (Hin : pointOf x y ∈ supportersOf b c).
    { apply elem_of_supportersAmong. exists (x, y).
      split; [apply elem_of_cellIndices; lia|]. split; [reflexivity | exact Hc]. }
    destruct (decide (supportersOf b c ∖ {[ pointOf x y ]} = ∅)) as [He | Hne].
    + exfalso. apply Hno. exists c. split; [by apply elem_of_elements|].
      assert (supportersOf b c = {[ pointOf x y ]}) as ->; [|apply size_singleton].
      apply set_eq. intros q. rewrite elem_of_singleton. split; [|by intros ->].
      intros Hq. destruct (decide (q = pointOf x y)) as [|Hd]; [done|]. exfalso.
      assert (Hq' : q ∈ supportersOf b c ∖ {[ pointOf x y ]}).
      { apply elem_of_difference. split; [done|]. by rewrite elem_of_singleton. }
      rewrite He in Hq'. by apply not_elem_of_empty in Hq'.
    + apply set_choose_L in Hne as [q Hq].
      apply elem_of_difference in Hq as [Hq Hqne].
      apply elem_of_supportersAmong in Hq as ([x' y'] & Hxy & -> & Hcov).
      apply elem_of_cellIndices in Hxy as [Hx' Hy'].
      exists x', y'. split; [done|]. split; [done|]. split; [|done]. intros E. apply Hqne.
      injection E as -> ->. by apply elem_of_singleton.
  - intros Hred (c & Hc & Hsz). apply elem_of_elements in Hc.
    destruct (Hred c Hc) as (x' & y' & Hx' & Hy' & Hne & Hc').
    assert (H1 : pointOf x y ∈ supportersOf b c).
    { apply elem_of_supportersAmong. exists (x, y).
      split; [apply elem_of_cellIndices; lia|]. split; [reflexivity | exact Hc]. }
    assert (H2 : pointOf x' y' ∈ supportersOf b c).
    { apply elem_of_supportersAmong. exists (x', y').
      split; [apply elem_of_cellIndices; lia|]. split; [reflexivity | exact Hc']. }
    pose proof (size_singleton_inv _ _ _ Hsz H1 H2) as E.
    apply pointOf_inj in E as [-> ->]; done.
Qed.

Lemma foldM_ext {A B} (f g : A -> B -> outcome A) l a :
  (forall a x, x ∈ l -> f a x = g a x) -> foldM f a l = foldM g a l.
Proof.
  revert a. induction l as [|x l IH]; intros a H; [done|].
  cbn. rewrite H by left. destruct (g a x); cbn; try done.
  apply IH. intros. apply H. by right.
Qed.

Lemma foldM_filter {A B} (f : A -> B -> outcome A) (P : B -> Prop)
    `{Hdec : !forall x, Decision (P x)} l a :
  (forall a x, x ∈ l -> ~ P x -> f a x = Ok a) -> foldM f a l = foldM f a (filter P l).
Proof.
  revert a. induction l as [|x l IH]; intros a Hskip; [done|].
  rewrite filter_cons. destruct (decide (P x)) as [Hp | Hp].
  - cbn. destruct (f a x); cbn; try done. apply IH. intros. apply Hskip; [by right | done].
  - cbn. rewrite Hskip by (done || left). cbn. apply IH. intros. apply Hskip; [by right | done].
Qed.

Lemma elem_of_occupiedCells b xy :
  xy ∈ occupiedCells b <-> xy ∈ cellIndices /\ pieceOf b xy.1 xy.2 <> NONE.
Proof. unfold occupiedCells. rewrite elem_of_list_to_set, list_elem_of_filter. tauto. Qed.

Lemma occupiedCells_removed b nb x y :
  0 <= x < 8 -> 0 <= y < 8 -> pieceOf b x y <> NONE ->
  (forall x' y', pieceOf nb x' y' =
                 if bool_decide ((x', y') = (x, y)) then NONE else pieceOf b x' y') ->
  (size (occupiedCells nb) < size (occupiedCells b))%nat.
Proof.
  intros Hx Hy Hne Hp. apply subset_size. split.
  - intros [x' y'] H. apply elem_of_occupiedCells in H as [Hc Hn]. cbn in Hn.
    apply elem_of_occupiedCells. split; [done|]. cbn. rewrite Hp in Hn.
    by case_bool_decide.
  - intros Hsub. assert (Hin : (x, y) ∈ occupiedCells nb).
    { apply Hsub. apply elem_of_occupiedCells. split; [by apply elem_of_cellIndices | done]. }
    apply elem_of_occupiedCells in Hin as [_ Hn]. cbn in Hn. rewrite Hp in Hn.
    by rewrite bool_decide_eq_true_2 in Hn.
Qed.

(** The loop of [reduce] on a settled board does work on the removable
    cells only. *)
Lemma reduceBoards_unfold fuel b :
  settled b ->
  reduceBoards (S fuel) b =
  (result ← foldM (fun result xy => rs ← removalBranch fuel b xy; Ok (result ++ rs))
                 [] (removableCells b);
   if bool_decide (length result = 0%nat) then Ok [b] else Ok result).
Proof.
  intros Hs. cbn [reduceBoards]. f_equal.
  unfold removableCells.
  rewrite (foldM_filter _ (fun xy => pieceOf b xy.1 xy.2 <> NONE /\ contributes b xy.1 xy.2 = false)).
  - apply foldM_ext. intros result [x y] [[Hp Hc] [Hx Hy]%elem_of_cellIndices]%list_elem_of_filter.
    cbn [fst snd] in *.
    rewrite settled_cells by done. cbn [mbind outcome_bind].
    rewrite contributing_cell by done. cbn [settledCell piece mbind outcome_bind].
    rewrite bool_decide_eq_false_2 by done. rewrite Hc.
    unfold removalBranch. cbn [fst snd].
    destruct (removedBoard b x y); cbn [mbind outcome_bind]; done.
  - intros result [x y] [Hx Hy]%elem_of_cellIndices Hnot. cbn [fst snd] in *.
    rewrite settled_cells by done. cbn [mbind outcome_bind].
    rewrite contributing_cell by done. cbn [settledCell piece mbind outcome_bind].
    case_bool_decide as Hp; [done|].
    destruct (contributes b x y) eqn:Hc; [done|]. tauto.
Qed.

Lemma reduceBoards_nonempty fuel b bs : reduceBoards fuel b = Ok bs -> bs <> [].
Proof.
  destruct fuel as [|fuel]; [discriminate|]. cbn [reduceBoards].
  destruct (foldM _ _ _) as [result| | |]; cbn [mbind outcome_bind]; try discriminate.
  case_bool_decide as Hlen; intros [= <-]; [done|].
  intros ->. by apply Hlen.
Qed.

Lemma wrapErr_Ok_iff {A} prefix (m : outcome A) a : wrapErr prefix m = Ok a <-> m = Ok a.
Proof. destruct m; cbn; split; congruence. Qed.

Lemma removalBranch_Ok fuel b xy rs :
  removalBranch fuel b xy = Ok rs <->
  exists nb, removedBoard b xy.1 xy.2 = Ok nb /\ reduceBoards fuel nb = Ok rs.
Proof.
  unfold removalBranch. split.
  - destruct (removedBoard b xy.1 xy.2) as [nb| | |]; cbn [mbind outcome_bind]; try discriminate.
    intros H%wrapErr_Ok_iff. eauto.
  - intros (nb & -> & H). cbn [mbind outcome_bind]. by apply wrapErr_Ok_iff.
Qed.

(** The accumulation [result = append(result, reduceResult...)] over the
    branches. *)
Lemma foldM_append {A B} (g : B -> outcome (list A)) l acc r :
  foldM (fun result x => rs ← g x; Ok (result ++ rs)) acc l = Ok r <->
  exists rss, Forall2 (fun x rs => g x = Ok rs) l rss /\ r = acc ++ concat rss.
Proof.
  revert acc. induction l as [|x l IH]; intros acc; cbn [foldM].
  - split.
    + intros [= <-]. exists []. split; [constructor|]. cbn. by rewrite app_nil_r.
    + intros (rss & H & ->). inversion H; subst. cbn. by rewrite app_nil_r.
  - split.
    + destruct (g x) as [rs| | |] eqn:Hg; cbn [mbind outcome_bind]; try discriminate.
      intros (rss & H & ->)%IH. exists (rs :: rss). split; [by constructor|].
      cbn. by rewrite app_assoc.
    + intros (rss & H & ->). inversion H as [|? rs ? rss' Hg Hrest]; subst.
      rewrite Hg. cbn [mbind outcome_bind]. apply IH. exists rss'. split; [done|].
      cbn. by rewrite app_assoc.
Qed.

(** The shape of the result of [reduce] on a settled board: one branch for
    every removable cell, in the order of the loop, or the board itself. *)
Lemma reduceBoards_branches fuel b bs :
  settled b -> reduceBoards (S fuel) b = Ok bs ->
  (removableCells b = [] /\ bs = [b]) \/
  (removableCells b <> [] /\
   exists bss, Forall2 (fun xy rs => removalBranch fuel b xy = Ok rs) (removableCells b) bss /\
               bs = concat bss).
Proof.
  intros Hs. rewrite reduceBoards_unfold by done.
  destruct (foldM _ _ _) as [result| | |] eqn:Hfold; cbn [mbind outcome_bind]; try discriminate.
  apply foldM_append in Hfold as (bss & Hall & ->). cbn [app].
  destruct (removableCells b) as [|xy rest] eqn:Hrem.
  - inversion Hall; subst. cbn. intros [= <-]. by left.
  - inversion Hall as [|? rs ? bss' Hbranch Hrest]; subst.
    pose proof Hbranch as Hrs.
    apply removalBranch_Ok in Hrs as (nb & _ & Hrs). apply reduceBoards_nonempty in Hrs.
    rewrite bool_decide_eq_false_2.
    + intros [= <-]. right. split; [done|]. exists (rs :: bss'). split; [by constructor | done].
    + cbn. rewrite length_app. destruct rs; [done|]. cbn. lia.
Qed.

Lemma removableCells_spec b xy :
  xy ∈ removableCells b <->
  xy ∈ cellIndices /\ pieceOf b xy.1 xy.2 <> NONE /\ contributes b xy.1 xy.2 = false.
Proof. unfold removableCells. rewrite list_elem_of_filter. tauto. Qed.

(** Every board [reduce] returns is reached from the input by removals of
    removable pieces from settled boards; [Q] is any relation that such a
    removal step preserves. *)
Lemma reduceBoards_reaches (Q : list (list cell) -> list (list cell) -> Prop) :
  (forall b, settled b -> Q b b) ->
  (forall b nb br x y,
      settled b -> (x, y) ∈ removableCells b -> removedBoard b x y = Ok nb -> settled nb ->
      (forall x' y', pieceOf nb x' y' =
                     if bool_decide ((x', y') = (x, y)) then NONE else pieceOf b x' y') ->
      Q br nb -> Q br b) ->
  forall fuel b, settled b -> (size (occupiedCells b) < fuel)%nat ->
    exists bs, reduceBoards fuel b = Ok bs /\ Forall (fun br => settled br /\ Q br b) bs.
Proof.
  intros Hrefl Hstep. induction fuel as [|fuel IH]; intros b Hs Hsize; [lia|].
  rewrite reduceBoards_unfold by done.
  destruct (foldM_invariant
              (fun result xy => rs ← removalBranch fuel b xy; Ok (result ++ rs))
              (fun (_ : list (Z * Z)) result => Forall (fun br => settled br /\ Q br b) result)
              (removableCells b)) with (a := @nil (list (list cell)))
    as (result & Hfold & Hres).
  - intros done [x y] result Hres Hxy.
    pose proof Hxy as (Hc & Hp & Hcon)%removableCells_spec. cbn [fst snd] in *.
    apply elem_of_cellIndices in Hc as [Hx Hy].
    destruct (removedBoard_spec b x y Hs Hx Hy) as (nb & Hnb & Hsn & Hpn).
    destruct (IH nb Hsn) as (rs & Hrs & Hall).
    { pose proof (occupiedCells_removed b nb x y Hx Hy Hp Hpn). lia. }
    exists (result ++ rs). split.
    + unfold removalBranch. cbn [fst snd]. rewrite Hnb. cbn [mbind outcome_bind].
      rewrite Hrs. reflexivity.
    + apply Forall_app. split; [done|].
      eapply Forall_impl; [exact Hall|]. intros br [Hsb Hq]. split; [done|].
      by apply (Hstep b nb br x y).
  - constructor.
  - rewrite Hfold. cbn [mbind outcome_bind]. case_bool_decide.
    + exists [b]. split; [done|]. constructor; [split; [done | by apply Hrefl] | constructor].
    + by exists result.
Qed.

Lemma elem_of_coveredCells b c :
  c ∈ coveredCells b <-> exists xy, xy ∈ cellIndices /\ c ∈ coverageAt b xy.1 xy.2.
Proof.
  unfold coveredCells. rewrite elem_of_union_list. split.
  - intros (s & Hs & Hc). apply list_elem_of_fmap in Hs as (xy & -> & Hxy). eauto.
  - intros (xy & Hxy & Hc). exists (coverageAt b xy.1 xy.2). split; [|done].
    apply list_elem_of_fmap. eauto.
Qed.

Lemma covered_supporters b c : c ∈ coveredCells b <-> (0 < size (supportersOf b c))%nat.
Proof.
  rewrite elem_of_coveredCells. split.
  - intros (xy & Hxy & Hc).
    assert (Hin : pointOf xy.1 xy.2 ∈ supportersOf b c).
    { apply elem_of_supportersAmong. eauto. }
    destruct (size (supportersOf b c)) eqn:Hsz; [|lia].
    apply size_empty_inv in Hsz. apply leibniz_equiv in Hsz. rewrite Hsz in Hin.
    by apply not_elem_of_empty in Hin.
  - intros Hsz. apply size_pos_elem_of in Hsz as [q Hq].
    apply elem_of_supportersAmong in Hq as (xy & Hxy & _ & Hc). eauto.
Qed.

Lemma rayReaches_emptier b b' x0 y0 dx dy c :
  emptier b b' -> rayReaches b x0 y0 dx dy c -> rayReaches b' x0 y0 dx dy c.
Proof.
  intros He (k & Hk & Hin & Hc & Hall). exists k. repeat split; try done.
  intros j Hj. by apply He, Hall.
Qed.

Lemma reachedAlong_emptier dirs b b' x0 y0 c :
  emptier b b' -> reachedAlong dirs b x0 y0 c -> reachedAlong dirs b' x0 y0 c.
Proof. intros He (d & Hd & Hr). exists d. eauto using rayReaches_emptier. Qed.

(** Removing pieces only lengthens the rays. *)
Lemma getCoverage_emptier b b' x y pc s s' :
  wfBoard b -> wfBoard b' -> emptier b b' -> 0 <= x < 8 -> 0 <= y < 8 ->
  getCoverage b (pointOf x y) pc = Ok s -> getCoverage b' (pointOf x y) pc = Ok s' ->
  s ⊆ s'.
Proof.
  intros Hwf Hwf' He Hx Hy.
  destruct (bishopCoverage_spec b x y Hwf Hx Hy) as (bs & Hb & Hbs).
  destruct (rookCoverage_spec b x y Hwf Hx Hy) as (rs & Hr & Hrs).
  destruct (bishopCoverage_spec b' x y Hwf' Hx Hy) as (bs' & Hb' & Hbs').
  destruct (rookCoverage_spec b' x y Hwf' Hx Hy) as (rs' & Hr' & Hrs').
  assert (Hbsub : bs ⊆ bs').
  { intros c. rewrite Hbs, Hbs'. by apply reachedAlong_emptier. }
  assert (Hrsub : rs ⊆ rs').
  { intros c. rewrite Hrs, Hrs'. by apply reachedAlong_emptier. }
  unfold getCoverage.
  rewrite (queenCoverage_union b _ bs rs Hb Hr), (queenCoverage_union b' _ bs' rs' Hb' Hr').
  rewrite Hb, Hb', Hr, Hr'.
  repeat case_bool_decide; intros [= <-] [= <-]; try done.
  by apply union_mono.
Qed.

Lemma coverageAt_emptier b b' x y :
  wfBoard b -> wfBoard b' -> validPieces b' -> emptier b b' -> 0 <= x < 8 -> 0 <= y < 8 ->
  pieceOf b x y = pieceOf b' x y ->
  coverageAt b x y ⊆ coverageAt b' x y.
Proof.
  intros Hwf Hwf' Hv' He Hx Hy Hp.
  destruct (cellAt_wf b x y Hwf Hx Hy) as (c & Hc & Hpc).
  destruct (cellAt_wf b' x y Hwf' Hx Hy) as (c' & Hc' & Hpc').
  assert (Epc : piece c = piece c').
  { unfold pieceOf in Hp. by rewrite Hpc, Hpc' in Hp. }
  destruct (decide (piece c = NONE)) as [Hn | Hn].
  - rewrite (coverageAt_none b x y c Hc Hn). apply empty_subseteq.
  - assert (Hk : knownPiece (piece c')).
    { pose proof (knownPiece_pieceOf b' x y Hv') as Hk. unfold pieceOf in Hk. by rewrite Hpc' in Hk. }
    destruct (getCoverage_known b' x y (piece c') Hwf' Hx Hy Hk) as (s' & Hs' & _); [congruence|].
    assert (Hk0 : knownPiece (piece c)) by congruence.
    destruct (getCoverage_known b x y (piece c) Hwf Hx Hy Hk0 Hn) as (s & Hs & _).
    rewrite (coverageAt_piece b x y c s Hc Hn) by (by rewrite newPointUnsafe_pointOf).
    rewrite (coverageAt_piece b' x y c' s' Hc') by (congruence || by rewrite newPointUnsafe_pointOf).
    rewrite <- Epc in Hs'. by apply (getCoverage_emptier b b' x y (piece c)).
Qed.

(** Removing a redundant piece loses no covered cell. *)
Lemma coveredCells_removed b nb x y :
  settled b -> settled nb -> (x, y) ∈ removableCells b ->
  (forall x' y', pieceOf nb x' y' =
                 if bool_decide ((x', y') = (x, y)) then NONE else pieceOf b x' y') ->
  coveredCells b ⊆ coveredCells nb.
Proof.
  intros (Hwf & Hv & _) (Hwfn & Hvn & _) Hrem Hp.
  apply removableCells_spec in Hrem as ([Hx Hy]%elem_of_cellIndices & Hpiece & Hcon).
  cbn [fst snd] in *.
  apply (contributes_redundant b x y Hwf Hv Hx Hy) in Hcon.
  assert (He : emptier b nb).
  { intros x' y' Hxy. pose proof (pieceAt_Some_inBounds _ _ _ _ Hxy) as [Hx' Hy']%inBounds_iff.
    rewrite pieceAt_wf by done. f_equal. rewrite Hp.
    case_bool_decide; [done|]. unfold pieceOf. by rewrite Hxy. }
  assert (Hother : forall x1 y1 c, 0 <= x1 < 8 -> 0 <= y1 < 8 -> (x1, y1) <> (x, y) ->
            c ∈ coverageAt b x1 y1 -> c ∈ coveredCells nb).
  { intros x1 y1 c Hx1 Hy1 Hne Hc. apply elem_of_coveredCells. exists (x1, y1).
    split; [by apply elem_of_cellIndices|]. cbn [fst snd].
    apply (coverageAt_emptier b nb x1 y1); try done.
    rewrite Hp. by rewrite bool_decide_eq_false_2. }
  intros c ([x1 y1] & [Hx1 Hy1]%elem_of_cellIndices & Hc)%elem_of_coveredCells.
  cbn [fst snd] in Hc.
  destruct (decide ((x1, y1) = (x, y))) as [E | Hne].
  - injection E as -> ->. destruct (Hcon c Hc) as (x' & y' & Hx' & Hy' & Hne & Hc').
    by apply (Hother x' y').
  - by apply (Hother x1 y1).
Qed.

Lemma level_row row acc :
  foldl (fun result currCell =>
           if bool_decide (0 < size (supportedBy currCell))%nat then result + 1 else result)
        acc row =
  acc + Z.of_nat (length (filter isSupported row)).
Proof.
  revert acc. induction row as [|c row IH]; intros acc; cbn [foldl]; [cbn; lia|].
  rewrite IH, filter_cons. unfold isSupported at 2.
  case_bool_decide; case_decide; try done; cbn [length]; lia.
Qed.

Lemma level_rows b acc :
  foldl (fun result row =>
           foldl (fun result currCell =>
                    if bool_decide (0 < size (supportedBy currCell))%nat
                    then result + 1 else result) result row) acc b =
  acc + Z.of_nat (length (filter isSupported (concat b))).
Proof.
  revert acc. induction b as [|row b IH]; intros acc; cbn [foldl concat]; [cbn; lia|].
  rewrite IH, level_row, filter_app, length_app. lia.
Qed.

Lemma GetCoverageLevel_count b :
  GetCoverageLevel b = Z.of_nat (length (filter isSupported (concat b))).
Proof. unfold GetCoverageLevel. rewrite level_rows. lia. Qed.

Lemma concat_cells b : wfBoard b -> concat b = map (cellOf b) cellIndices.
Proof. intros Hwf. board_cells b Hwf. reflexivity. Qed.

Lemma filter_length_fmap {A B} (f : A -> B) (P : B -> Prop) `{Hdec : !forall x, Decision (P x)}
    (l : list A) :
  length (filter P (map f l)) = length (filter (fun x => P (f x)) l).
Proof.
  induction l as [|a l IH]; [done|]. cbn [map]. rewrite !filter_cons.
  destruct (decide (P (f a))); cbn [length]; by rewrite IH.
Qed.

Lemma filter_length_mono {A} (P Q : A -> Prop) `{HP : !forall x, Decision (P x)}
    `{HQ : !forall x, Decision (Q x)} (l : list A) :
  (forall x, x ∈ l -> P x -> Q x) -> (length (filter P l) <= length (filter Q l))%nat.
Proof.
  induction l as [|a l IH]; intros Himp; [done|]. rewrite !filter_cons.
  assert (IH' : (length (filter P l) <= length (filter Q l))%nat).
  { apply IH. intros. apply Himp; [by right | done]. }
  destruct (decide (P a)) as [Hp | Hp]; destruct (decide (Q a)) as [Hq | Hq]; cbn [length]; try lia.
  exfalso. apply Hq, Himp; [left | done].
Qed.

(** On a settled board [GetCoverageLevel] counts the covered cells. *)
Lemma GetCoverageLevel_settled b :
  settled b -> GetCoverageLevel b = Z.of_nat (coverageCount b).
Proof.
  intros Hs. pose proof Hs as (Hwf & _ & _).
  rewrite GetCoverageLevel_count, concat_cells by done.
  rewrite filter_length_fmap. unfold coverageCount. f_equal.
  apply Nat.le_antisymm; apply filter_length_mono;
    intros [x y] [Hx Hy]%elem_of_cellIndices; unfold cellOf, isSupported; cbn [fst snd];
    rewrite settled_cells by done; cbn [settledCell supportedBy];
    fold (supportersOf b (pointOf x y)); by rewrite covered_supporters.
Qed.

Lemma coverageCount_mono b b' :
  coveredCells b ⊆ coveredCells b' -> (coverageCount b <= coverageCount b')%nat.
Proof. intros Hsub. apply filter_length_mono. intros xy _. apply Hsub. Qed.

(** On boards read without the heap: every board [reduce] returns is settled,
    restricts the occupancy of the input and covers at least the cells the
    input covers. *)
Lemma reduceBoards_spec fuel b :
  settled b -> (size (occupiedCells b) < fuel)%nat ->
  exists bs, reduceBoards fuel b = Ok bs /\
    Forall (fun br => settled br /\ restricts br b /\ coveredCells b ⊆ coveredCells br) bs.
Proof.
  intros Hs Hsize.
  pose proof (reduceBoards_reaches
                (fun br b => restricts br b /\ coveredCells b ⊆ coveredCells br)) as Hreach.
  destruct (Hreach) with (fuel := fuel) (b := b) as (bs & Hbs & Hall).
  - intros b0 _. split.
    + intros x y. left. reflexivity.
    + apply PreOrder_Reflexive.
  - intros b0 nb br x y Hs0 Hrem Hnb Hsn Hp [Hres Hcov]. split.
    + intros x' y'. destruct (Hres x' y') as [E | E]; [|right; exact E].
      rewrite E, Hp. case_bool_decide; [right | left]; reflexivity.
    + eapply PreOrder_Transitive; [|exact Hcov].
      exact (coveredCells_removed b0 nb x y Hs0 Hsn Hrem Hp).
  - exact Hs.
  - exact Hsize.
  - exists bs. split; [exact Hbs|]. eapply Forall_impl; [exact Hall|].
    intros br (H1 & H2 & H3). auto.
Qed.

Lemma occupiedCells_bound b : (size (occupiedCells b) < reduceFuel)%nat.
Proof.
  assert (Hsub : occupiedCells b ⊆ list_to_set cellIndices).
  { intros xy [Hc _]%elem_of_occupiedCells. by apply elem_of_list_to_set. }
  apply subseteq_size in Hsub.
  assert (Hall : size (list_to_set (C := gset (Z * Z)) cellIndices) = 64%nat)
    by (vm_compute; reflexivity).
  rewrite Hall in Hsub. change reduceFuel with 65%nat. lia.
Qed.

(** *** The heap: [reduce] allocates, and writes to what it allocated *)

Lemma load_Some (h : list (list (list cell))) p b : h !! p = Some b -> load h p = Ok b.
Proof. intros H. unfold load. by rewrite H. Qed.

Lemma store_last (h : list (list (list cell))) a v : store (h ++ [a]) (length h) v = h ++ [v].
Proof.
  unfold store. rewrite insert_app_r_alt by lia. by rewrite Nat.sub_diag.
Qed.

Lemma lookup_last (h : list (list (list cell))) a : (h ++ [a]) !! length h = Some a.
Proof. by rewrite lookup_app_r, Nat.sub_diag. Qed.

Lemma pointTo_extend h ext rs bs : pointTo h rs bs -> pointTo (h ++ ext) rs bs.
Proof.
  unfold pointTo. intros H. eapply Forall2_impl; [exact H|].
  intros r br Hr. by apply lookup_app_l_Some.
Qed.

Lemma removePiece_refines h b bv x y nb :
  h !! b = Some bv -> removedBoard bv x y = Ok nb ->
  removePiece h b x y = Ok (h ++ [nb], length h).
Proof.
  intros Hb Hnb. unfold removePiece, removedBoard, alloc in *.
  rewrite (load_Some _ _ _ Hb). cbn [mbind outcome_bind].
  rewrite (load_Some _ _ _ (lookup_last h _)). cbn [mbind outcome_bind].
  destruct (updCell (Board_copy bv) _ _) as [nb'| | |]; cbn [mbind outcome_bind] in *;
    try discriminate Hnb.
  rewrite store_last. rewrite (load_Some _ _ _ (lookup_last h _)). cbn [mbind outcome_bind].
  destruct (settleSupportGraph nb') as [nb''| | |]; cbn [mbind outcome_bind wrapErr] in *;
    try discriminate Hnb.
  injection Hnb as ->. by rewrite store_last.
Qed.

(** The heap-level [reduce] returns pointers to the boards of [reduceBoards],
    and leaves every board that was allocated before the call as it was. *)
Lemma reduce_refines fuel :
  forall h b bv bs,
    h !! b = Some bv -> reduceBoards fuel bv = Ok bs ->
    exists rs ext, reduce fuel h b = Ok (rs, h ++ ext) /\ pointTo (h ++ ext) rs bs.
Proof.
  induction fuel as [|fuel IH]; intros h b bv bs Hb Hbs; [discriminate Hbs|].
  cbn [reduce reduceBoards] in *.
  set (pureBody := fun (result : list (list (list cell))) (xy : Z * Z) => _) in Hbs.
  set (heapBody := fun (st : list nat * list (list (list cell))) (xy : Z * Z) => _).
  assert (Hloop : forall l result ptrs ext0 result',
             pointTo (h ++ ext0) ptrs result ->
             foldM pureBody result l = Ok result' ->
             exists ptrs' ext',
               foldM heapBody (ptrs, h ++ ext0) l = Ok (ptrs', h ++ ext') /\
               pointTo (h ++ ext') ptrs' result').
  { induction l as [|[x y] l IHl]; intros result ptrs ext0 result' Hpt Hfold.
    - cbn in Hfold. injection Hfold as <-. by exists ptrs, ext0.
    - cbn [foldM] in Hfold |- *.
      destruct (pureBody result (x, y)) as [r1| | |] eqn:Hstep; cbn [mbind outcome_bind] in Hfold;
        try discriminate Hfold.
      assert (Hh : exists p1 ext1, heapBody (ptrs, h ++ ext0) (x, y) = Ok (p1, h ++ ext1) /\
                     pointTo (h ++ ext1) p1 r1).
      { unfold pureBody in Hstep. unfold heapBody. cbn [fst snd] in Hstep.
        rewrite (load_Some _ _ bv) by (by apply lookup_app_l_Some).
        cbn [mbind outcome_bind].
        destruct (cellAt bv x y) as [currCell| | |]; cbn [mbind outcome_bind] in *;
          try discriminate Hstep.
        case_bool_decide.
        { injection Hstep as <-. by exists ptrs, ext0. }
        destruct (contributing bv _) as [skip| | |]; cbn [mbind outcome_bind] in *;
          try discriminate Hstep.
        destruct skip.
        { injection Hstep as <-. by exists ptrs, ext0. }
        destruct (removedBoard bv x y) as [nb| | |] eqn:Hnb; cbn [mbind outcome_bind] in *;
          try discriminate Hstep.
        rewrite (removePiece_refines (h ++ ext0) b bv x y nb
                   (lookup_app_l_Some _ _ _ _ Hb) Hnb).
        cbn [mbind outcome_bind].
        destruct (reduceBoards fuel nb) as [rs| | |] eqn:Hrs; cbn [mbind outcome_bind wrapErr] in *;
          try discriminate Hstep.
        injection Hstep as <-.
        destruct (IH ((h ++ ext0) ++ [nb]) (length (h ++ ext0)) nb rs (lookup_last _ _) Hrs)
          as (rsp & ext1 & Hred & Hpt1).
        rewrite Hred. cbn [mbind outcome_bind wrapErr].
        exists (ptrs ++ rsp), (ext0 ++ [nb] ++ ext1).
        rewrite !app_assoc. split; [done|].
        apply Forall2_app; [|exact Hpt1].
        apply (pointTo_extend _ ext1), (pointTo_extend _ [nb]). exact Hpt. }
      destruct Hh as (p1 & ext1 & Hh & Hpt1). rewrite Hh. cbn [mbind outcome_bind].
      by apply (IHl r1 p1 ext1 result'). }
  destruct (foldM pureBody [] cellIndices) as [result| | |] eqn:Hfold;
    cbn [mbind outcome_bind] in Hbs; try discriminate Hbs.
  destruct (Hloop cellIndices [] [] [] result) as (ptrs & ext & Hheap & Hpt).
  { constructor. }
  { done. }
  rewrite app_nil_r in Hheap. rewrite Hheap. cbn [mbind outcome_bind].
  pose proof (Forall2_length _ _ _ Hpt) as Hlen. rewrite Hlen.
  case_bool_decide; injection Hbs as <-.
  - exists [b], ext. split; [done|]. constructor; [by apply lookup_app_l_Some | constructor].
  - by exists ptrs, ext.
Qed.

Lemma foldM_skip {A B} (f : A -> B -> outcome A) l a :
  (forall x, x ∈ l -> f a x = Ok a) -> foldM f a l = Ok a.
Proof.
  induction l as [|x l IH]; intros H; [done|]. cbn. rewrite H by left. cbn.
  apply IH. intros. apply H. by right.
Qed.

(** A settled board without a removable piece is returned as it is: the
    pointer that was passed, and nothing is allocated. *)
Lemma reduce_no_removable fuel h b bv :
  h !! b = Some bv -> settled bv -> removableCells bv = [] ->
  reduce (S fuel) h b = Ok ([b], h).
Proof.
  intros Hb Hs Hrem. cbn [reduce]. rewrite foldM_skip; [done|].
  intros [x y] [Hx Hy]%elem_of_cellIndices.
  rewrite (load_Some _ _ _ Hb). cbn [mbind outcome_bind].
  rewrite settled_cells by done. cbn [mbind outcome_bind].
  rewrite contributing_cell by done. cbn [settledCell piece mbind outcome_bind].
  case_bool_decide as Hp; [done|].
  destruct (contributes bv x y) eqn:Hc; [done|]. exfalso.
  assert (Hin : (x, y) ∈ removableCells bv).
  { apply removableCells_spec. split; [by apply elem_of_cellIndices | done]. }
  rewrite Hrem in Hin. by apply not_elem_of_nil in Hin.
Qed.

Lemma pointTo_Forall (P : list (list cell) -> Prop) h rs bs :
  pointTo h rs bs -> Forall P bs -> Forall (fun r => exists br, h !! r = Some br /\ P br) rs.
Proof.
  intros Hpt. induction Hpt as [|r br rs bs Hr Hpt IH]; intros Hall; [constructor|].
  apply Forall_cons in Hall as [Hp Hall]. constructor; [eauto | by apply IH].
Qed.

Lemma reduce_total h b bv :
  h !! b = Some bv -> settled bv ->
  exists rs ext bs,
    reduce reduceFuel h b = Ok (rs, h ++ ext) /\ pointTo (h ++ ext) rs bs /\
    reduceBoards reduceFuel bv = Ok bs /\
    Forall (fun br => settled br /\ restricts br bv /\ coveredCells bv ⊆ coveredCells br) bs.
Proof.
  intros Hb Hs.
  destruct (reduceBoards_spec reduceFuel bv Hs (occupiedCells_bound bv)) as (bs & Hbs & Hall).
  destruct (reduce_refines reduceFuel h b bv bs Hb Hbs) as (rs & ext & Hred & Hpt).
  exists rs, ext, bs. auto.
Qed.

(** C10: every board [reduce] returns holds at each cell the piece of the
    input or nothing, and the input board, like every board allocated before
    the call, is left as it was. *)
Theorem reduce_restricts_occupancy (h : list (list (list cell))) (b : nat)
    (bv : list (list cell)) :
  h !! b = Some bv -> settled bv ->
  exists rs ext,
    reduce reduceFuel h b = Ok (rs, h ++ ext) /\
    (h ++ ext) !! b = Some bv /\
    Forall (fun r => exists br, (h ++ ext) !! r = Some br /\ wfBoard br /\ restricts br bv) rs.
Proof.
  intros Hb Hs. destruct (reduce_total h b bv Hb Hs) as (rs & ext & bs & Hred & Hpt & _ & Hall).
  exists rs, ext. split; [done|]. split; [by apply lookup_app_l_Some|].
  apply (pointTo_Forall (fun br => wfBoard br /\ restricts br bv) _ _ bs Hpt).
  eapply Forall_impl; [exact Hall|]. intros br ((Hwf & _ & _) & Hres & _). auto.
Qed.

(** What [reduce] does keep: no board it returns has a lower coverage level
    than the input. *)
Lemma reduce_never_loses_coverage (h : list (list (list cell))) (b : nat)
    (bv : list (list cell)) :
  h !! b = Some bv -> settled bv ->
  exists rs ext,
    reduce reduceFuel h b = Ok (rs, h ++ ext) /\
    Forall (fun r => exists br, (h ++ ext) !! r = Some br /\ settled br /\
                                GetCoverageLevel bv <= GetCoverageLevel br) rs.
Proof.
  intros Hb Hs. destruct (reduce_total h b bv Hb Hs) as (rs & ext & bs & Hred & Hpt & _ & Hall).
  exists rs, ext. split; [done|].
  apply (pointTo_Forall (fun br => settled br /\ GetCoverageLevel bv <= GetCoverageLevel br)
           _ _ bs Hpt).
  eapply Forall_impl; [exact Hall|]. intros br (Hsb & _ & Hcov). split; [done|].
  rewrite !GetCoverageLevel_settled by done. apply inj_le. by apply coverageCount_mono.
Qed.

(** C2 (amended): a piece is removable iff every cell it covers is covered by
    another piece; [reduce] makes one removal branch for every removable
    piece, in the order of its loop, and returns the results of all the
    branches; with no removable piece it returns the board it was given. *)
Theorem reduce_branches_on_every_removable (h : list (list (list cell))) (b : nat)
    (bv : list (list cell)) :
  h !! b = Some bv -> settled bv ->
  (forall x y, 0 <= x < 8 -> 0 <= y < 8 ->
     ((x, y) ∈ removableCells bv <-> pieceOf bv x y <> NONE /\ redundant bv x y)) /\
  exists rs ext bs,
    reduce reduceFuel h b = Ok (rs, h ++ ext) /\ pointTo (h ++ ext) rs bs /\
    ((removableCells bv = [] /\ rs = [b] /\ ext = []) \/
     (removableCells bv <> [] /\
      exists bss,
        Forall2 (fun xy branch => removalBranch (Nat.pred reduceFuel) bv xy = Ok branch)
                (removableCells bv) bss /\
        bs = concat bss)).
Proof.
  intros Hb Hs. split.
  - intros x y Hx Hy. pose proof Hs as (Hwf & Hv & _).
    rewrite removableCells_spec. cbn [fst snd].
    rewrite (contributes_redundant bv x y Hwf Hv Hx Hy).
    rewrite elem_of_cellIndices. tauto.
  - destruct (reduce_total h b bv Hb Hs) as (rs & ext & bs & Hred & Hpt & Hbs & _).
    change reduceFuel with (S (Nat.pred reduceFuel)) in Hbs.
    destruct (reduceBoards_branches _ bv bs Hs Hbs) as [[Hnone ->] | [Hsome Hbr]].
    + change reduceFuel with (S (Nat.pred reduceFuel)) in Hred.
      rewrite (reduce_no_removable _ h b bv Hb Hs Hnone) in Hred.
      injection Hred as <- Hext.
      assert (ext = []) as ->.
      { apply (f_equal length) in Hext. rewrite length_app in Hext.
        destruct ext; [done | cbn in Hext; lia]. }
      exists [b], [], [bv].
      change reduceFuel with (S (Nat.pred reduceFuel)).
      rewrite (reduce_no_removable _ h b bv Hb Hs Hnone), app_nil_r.
      split; [done|]. split; [by repeat constructor|]. by left.
    + exists rs, ext, bs. split; [done|]. split; [done|]. by right.
Qed.

(** ** The properties at sample boards and states *)

(** *** Boards *)

Lemma threePawns_settled : settled threePawns.
Proof. split; [by_compute | split; [by_compute | vm_compute; reflexivity]]. Qed.

(** C2 as stated fails at three pawns on (0,0), (0,2) and (0,4): the first
    two are removable, [reduce] returns two boards, and the second one keeps the
    first removable pawn and lacks the second. *)
Lemma reduce_branches_on_later_removable :
  removableCells threePawns = [(0, 0); (0, 2)] /\
  exists rs h' br,
    reduce reduceFuel [threePawns] 0%nat = Ok (rs, h') /\
    length rs = 2%nat /\
    (r ← rs !! 1%nat; h' !! r) = Some br /\
    pieceOf br 0 0 = PAWN /\ pieceOf br 0 2 = NONE.
Proof.
  split; [vm_compute; reflexivity|].
  eexists _, _, _. split; [vm_compute; reflexivity|].
  split; [reflexivity|]. split; [reflexivity|]. split; vm_compute; reflexivity.
Qed.

Lemma rookBehindPawn_settled : settled rookBehindPawn.
Proof. split; [by_compute | split; [by_compute | vm_compute; reflexivity]]. Qed.

(** C1 at a queen on (3,3) with a pawn on (3,5). *)
Lemma sliding_coverage_exact_witness :
  exists bs rs qs,
    bishopCoverage queenAndPawn 27 = Ok bs /\ rookCoverage queenAndPawn 27 = Ok rs /\
    queenCoverage queenAndPawn 27 = Ok qs /\
    (forall c, c ∈ bs <-> reachedAlong bishopDirs queenAndPawn (point_x 27) (point_y 27) c) /\
    (forall c, c ∈ rs <-> reachedAlong rookDirs queenAndPawn (point_x 27) (point_y 27) c) /\
    qs = bs ∪ rs.
Proof. apply (sliding_coverage_exact queenAndPawn 27); [by_compute | unfold BOARD_SIZE; lia]. Defined.

(** C2 at the three pawns. *)
Lemma reduce_branches_witness :
  (forall x y, 0 <= x < 8 -> 0 <= y < 8 ->
     ((x, y) ∈ removableCells threePawns <->
      pieceOf threePawns x y <> NONE /\ redundant threePawns x y)) /\
  exists rs ext bs,
    reduce reduceFuel [threePawns] 0%nat = Ok (rs, [threePawns] ++ ext) /\
    pointTo ([threePawns] ++ ext) rs bs /\
    ((removableCells threePawns = [] /\ rs = [0%nat] /\ ext = []) \/
     (removableCells threePawns <> [] /\
      exists bss,
        Forall2 (fun xy branch => removalBranch (Nat.pred reduceFuel) threePawns xy = Ok branch)
                (removableCells threePawns) bss /\
        bs = concat bss)).
Proof.
  apply (reduce_branches_on_every_removable [threePawns] 0%nat threePawns);
    [reflexivity | exact threePawns_settled].
Defined.

(** C3: [reduce] returns a board of a higher coverage level than its input,
    where its description has pieces removed without a change of the
    coverage.  On the settled board with a rook on (7,0) and a pawn on (7,1)
    it removes the pawn, and the level rises from 8 to 14.  The same happens
    in the search.  The root board proposes the board with a rook on (0,0),
    which proposes the board with that rook and a pawn on (0,2); on this
    board, the candidate that [ProposeBoards] settles after placing a rook on
    (1,7) has the level 22, [reduce] returns for it the board of the two
    rooks alone, of level 26, and the compact state of that board is
    proposed. *)
Theorem reduce_raises_coverage :
  (settled rookBehindPawn /\ GetCoverageLevel rookBehindPawn = 8 /\
   exists h' br,
     reduce reduceFuel [rookBehindPawn] 0%nat = Ok ([1%nat], h') /\
     h' !! 1%nat = Some br /\ GetCoverageLevel br = 14) /\
  (proposes (rebuilt []) (compactOf (rebuilt [(0, ROOK)])) = true /\
   proposes (rebuilt [(0, ROOK)]) (compactOf rookAndPawn) = true /\
   settleSupportGraph (setPiece (Board_copy rookAndPawn) 1 7 ROOK) = Ok rooksAndPawn /\
   settled rooksAndPawn /\ GetCoverageLevel rooksAndPawn = 22 /\
   reduce reduceFuel [rooksAndPawn] 0%nat = Ok ([1%nat], [rooksAndPawn; twoRooks]) /\
   GetCoverageLevel twoRooks = 26 /\
   proposes rookAndPawn (compactOf twoRooks) = true).
Proof.
  split.
  - split; [exact rookBehindPawn_settled|]. split; [vm_compute; reflexivity|].
    eexists _, _. split; [vm_compute; reflexivity|].
    split; [reflexivity | vm_compute; reflexivity].
  - split; [vm_compute; reflexivity|].
    split; [vm_compute; reflexivity|].
    split; [vm_compute; reflexivity|].
    split; [split; [by_compute | split; [by_compute | vm_compute; reflexivity]]|].
    split; [vm_compute; reflexivity|].
    split; [vm_compute; reflexivity|].
    split; vm_compute; reflexivity.
Qed.

(** C10 at the three pawns. *)
Lemma reduce_restricts_occupancy_witness :
  exists rs ext,
    reduce reduceFuel [threePawns] 0%nat = Ok (rs, [threePawns] ++ ext) /\
    ([threePawns] ++ ext) !! 0%nat = Some threePawns /\
    Forall (fun r => exists br, ([threePawns] ++ ext) !! r = Some br /\ wfBoard br /\
                                restricts br threePawns) rs.
Proof.
  apply (reduce_restricts_occupancy [threePawns] 0%nat threePawns);
    [reflexivity | exact threePawns_settled].
Defined.

(** *** Compact states *)

(** C4 at the compact state of a board with one queen. *)
Lemma compact_state_equality_witness :
  MinimalBoard_eqb queenCompact queenCompact = true /\
  (insertBoard (insertBoard initialState queenCompact).1 queenCompact).2 = false.
Proof.
  apply (proj2 compact_state_equality heuristic (rebuilt [(0, QUEEN)]) queenCompact queenCompact
           initialState); vm_compute; reflexivity.
Defined.

(** C4 as stated fails at the empty occupancy: its compaction has the
    occupancy of [MinimalBoard{}] and is not equal to it, is not equal to
    itself, and is accepted by a second insertion. *)
Lemma empty_compact_not_deduplicated :
  getMinimalBoard heuristic (rebuilt []) = Ok emptyCompact /\
  board emptyCompact = board zeroMinimalBoard /\
  MinimalBoard_eqb emptyCompact zeroMinimalBoard = false /\
  MinimalBoard_eqb emptyCompact emptyCompact = false /\
  (insertBoard (insertBoard initialState emptyCompact).1 emptyCompact).2 = true.
Proof. repeat split; vm_compute; reflexivity. Qed.

(** C9 at the queen and the pawn. *)
Lemma rebuild_compact_roundtrip_witness :
  (exists m, getMinimalBoard heuristic queenAndPawn = Ok m) /\
  exists b', RebuildBoard (compactOf queenAndPawn) = Ok b' /\ wfBoard b' /\
             occupancy b' = occupancy queenAndPawn.
Proof.
  destruct (rebuild_compact_roundtrip queenAndPawn) as [Htotal Hround]; [by_compute|].
  split; [apply Htotal; by_compute|].
  apply (Hround heuristic (compactOf queenAndPawn)). vm_compute. reflexivity.
Defined.

(** C8 at the queen and the pawn. *)
Lemma score_sum_witness :
  Board_Score queenAndPawn = Ok (sumValues queenAndPawn).
Proof. apply (proj1 (score_sum_or_panic queenAndPawn)). by_compute. Defined.

(** *** The frontier *)

(** C7 as stated fails: after the ascending sort the knight board, with the
    higher heuristic, is dispatched while the pawn board, with the lower one,
    stays in the edge set. *)
Lemma dispatch_takes_higher_heuristic :
  dispatch 8 (sortEdgeSet twoBoardState 0) = Ok (afterDispatch (sortEdgeSet twoBoardState 0)) /\
  workQueue (afterDispatch (sortEdgeSet twoBoardState 0)) = [knightCompact] /\
  edgeSet (afterDispatch (sortEdgeSet twoBoardState 0)) = [pawnCompact] /\
  f32ltb (Heuristic pawnCompact) (Heuristic knightCompact) = true.
Proof. repeat split; vm_compute; reflexivity. Qed.

(** C7 at the same edge set. *)
Lemma dispatch_takes_highest_witness :
  (exists dropped,
      edgeSet (sortEdgeSet twoBoardState 0) =
      edgeSet (afterDispatch (sortEdgeSet twoBoardState 0)) ++ [knightCompact] ++ dropped /\
      Forall (overBound (currBestScore twoBoardState)) dropped) /\
  (forall i x, 0 <= Z.of_nat i ->
     (edgeSet (afterDispatch (sortEdgeSet twoBoardState 0)) ++ [knightCompact]) !! i = Some x ->
     f32ltb (Heuristic knightCompact) (Heuristic x) = false).
Proof.
  apply (dispatch_takes_highest_of_sorted 8 0 twoBoardState
           (afterDispatch (sortEdgeSet twoBoardState 0)) knightCompact).
  - lia.
  - repeat constructor.
  - vm_compute; reflexivity.
  - vm_compute; reflexivity.
Defined.

(** C6 at an edge set of one board of score 29 under the bound 28. *)
Lemma prune_reads_before_front_witness :
  dispatch 8 (setEdgeSet initialState [overBoundBoard]) = Panic outOfRange.
Proof.
  apply (prune_reads_before_front 8 (setEdgeSet initialState [overBoundBoard])).
  - discriminate.
  - repeat constructor.
Defined.

(** *** The counter of outstanding jobs *)

Lemma workerJob_decrements_twice st b bv proposed h st' :
  RebuildBoard b = Ok bv -> ProposeBoards heuristic [bv] 0%nat = Ok (proposed, h) ->
  workerJob st b = Ok st' ->
  outstandingJobs st' = int32 (int32 (outstandingJobs st + -1) + -1).
Proof.
  intros Hb Hp. unfold workerJob, workerBody. rewrite Hb. cbn [mbind outcome_bind].
  rewrite Hp. cbn [wrapErr mbind outcome_bind]. intros [= <-]. reflexivity.
Qed.

(** C5: a dispatch of the root board followed by its expansion leaves the
    counter at -1 with no expansion in flight. *)
Theorem outstanding_jobs_goes_negative :
  exists c, reachable 8 c /\ outstandingJobs (shared c) = -1 /\
            inFlight c = [] /\ workQueue (shared c) = [].
Proof.
  eexists. split.
  - eapply reachable_step.
    + eapply reachable_step.
      * eapply reachable_step; [apply reachable_init|].
        eapply step_orchestrator; [reflexivity | vm_compute; reflexivity].
      * eapply step_receive. vm_compute. reflexivity.
    + eapply (step_expand 8 _ zeroMinimalBoard _ [] []); [reflexivity|].
      vm_compute. reflexivity.
  - split; [reflexivity|]. split; reflexivity.
Qed.

(** * Further properties of the code *)

(** ** Points *)

Lemma newPoint_inverse p :
  0 <= p < BOARD_SIZE * BOARD_SIZE -> newPoint (point_x p) (point_y p) = (p, true).
Proof.
  intros Hp. destruct (point_decompose p Hp) as (Hx & Hy & Heq).
  unfold newPoint. fold (newPointUnsafe (point_x p) (point_y p)).
  rewrite newPointUnsafe_pointOf, <- Heq by done.
  by rewrite (proj2 (inBounds_iff _ _)).
Qed.

(** X1: [newPoint] flags a pair of coordinates as valid exactly when both lie
    on the board; on the board [newPoint] and [newPointUnsafe] give the same
    point, it lies in [0, 64) and [x()] and [y()] give the coordinates back;
    and every point in [0, 64) is the point of its own coordinates. *)
Theorem point_encoding_roundtrip :
  (forall x y, (newPoint x y).2 = true <-> 0 <= x < BOARD_SIZE /\ 0 <= y < BOARD_SIZE) /\
  (forall x y, 0 <= x < BOARD_SIZE -> 0 <= y < BOARD_SIZE ->
     newPointUnsafe x y = (newPoint x y).1 /\
     0 <= (newPoint x y).1 < BOARD_SIZE * BOARD_SIZE /\
     point_x (newPoint x y).1 = x /\ point_y (newPoint x y).1 = y) /\
  (forall p, 0 <= p < BOARD_SIZE * BOARD_SIZE ->
     0 <= point_x p < BOARD_SIZE /\ 0 <= point_y p < BOARD_SIZE /\
     newPoint (point_x p) (point_y p) = (p, true)).
Proof.
  split; [|split].
  - intros x y. cbn. apply inBounds_iff.
  - intros x y Hx Hy. unfold BOARD_SIZE in Hx, Hy. split; [done|].
    unfold newPoint. cbn [fst]. fold (newPointUnsafe x y).
    rewrite newPointUnsafe_pointOf by done.
    destruct (point_xy x y Hx Hy) as [-> ->].
    split; [|done]. by apply pointOf_range.
  - intros p Hp. destruct (point_decompose p Hp) as (Hx & Hy & _).
    split; [done|]. split; [done|]. by apply newPoint_inverse.
Qed.

Lemma add_offsets x y dx dy :
  0 <= x < 8 -> 0 <= y < 8 -> -8 <= dx <= 8 -> -8 <= dy <= 8 ->
  (add (pointOf x y) dx dy).2 = inBounds (x + dx) (y + dy) /\
  ((add (pointOf x y) dx dy).2 = true ->
   (add (pointOf x y) dx dy).1 = pointOf (x + dx) (y + dy)).
Proof.
  intros Hx Hy Hdx Hdy. unfold add.
  destruct (point_xy x y Hx Hy) as [-> ->].
  rewrite !(int8_small (x + dx)), !(int8_small (y + dy)) by lia.
  cbn [fst snd]. split; [done|]. intros [? ?]%inBounds_iff.
  unfold pointOf, BOARD_SIZE.
  rewrite (int8_small (dx * 8)) by lia.
  rewrite (int8_small (dx * 8 + dy)) by lia.
  rewrite int8_small by lia. lia.
Qed.

(** X2: for a point of the board and offsets between -8 and 8, [add]
    reports the move as valid exactly when the target coordinates are on the
    board, and a valid move returns the point of the target cell. *)
Theorem add_flags_off_board_moves (p dx dy : Z) :
  0 <= p < BOARD_SIZE * BOARD_SIZE -> -8 <= dx <= 8 -> -8 <= dy <= 8 ->
  ((add p dx dy).2 = true <->
   0 <= point_x p + dx < BOARD_SIZE /\ 0 <= point_y p + dy < BOARD_SIZE) /\
  ((add p dx dy).2 = true ->
   0 <= (add p dx dy).1 < BOARD_SIZE * BOARD_SIZE /\
   point_x (add p dx dy).1 = point_x p + dx /\
   point_y (add p dx dy).1 = point_y p + dy).
Proof.
  intros Hp Hdx Hdy. destruct (point_decompose p Hp) as (Hx & Hy & Heq).
  destruct (add_offsets (point_x p) (point_y p) dx dy Hx Hy Hdx Hdy) as [Hv Hq].
  rewrite <- Heq in Hv, Hq. split.
  - rewrite Hv. apply inBounds_iff.
  - intros Ht. rewrite (Hq Ht). rewrite Hv in Ht. apply inBounds_iff in Ht as [Hnx Hny].
    destruct (point_xy _ _ Hnx Hny) as [-> ->].
    split; [|done]. by apply pointOf_range.
Qed.

(** X2 at the point 7 (row 0, column 7) moved by (1, -1). *)
Lemma add_flags_off_board_moves_witness :
  ((add 7 1 (-1)).2 = true <->
   0 <= point_x 7 + 1 < BOARD_SIZE /\ 0 <= point_y 7 + -1 < BOARD_SIZE) /\
  ((add 7 1 (-1)).2 = true ->
   0 <= (add 7 1 (-1)).1 < BOARD_SIZE * BOARD_SIZE /\
   point_x (add 7 1 (-1)).1 = point_x 7 + 1 /\
   point_y (add 7 1 (-1)).1 = point_y 7 + -1).
Proof. apply (add_flags_off_board_moves 7 1 (-1)); unfold BOARD_SIZE; lia. Defined.

(** ** Reading a cell *)

Lemma index_out {A} (l : list A) i :
  ~ (0 <= i < Z.of_nat (length l)) -> index l i = Panic outOfRange.
Proof.
  intros Hi. unfold index. destruct (Z.ltb_spec i 0); [done|].
  rewrite lookup_ge_None_2 by lia. done.
Qed.

(** X3: on a board of the array's dimensions, [getCell] and [isEmpty]
    return for every point in [0, 64), and panic with an index out of range
    for every other point. *)
Theorem getCell_panics_off_board (b : list (list cell)) (p : Z) :
  wfBoard b ->
  (0 <= p < BOARD_SIZE * BOARD_SIZE ->
   exists c, getCell b p = Ok c /\ cellAt b (point_x p) (point_y p) = Ok c /\
             isEmpty b p = Ok (bool_decide (piece c = NONE))) /\
  (~ (0 <= p < BOARD_SIZE * BOARD_SIZE) ->
   getCell b p = Panic outOfRange /\ isEmpty b p = Panic outOfRange).
Proof.
  intros Hwf. split.
  - intros Hp. destruct (point_decompose p Hp) as (Hx & Hy & Heq).
    destruct (cellAt_wf b _ _ Hwf Hx Hy) as (c & Hc & _).
    assert (Hg : getCell b p = Ok c).
    { rewrite Heq, getCell_cellAt by done. exact Hc. }
    exists c. unfold isEmpty. rewrite Hg. done.
  - intros Hp. unfold isEmpty.
    assert (getCell b p = Panic outOfRange) as ->; [|done].
    unfold getCell.
    destruct (decide (0 <= point_x p < 8)) as [Hx | Hx].
    + destruct (wfBoard_lookup b (point_x p) 0 Hwf Hx ltac:(lia)) as (row & _ & Hrow & _ & Hlen).
      assert (Hi : index b (point_x p) = Ok row) by (apply index_Ok; split; [lia | done]).
      rewrite Hi. cbn [mbind outcome_bind]. apply index_out. rewrite Hlen.
      intros Hy. apply Hp. unfold point_x, point_y, BOARD_SIZE in *.
      pose proof (Z.quot_rem' p 8). lia.
    + rewrite index_out; [done|]. destruct Hwf as [-> _]. unfold BOARD_SIZE. lia.
Qed.

(** X3 at the point 64 of the board without pieces. *)
Lemma getCell_panics_off_board_witness :
  getCell emptyCells 64 = Panic outOfRange /\ isEmpty emptyCells 64 = Panic outOfRange.
Proof.
  apply (proj2 (getCell_panics_off_board emptyCells 64 ltac:(by_compute))).
  unfold BOARD_SIZE. lia.
Defined.

(** ** Pawn and knight coverage *)

Lemma putValid_add s x y dx dy c :
  0 <= x < 8 -> 0 <= y < 8 -> -2 <= dx <= 2 -> -2 <= dy <= 2 ->
  c ∈ putValid s (add (pointOf x y) dx dy) <->
  c ∈ s \/ (inBounds (x + dx) (y + dy) = true /\ c = pointOf (x + dx) (y + dy)).
Proof. intros. rewrite putValid_spec, add_pointOf by done. done. Qed.

Lemma pawnCoverage_spec x y c :
  0 <= x < 8 -> 0 <= y < 8 ->
  c ∈ pawnCoverage (pointOf x y) <-> stepsTo pawnOffsets x y c.
Proof.
  intros Hx Hy. unfold pawnCoverage, stepsTo, pawnOffsets.
  rewrite !putValid_add by lia. rewrite elem_of_empty. split.
  - intros [[[] | H] | H]; [exists (1, 1) | exists (1, -1)];
      (split; [set_solver | exact H]).
  - intros ([dx dy] & Hd & H). cbn [fst snd] in H.
    rewrite !elem_of_cons, elem_of_nil in Hd.
    destruct Hd as [[= -> ->] | [[= -> ->] | []]]; tauto.
Qed.

Lemma knightCoverage_spec x y c :
  0 <= x < 8 -> 0 <= y < 8 ->
  c ∈ knightCoverage (pointOf x y) <-> stepsTo knightOffsets x y c.
Proof.
  intros Hx Hy. unfold knightCoverage, stepsTo, knightOffsets.
  rewrite !putValid_add by lia. rewrite elem_of_empty. split.
  - intros [[[[[[[[[] | H] | H] | H] | H] | H] | H] | H] | H];
      [exists (1, 2) | exists (2, 1) | exists (-1, 2) | exists (-2, 1)
       | exists (1, -2) | exists (2, -1) | exists (-1, -2) | exists (-2, -1)];
      (split; [set_solver | exact H]).
  - intros ([dx dy] & Hd & H). cbn [fst snd] in H.
    rewrite !elem_of_cons, elem_of_nil in Hd.
    destruct Hd as [[= -> ->] | [[= -> ->] | [[= -> ->] | [[= -> ->] | [[= -> ->]
                   | [[= -> ->] | [[= -> ->] | [[= -> ->] | []]]]]]]]]; tauto.
Qed.

(** X4: a pawn covers exactly the cells of the next row that are one
    column to either side and on the board; a pawn on the last row covers
    nothing. *)
Theorem pawn_covers_next_row_diagonals (p c : Z) :
  0 <= p < BOARD_SIZE * BOARD_SIZE ->
  (c ∈ pawnCoverage p <->
   0 <= c < BOARD_SIZE * BOARD_SIZE /\ point_x c = point_x p + 1 /\
   (point_y c = point_y p + 1 \/ point_y c = point_y p - 1)) /\
  (point_x p = BOARD_SIZE - 1 -> pawnCoverage p = ∅).
Proof.
  intros Hp. destruct (point_decompose p Hp) as (Hx & Hy & Heq).
  assert (Hspec : forall c, c ∈ pawnCoverage p <->
            0 <= c < BOARD_SIZE * BOARD_SIZE /\ point_x c = point_x p + 1 /\
            (point_y c = point_y p + 1 \/ point_y c = point_y p - 1)).
  { clear c. intros c. rewrite Heq at 1. rewrite pawnCoverage_spec by done. split.
    - intros ([dx dy] & Hd & [Hnx Hny]%inBounds_iff & ->). cbn [fst snd] in *.
      destruct (point_xy _ _ Hnx Hny) as [-> ->].
      split; [by apply pointOf_range|].
      unfold pawnOffsets in Hd. rewrite !elem_of_cons, elem_of_nil in Hd.
      destruct Hd as [[= -> ->] | [[= -> ->] | []]]; lia.
    - intros (Hc & Hcx & Hcy). destruct (point_decompose c Hc) as (Hx' & Hy' & Heq').
      destruct Hcy as [Hcy | Hcy]; [exists (1, 1) | exists (1, -1)];
        (split; [unfold pawnOffsets; set_solver|]); cbn [fst snd];
        (split; [apply inBounds_iff; lia|]); rewrite Heq'; f_equal; lia. }
  split; [apply Hspec|].
  intros Hlast. apply set_eq. intros c'. rewrite Hspec, elem_of_empty.
  split; [|done]. intros (Hc & Hcx & _).
  destruct (point_decompose c' Hc) as (Hx' & _). unfold BOARD_SIZE in *. lia.
Qed.

(** X4 at a pawn on the point 0 and the cell 9. *)
Lemma pawn_covers_next_row_diagonals_witness :
  (9 ∈ pawnCoverage 0 <->
   0 <= 9 < BOARD_SIZE * BOARD_SIZE /\ point_x 9 = point_x 0 + 1 /\
   (point_y 9 = point_y 0 + 1 \/ point_y 9 = point_y 0 - 1)) /\
  (point_x 0 = BOARD_SIZE - 1 -> pawnCoverage 0 = ∅).
Proof. apply (pawn_covers_next_row_diagonals 0 9). unfold BOARD_SIZE. lia. Defined.

(** X5: a knight covers exactly the cells of the board at distance (1, 2)
    or (2, 1), and knight coverage is symmetric: a knight on a covered cell
    covers the cell it came from. *)
Theorem knight_coverage_symmetric (p c : Z) :
  0 <= p < BOARD_SIZE * BOARD_SIZE ->
  (c ∈ knightCoverage p <->
   0 <= c < BOARD_SIZE * BOARD_SIZE /\
   ((Z.abs (point_x c - point_x p) = 1 /\ Z.abs (point_y c - point_y p) = 2) \/
    (Z.abs (point_x c - point_x p) = 2 /\ Z.abs (point_y c - point_y p) = 1))) /\
  (c ∈ knightCoverage p -> p ∈ knightCoverage c).
Proof.
  intros Hp.
  assert (Hspec : forall p c, 0 <= p < BOARD_SIZE * BOARD_SIZE ->
            (c ∈ knightCoverage p <->
             0 <= c < BOARD_SIZE * BOARD_SIZE /\
             ((Z.abs (point_x c - point_x p) = 1 /\ Z.abs (point_y c - point_y p) = 2) \/
              (Z.abs (point_x c - point_x p) = 2 /\ Z.abs (point_y c - point_y p) = 1)))).
  { clear p c Hp. intros p c Hp. destruct (point_decompose p Hp) as (Hx & Hy & Heq).
    rewrite Heq at 1. rewrite knightCoverage_spec by done. split.
    - intros ([dx dy] & Hd & [Hnx Hny]%inBounds_iff & ->). cbn [fst snd] in *.
      destruct (point_xy _ _ Hnx Hny) as [-> ->].
      split; [by apply pointOf_range|].
      unfold knightOffsets in Hd. rewrite !elem_of_cons, elem_of_nil in Hd.
      destruct Hd as [[= -> ->] | [[= -> ->] | [[= -> ->] | [[= -> ->] | [[= -> ->]
                     | [[= -> ->] | [[= -> ->] | [[= -> ->] | []]]]]]]]]; lia.
    - intros (Hc & Hd). destruct (point_decompose c Hc) as (Hx' & Hy' & Heq').
      exists (point_x c - point_x p, point_y c - point_y p). cbn [fst snd].
      replace (point_x p + (point_x c - point_x p)) with (point_x c) by lia.
      replace (point_y p + (point_y c - point_y p)) with (point_y c) by lia.
      split; [|split; [by apply inBounds_iff | done]].
      unfold knightOffsets. rewrite !elem_of_cons, elem_of_nil.
      assert (Hcase :
        (point_x c - point_x p = 1 /\ point_y c - point_y p = 2) \/
        (point_x c - point_x p = 2 /\ point_y c - point_y p = 1) \/
        (point_x c - point_x p = -1 /\ point_y c - point_y p = 2) \/
        (point_x c - point_x p = -2 /\ point_y c - point_y p = 1) \/
        (point_x c - point_x p = 1 /\ point_y c - point_y p = -2) \/
        (point_x c - point_x p = 2 /\ point_y c - point_y p = -1) \/
        (point_x c - point_x p = -1 /\ point_y c - point_y p = -2) \/
        (point_x c - point_x p = -2 /\ point_y c - point_y p = -1)) by lia.
      destruct Hcase as [[-> ->] | [[-> ->] | [[-> ->] | [[-> ->] | [[-> ->]
                        | [[-> ->] | [[-> ->] | [-> ->]]]]]]]]; tauto. }
  split; [by apply Hspec|].
  intros Hc. apply (Hspec p c Hp) in Hc as (Hc & Hd).
  apply (Hspec c p Hc). split; [done|]. lia.
Qed.

(** X5 at a knight on the point 0 and the cell 10. *)
Lemma knight_coverage_symmetric_witness :
  (10 ∈ knightCoverage 0 <->
   0 <= 10 < BOARD_SIZE * BOARD_SIZE /\
   ((Z.abs (point_x 10 - point_x 0) = 1 /\ Z.abs (point_y 10 - point_y 0) = 2) \/
    (Z.abs (point_x 10 - point_x 0) = 2 /\ Z.abs (point_y 10 - point_y 0) = 1))) /\
  (10 ∈ knightCoverage 0 -> 0 ∈ knightCoverage 10).
Proof. apply (knight_coverage_symmetric 0 10). unfold BOARD_SIZE. lia. Defined.

(** ** Coverage of any piece *)

Lemma rayReaches_back b x0 y0 dx dy c :
  0 <= x0 < 8 -> 0 <= y0 < 8 -> rayReaches b x0 y0 dx dy c ->
  exists x' y', 0 <= x' < 8 /\ 0 <= y' < 8 /\ c = pointOf x' y' /\
                rayReaches b x' y' (- dx) (- dy) (pointOf x0 y0).
Proof.
  intros Hx Hy (k & Hk & [Hnx Hny]%inBounds_iff & -> & Hall).
  exists (x0 + k * dx), (y0 + k * dy). split; [done|]. split; [done|]. split; [done|].
  exists k. split; [done|]. split; [apply inBounds_iff; lia|].
  split; [f_equal; lia|].
  intros j Hj. replace (x0 + k * dx + j * - dx) with (x0 + (k - j) * dx) by lia.
  replace (y0 + k * dy + j * - dy) with (y0 + (k - j) * dy) by lia.
  apply Hall. lia.
Qed.

Lemma reachedAlong_back dirs b x0 y0 c :
  (forall d, d ∈ dirs -> (- d.1, - d.2) ∈ dirs) ->
  0 <= x0 < 8 -> 0 <= y0 < 8 -> reachedAlong dirs b x0 y0 c ->
  exists x' y', 0 <= x' < 8 /\ 0 <= y' < 8 /\ c = pointOf x' y' /\
                reachedAlong dirs b x' y' (pointOf x0 y0).
Proof.
  intros Hneg Hx Hy (d & Hd & Hr).
  destruct (rayReaches_back _ _ _ _ _ _ Hx Hy Hr) as (x' & y' & Hx' & Hy' & -> & Hb).
  exists x', y'. split; [done|]. split; [done|]. split; [done|].
  exists (- d.1, - d.2). split; [by apply Hneg | done].
Qed.

Lemma bishopDirs_neg d : d ∈ bishopDirs -> (- d.1, - d.2) ∈ bishopDirs.
Proof.
  unfold bishopDirs. rewrite !elem_of_cons, !elem_of_nil.
  intros [-> | [-> | [-> | [-> | []]]]]; cbn; tauto.
Qed.

Lemma rookDirs_neg d : d ∈ rookDirs -> (- d.1, - d.2) ∈ rookDirs.
Proof.
  unfold rookDirs. rewrite !elem_of_cons, !elem_of_nil.
  intros [-> | [-> | [-> | [-> | []]]]]; cbn; tauto.
Qed.

Lemma rayReaches_not_origin b x0 y0 dx dy :
  0 <= y0 < 8 -> unitDir dx dy -> ~ rayReaches b x0 y0 dx dy (pointOf x0 y0).
Proof.
  intros Hy (Hdx & Hdy & Hnz) (k & Hk & [Hnx Hny]%inBounds_iff & Heq & _).
  apply pointOf_inj in Heq as [? ?]; [|done..]. nia.
Qed.

Lemma reachedAlong_not_origin dirs b x0 y0 :
  (forall d, d ∈ dirs -> unitDir d.1 d.2) ->
  0 <= y0 < 8 -> ~ reachedAlong dirs b x0 y0 (pointOf x0 y0).
Proof. intros Hu Hy (d & Hd & Hr). by eapply rayReaches_not_origin; [| apply Hu |]. Qed.

Lemma stepsTo_not_origin offsets x y :
  0 <= y < 8 -> (forall d, d ∈ offsets -> d.1 <> 0) -> ~ stepsTo offsets x y (pointOf x y).
Proof.
  intros Hy Hnz (d & Hd & [Hnx Hny]%inBounds_iff & Heq).
  apply pointOf_inj in Heq as [? ?]; [|done..]. apply (Hnz d Hd). lia.
Qed.

Lemma getCoverage_unknown b p pc :
  ~ (PAWN <= pc <= QUEEN) -> getCoverage b p pc = Err (unknownCoverageMsg pc).
Proof.
  unfold getCoverage, PAWN, KNIGHT, BISHOP, ROOK, QUEEN. intros H.
  repeat case_bool_decide; try lia. reflexivity.
Qed.

Lemma getCoverage_not_origin b x y pc s :
  wfBoard b -> 0 <= x < 8 -> 0 <= y < 8 ->
  getCoverage b (pointOf x y) pc = Ok s -> pointOf x y ∉ s.
Proof.
  intros Hwf Hx Hy. unfold getCoverage.
  destruct (bishopCoverage_spec b x y Hwf Hx Hy) as (bs & Hb & Hbs).
  destruct (rookCoverage_spec b x y Hwf Hx Hy) as (rs & Hr & Hrs).
  assert (Hnb : pointOf x y ∉ bs).
  { rewrite Hbs. apply reachedAlong_not_origin; [apply unitDir_bishop | done]. }
  assert (Hnr : pointOf x y ∉ rs).
  { rewrite Hrs. apply reachedAlong_not_origin; [apply unitDir_rook | done]. }
  repeat case_bool_decide; try discriminate.
  - intros [= <-]. rewrite pawnCoverage_spec by done. apply stepsTo_not_origin; [done|].
    intros d. unfold pawnOffsets. rewrite !elem_of_cons, elem_of_nil.
    intros [-> | [-> | []]]; cbn; lia.
  - intros [= <-]. rewrite knightCoverage_spec by done. apply stepsTo_not_origin; [done|].
    intros d. unfold knightOffsets. rewrite !elem_of_cons, elem_of_nil.
    intros [-> | [-> | [-> | [-> | [-> | [-> | [-> | [-> | []]]]]]]]]; cbn; lia.
  - rewrite Hb. by intros [= <-].
  - rewrite Hr. by intros [= <-].
  - rewrite (queenCoverage_union b _ bs rs Hb Hr). intros [= <-]. set_solver.
Qed.

(** X6: for a cell of the board, [getCoverage] returns for each of the
    five pieces a set of cells of the board that never holds the cell of the
    piece itself; for [NONE] and every other value it returns (without a
    panic) the error whose text ends in the decimal digits of the value. *)
Theorem getCoverage_on_board_or_error (b : list (list cell)) (p pc : Z) :
  wfBoard b -> 0 <= p < BOARD_SIZE * BOARD_SIZE ->
  (PAWN <= pc <= QUEEN ->
   exists s, getCoverage b p pc = Ok s /\
             forall c, c ∈ s -> 0 <= c < BOARD_SIZE * BOARD_SIZE /\ c <> p) /\
  (~ (PAWN <= pc <= QUEEN) -> getCoverage b p pc = Err (unknownCoverageMsg pc)).
Proof.
  intros Hwf Hp. split; [|apply getCoverage_unknown].
  intros Hpc. destruct (point_decompose p Hp) as (Hx & Hy & Heq).
  destruct (getCoverage_known b (point_x p) (point_y p) pc Hwf Hx Hy) as (s & Hs & Hrange).
  { unfold knownPiece, PAWN, QUEEN in *. lia. }
  { unfold NONE, PAWN in *. lia. }
  exists s. split; [by rewrite Heq|].
  intros c Hc. split; [by apply Hrange|].
  intros ->. apply (getCoverage_not_origin b _ _ pc s Hwf Hx Hy Hs). by rewrite <- Heq.
Qed.

(** X6 at the queen of the board with a queen and a pawn, and at [NONE] and
    the piece value 6 on the same cell. *)
Lemma getCoverage_on_board_or_error_witness :
  (exists s, getCoverage queenAndPawn 27 QUEEN = Ok s /\
             forall c, c ∈ s -> 0 <= c < BOARD_SIZE * BOARD_SIZE /\ c <> 27) /\
  getCoverage queenAndPawn 27 NONE = Err "attempted to get coverage for unknown piece: 0" /\
  getCoverage queenAndPawn 27 6 = Err "attempted to get coverage for unknown piece: 6".
Proof.
  split; [|split].
  - apply (proj1 (getCoverage_on_board_or_error queenAndPawn 27 QUEEN
                    ltac:(by_compute) ltac:(unfold BOARD_SIZE; lia))).
    unfold PAWN, QUEEN; lia.
  - apply (proj2 (getCoverage_on_board_or_error queenAndPawn 27 NONE
                    ltac:(by_compute) ltac:(unfold BOARD_SIZE; lia))).
    unfold NONE, PAWN, QUEEN; lia.
  - apply (proj2 (getCoverage_on_board_or_error queenAndPawn 27 6
                    ltac:(by_compute) ltac:(unfold BOARD_SIZE; lia))).
    unfold PAWN, QUEEN; lia.
Defined.

(** X7: on the same board, if a bishop, rook or queen on [p] covers [c],
    then the same kind of piece on [c] covers [p]. *)
Theorem sliders_cover_each_other (b : list (list cell)) (p pc : Z) :
  wfBoard b -> 0 <= p < BOARD_SIZE * BOARD_SIZE -> pc ∈ sliders ->
  exists s, getCoverage b p pc = Ok s /\
            forall c, c ∈ s -> exists s', getCoverage b c pc = Ok s' /\ p ∈ s'.
Proof.
  intros Hwf Hp Hpc. destruct (point_decompose p Hp) as (Hx & Hy & Heq).
  destruct (bishopCoverage_spec b _ _ Hwf Hx Hy) as (bs & Hb & Hbs).
  destruct (rookCoverage_spec b _ _ Hwf Hx Hy) as (rs & Hr & Hrs).
  rewrite <- Heq in Hb, Hr.
  assert (Hbback : forall c, c ∈ bs ->
            exists bs' rs', bishopCoverage b c = Ok bs' /\ rookCoverage b c = Ok rs' /\ p ∈ bs').
  { intros c Hc. apply Hbs in Hc.
    destruct (reachedAlong_back _ _ _ _ _ bishopDirs_neg Hx Hy Hc)
      as (x' & y' & Hx' & Hy' & -> & Hback).
    destruct (bishopCoverage_spec b _ _ Hwf Hx' Hy') as (bs' & Hb' & Hbs').
    destruct (rookCoverage_spec b _ _ Hwf Hx' Hy') as (rs' & Hr' & _).
    exists bs', rs'. split; [done|]. split; [done|]. rewrite Heq. by apply Hbs'. }
  assert (Hrback : forall c, c ∈ rs ->
            exists bs' rs', bishopCoverage b c = Ok bs' /\ rookCoverage b c = Ok rs' /\ p ∈ rs').
  { intros c Hc. apply Hrs in Hc.
    destruct (reachedAlong_back _ _ _ _ _ rookDirs_neg Hx Hy Hc)
      as (x' & y' & Hx' & Hy' & -> & Hback).
    destruct (bishopCoverage_spec b _ _ Hwf Hx' Hy') as (bs' & Hb' & _).
    destruct (rookCoverage_spec b _ _ Hwf Hx' Hy') as (rs' & Hr' & Hrs').
    exists bs', rs'. split; [done|]. split; [done|]. rewrite Heq. by apply Hrs'. }
  unfold sliders in Hpc. rewrite !elem_of_cons, elem_of_nil in Hpc.
  destruct Hpc as [-> | [-> | [-> | []]]]; unfold getCoverage; cbn.
  - exists bs. split; [done|]. intros c Hc.
    destruct (Hbback c Hc) as (bs' & rs' & -> & _ & Hin). eauto.
  - exists rs. split; [done|]. intros c Hc.
    destruct (Hrback c Hc) as (bs' & rs' & _ & -> & Hin). eauto.
  - exists (bs ∪ rs). split; [by apply queenCoverage_union|].
    intros c [Hc | Hc]%elem_of_union.
    + destruct (Hbback c Hc) as (bs' & rs' & Hb' & Hr' & Hin).
      exists (bs' ∪ rs'). split; [by apply queenCoverage_union | set_solver].
    + destruct (Hrback c Hc) as (bs' & rs' & Hb' & Hr' & Hin).
      exists (bs' ∪ rs'). split; [by apply queenCoverage_union | set_solver].
Qed.

(** X7 at the queen of the board with a queen and a pawn. *)
Lemma sliders_cover_each_other_witness :
  exists s, getCoverage queenAndPawn 27 QUEEN = Ok s /\
            forall c, c ∈ s -> exists s', getCoverage queenAndPawn c QUEEN = Ok s' /\ 27 ∈ s'.
Proof.
  apply (sliders_cover_each_other queenAndPawn 27 QUEEN);
    [by_compute | unfold BOARD_SIZE; lia | unfold sliders; set_solver].
Defined.

(** ** The support graph of a settled board *)

Lemma settled_graph b p :
  settled b -> 0 <= p < 64 ->
  exists c, getCell b p = Ok c /\
    (piece c = NONE -> supports c = ∅) /\
    (piece c <> NONE -> getCoverage b p (piece c) = Ok (supports c)) /\
    (forall q, q ∈ supportedBy c <->
               0 <= q < 64 /\ exists cq, getCell b q = Ok cq /\ p ∈ supports cq).
Proof.
  intros Hs Hp. pose proof Hs as (Hwf & Hv & _).
  destruct (point_decompose p) as (Hx & Hy & Heq); [unfold BOARD_SIZE; lia|].
  pose proof (settled_cells b _ _ Hs Hx Hy) as Hc.
  exists (settledCell b (point_x p) (point_y p)).
  split; [by apply getCell_settled|]. cbn [settledCell piece supports supportedBy].
  split; [|split].
  - intros Hn. by apply (coverageAt_none b _ _ _ Hc).
  - intros Hn.
    destruct (getCoverage_known b (point_x p) (point_y p) (pieceOf b (point_x p) (point_y p))
                Hwf Hx Hy) as (s & Hcov & _); [by apply knownPiece_pieceOf | done |].
    rewrite Heq at 1. rewrite Hcov. f_equal. symmetry.
    apply (coverageAt_piece b _ _ _ _ Hc); [done|].
    by rewrite newPointUnsafe_pointOf.
  - intros q. rewrite elem_of_supportersAmong, <- Heq. split.
    + intros ([x' y'] & [Hx' Hy']%elem_of_cellIndices & -> & Hin). cbn [fst snd] in *.
      split; [by apply pointOf_range|].
      exists (settledCell b x' y'). rewrite getCell_cellAt by done.
      split; [by apply settled_cells | done].
    + intros (Hq & cq & Hcq & Hin).
      destruct (point_decompose q) as (Hx' & Hy' & Heq'); [unfold BOARD_SIZE; lia|].
      rewrite getCell_settled in Hcq by done. injection Hcq as <-.
      exists (point_x q, point_y q). split; [by apply elem_of_cellIndices|]. done.
Qed.

(** X8: on a board over the closed piece set [settleSupportGraph] succeeds
    and keeps the occupancy; afterwards an empty cell supports nothing, an
    occupied cell supports exactly the coverage of its piece, and
    [supportedBy] is the converse of [supports]: [q] is in [supportedBy] of
    the cell at [p] exactly when [p] is in [supports] of the cell at [q]. *)
Theorem settle_builds_symmetric_support_graph (b : list (list cell)) :
  wfBoard b -> validPieces b ->
  exists b1, settleSupportGraph b = Ok b1 /\ wfBoard b1 /\ occupancy b1 = occupancy b /\
    forall p, 0 <= p < BOARD_SIZE * BOARD_SIZE ->
      exists c, getCell b1 p = Ok c /\
        (piece c = NONE -> supports c = ∅) /\
        (piece c <> NONE -> getCoverage b1 p (piece c) = Ok (supports c)) /\
        (forall q, q ∈ supportedBy c <->
                   0 <= q < BOARD_SIZE * BOARD_SIZE /\
                   exists cq, getCell b1 q = Ok cq /\ p ∈ supports cq).
Proof.
  intros Hwf Hv. destruct (settleSupportGraph_spec b Hwf Hv) as (b1 & Hs & Hwf1 & _).
  destruct (settleSupportGraph_settled b b1 Hwf Hv Hs) as [Hsettled Hsame].
  exists b1. split; [done|]. split; [done|]. split; [by apply occupancy_ext|].
  intros p Hp. by apply settled_graph.
Qed.

(** X8 at the three pawns. *)
Lemma settle_builds_symmetric_support_graph_witness :
  exists b1, settleSupportGraph threePawns = Ok b1 /\ wfBoard b1 /\
    occupancy b1 = occupancy threePawns /\
    forall p, 0 <= p < BOARD_SIZE * BOARD_SIZE ->
      exists c, getCell b1 p = Ok c /\
        (piece c = NONE -> supports c = ∅) /\
        (piece c <> NONE -> getCoverage b1 p (piece c) = Ok (supports c)) /\
        (forall q, q ∈ supportedBy c <->
                   0 <= q < BOARD_SIZE * BOARD_SIZE /\
                   exists cq, getCell b1 q = Ok cq /\ p ∈ supports cq).
Proof. apply (settle_builds_symmetric_support_graph threePawns); by_compute. Defined.

(** ** [settleSupportGraph] on any board *)

Lemma occupancy_alter b f i j :
  (forall c, piece (f c) = piece c) ->
  occupancy (alter (alter f j) i b) = occupancy b.
Proof.
  intros Hf. unfold occupancy.
  rewrite (list_fmap_alter (map piece) (alter f j) id).
  - by apply list_alter_id.
  - apply Forall_forall. intros row _. cbn.
    rewrite (list_fmap_alter piece f id).
    + by apply list_alter_id.
    + apply Forall_forall. intros c _. apply Hf.
Qed.

Lemma pieceOf_occupancy b b' x y : occupancy b = occupancy b' -> pieceOf b x y = pieceOf b' x y.
Proof. intros H. apply pieceOf_samePieces. by apply samePieces_occupancy. Qed.

Lemma settleCell_known b x y :
  wfBoard b -> 0 <= x < 8 -> 0 <= y < 8 -> knownPiece (pieceOf b x y) ->
  exists b', settleCell b (x, y) = Ok b' /\ wfBoard b' /\ occupancy b' = occupancy b.
Proof.
  intros Hwf Hx Hy Hk. destruct (cellAt_wf b x y Hwf Hx Hy) as (c & Hc & Hp).
  assert (Hpc : pieceOf b x y = piece c) by (unfold pieceOf; by rewrite Hp).
  unfold settleCell. rewrite Hc. cbn [mbind outcome_bind].
  case_bool_decide as Hne; [|by exists b].
  destruct (getCoverage_known b x y (piece c) Hwf Hx Hy) as (cov & Hcov & Hrange);
    [by rewrite <- Hpc | done |].
  rewrite newPointUnsafe_pointOf, Hcov by done. cbn [wrapErr mbind outcome_bind].
  destruct (foldM_invariant
              (fun b0 coveredPoint => updCell b0 coveredPoint (fun c0 => addSupport c0 (pointOf x y)))
              (fun _ b0 => wfBoard b0 /\ occupancy b0 = occupancy b) (elements cov))
    with (a := setSupports b x y cov) as (b' & Hfold & Hwf' & Hocc).
  - intros done q b0 [Hwf0 Hocc0] Hq. apply elem_of_elements, Hrange in Hq.
    destruct (point_decompose q) as (Hqx & Hqy & Heq); [unfold BOARD_SIZE; lia|].
    rewrite Heq, updCell_wf by done. eexists. split; [done|].
    split; [by apply wfBoard_alter|]. by rewrite occupancy_alter.
  - split; [by apply wfBoard_alter|]. unfold setSupports. by rewrite occupancy_alter.
  - by exists b'.
Qed.

Lemma settleCell_unknown b x y :
  wfBoard b -> 0 <= x < 8 -> 0 <= y < 8 -> ~ knownPiece (pieceOf b x y) ->
  settleCell b (x, y) = Err (settleErrMsg (pieceOf b x y)).
Proof.
  intros Hwf Hx Hy Hk. destruct (cellAt_wf b x y Hwf Hx Hy) as (c & Hc & Hp).
  assert (Hpc : pieceOf b x y = piece c) by (unfold pieceOf; by rewrite Hp).
  unfold settleCell. rewrite Hc. cbn [mbind outcome_bind]. rewrite Hpc in Hk.
  rewrite bool_decide_eq_true_2 by (intros E; apply Hk; rewrite E; unfold knownPiece, NONE; lia).
  rewrite getCoverage_unknown; [by rewrite Hpc|].
  unfold knownPiece, PAWN, QUEEN in *. lia.
Qed.

Lemma firstUnknown_known p ps : knownPiece p -> firstUnknown (p :: ps) = firstUnknown ps.
Proof. intros Hk. unfold firstUnknown. by rewrite filter_cons_False by tauto. Qed.

Lemma firstUnknown_unknown p ps : ~ knownPiece p -> firstUnknown (p :: ps) = Some p.
Proof. intros Hk. unfold firstUnknown. by rewrite filter_cons_True. Qed.

Lemma firstUnknown_exists ps :
  ~ Forall knownPiece ps -> exists pc, firstUnknown ps = Some pc /\ ~ knownPiece pc.
Proof.
  induction ps as [|p ps IH]; intros Hn; [by destruct Hn|].
  destruct (decide (knownPiece p)) as [Hk | Hk].
  - rewrite firstUnknown_known by done. apply IH. intros Hall. apply Hn. by constructor.
  - exists p. by rewrite firstUnknown_unknown.
Qed.

Lemma firstUnknown_valid ps : Forall knownPiece ps -> firstUnknown ps = None.
Proof.
  induction 1 as [|p ps Hk _ IH]; [done|]. by rewrite firstUnknown_known.
Qed.

Lemma settle_cells_unknown l :
  forall b pc, wfBoard b -> Forall (fun xy => 0 <= xy.1 < 8 /\ 0 <= xy.2 < 8) l ->
    firstUnknown (map (fun xy => pieceOf b xy.1 xy.2) l) = Some pc ->
    foldM settleCell b l = Err (settleErrMsg pc).
Proof.
  induction l as [|[x y] l IH]; intros b pc Hwf Hr He; [discriminate He|].
  apply Forall_cons in Hr as [[Hx Hy] Hr]. cbn [fst snd map] in *. cbn [foldM].
  destruct (decide (knownPiece (pieceOf b x y))) as [Hk | Hk].
  - destruct (settleCell_known b x y Hwf Hx Hy Hk) as (b' & -> & Hwf' & Hocc).
    cbn [mbind outcome_bind]. apply IH; [done | done |].
    rewrite firstUnknown_known in He by done. rewrite <- He. f_equal.
    apply map_ext. intros [x' y']. by apply pieceOf_occupancy.
  - rewrite firstUnknown_unknown in He by done. injection He as <-.
    by rewrite settleCell_unknown.
Qed.

Lemma pieces_cellIndices b :
  wfBoard b -> map (fun xy => pieceOf b xy.1 xy.2) cellIndices = concat (occupancy b).
Proof. intros Hwf. board_cells b Hwf. reflexivity. Qed.

Lemma occupancy_clear b : occupancy (map (map clearSupport) b) = occupancy b.
Proof.
  unfold occupancy. rewrite map_map. apply map_ext. intros row.
  rewrite map_map. by apply map_ext.
Qed.

Lemma settleSupportGraph_first_unknown b pc :
  wfBoard b -> firstUnknown (concat (occupancy b)) = Some pc ->
  settleSupportGraph b = Err (settleErrMsg pc).
Proof.
  intros Hwf Hpc. unfold settleSupportGraph. apply settle_cells_unknown.
  - by apply wfBoard_map.
  - apply Forall_forall. intros xy. apply elem_of_cellIndices_bounds.
  - rewrite pieces_cellIndices by by apply wfBoard_map. by rewrite occupancy_clear.
Qed.

Lemma validPieces_concat b : validPieces b <-> Forall knownPiece (concat (occupancy b)).
Proof.
  rewrite Forall_concat. unfold occupancy, validPieces. rewrite Forall_fmap.
  apply Forall_iff. intros row. cbn. by rewrite Forall_fmap.
Qed.

Lemma settleSupportGraph_unknown b :
  wfBoard b -> ~ validPieces b ->
  exists pc, firstUnknown (concat (occupancy b)) = Some pc /\
             settleSupportGraph b = Err (settleErrMsg pc).
Proof.
  intros Hwf Hv. rewrite validPieces_concat in Hv.
  destruct (firstUnknown_exists _ Hv) as (pc & Hpc & _).
  exists pc. split; [done|]. by apply settleSupportGraph_first_unknown.
Qed.

Lemma settle_same_occupancy b b' :
  wfBoard b -> wfBoard b' -> occupancy b = occupancy b' ->
  settleSupportGraph b = settleSupportGraph b'.
Proof.
  intros Hwf Hwf' Hocc. destruct (decide (validPieces b)) as [Hv | Hv].
  - assert (Hv' : validPieces b') by by apply (validPieces_occupancy b).
    destruct (settleSupportGraph_spec b Hwf Hv) as (b1 & -> & Hwf1 & Hc1).
    destruct (settleSupportGraph_spec b' Hwf' Hv') as (b1' & -> & Hwf1' & Hc1').
    f_equal. apply board_ext; [done | done |]. intros x y Hx Hy.
    rewrite Hc1, Hc1' by done. f_equal.
    apply settledCell_samePieces; [done | done | by apply samePieces_occupancy | done | done].
  - destruct (settleSupportGraph_unknown b Hwf Hv) as (pc & Hpc & ->).
    rewrite Hocc in Hpc. by rewrite (settleSupportGraph_first_unknown b' pc).
Qed.

(** X9: the result of [settleSupportGraph] depends on the occupancy only:
    boards with the same pieces settle to the same result whatever their
    support sets held, so settling a [copy] is settling the original; and
    settling is idempotent. *)
Theorem settle_depends_on_occupancy_only (b b' : list (list cell)) :
  wfBoard b -> wfBoard b' -> occupancy b = occupancy b' ->
  settleSupportGraph b = settleSupportGraph b' /\
  settleSupportGraph (Board_copy b) = settleSupportGraph b /\
  (forall b1, settleSupportGraph b = Ok b1 -> settleSupportGraph b1 = Ok b1).
Proof.
  intros Hwf Hwf' Hocc. split; [by apply settle_same_occupancy|]. split.
  - apply settle_same_occupancy; [by apply wfBoard_map | done | apply occupancy_copy].
  - intros b1 Hs. destruct (decide (validPieces b)) as [Hv | Hv].
    + by destruct (settleSupportGraph_settled b b1 Hwf Hv Hs) as [(_ & _ & Hfix) _].
    + destruct (settleSupportGraph_unknown b Hwf Hv) as (pc & _ & He).
      rewrite He in Hs. discriminate Hs.
Qed.

(** X9 at the three pawns and their copy. *)
Lemma settle_depends_on_occupancy_only_witness :
  settleSupportGraph (Board_copy threePawns) = settleSupportGraph threePawns /\
  settleSupportGraph (Board_copy (Board_copy threePawns)) =
    settleSupportGraph (Board_copy threePawns) /\
  (forall b1, settleSupportGraph (Board_copy threePawns) = Ok b1 -> settleSupportGraph b1 = Ok b1).
Proof.
  apply (settle_depends_on_occupancy_only (Board_copy threePawns) threePawns);
    [by_compute | by_compute | vm_compute; reflexivity].
Defined.

(** X10: [settleSupportGraph] succeeds exactly on the boards over the
    closed piece set; on a board holding any other piece value it returns
    (without a panic) the error of [getCoverage] for the first such value in
    row-major order, wrapped once. *)
Theorem settle_rejects_unknown_piece (b : list (list cell)) :
  wfBoard b ->
  (validPieces b ->
   exists b1, settleSupportGraph b = Ok b1 /\ wfBoard b1 /\ validPieces b1 /\
              occupancy b1 = occupancy b) /\
  (~ validPieces b ->
   exists pc, firstUnknown (concat (occupancy b)) = Some pc /\
              settleSupportGraph b = Err (settleErrMsg pc)).
Proof.
  intros Hwf. split; [|by apply settleSupportGraph_unknown].
  intros Hv. destruct (settleSupportGraph_spec b Hwf Hv) as (b1 & Hs & Hwf1 & _).
  destruct (settleSupportGraph_settled b b1 Hwf Hv Hs) as [(_ & Hv1 & _) Hsame].
  exists b1. split; [done|]. split; [done|]. split; [done|]. by apply occupancy_ext.
Qed.

(** X10 at the board holding the piece value 6. *)
Lemma settle_rejects_unknown_piece_witness :
  firstUnknown (concat (occupancy boardWithUnknownPiece)) = Some 6 /\
  settleSupportGraph boardWithUnknownPiece =
    Err "failed to get coverage of piece: attempted to get coverage for unknown piece: 6".
Proof.
  destruct (proj2 (settle_rejects_unknown_piece boardWithUnknownPiece ltac:(by_compute))
              ltac:(by_compute)) as (pc & Hpc & He).
  assert (pc = 6) as -> by (vm_compute in Hpc; congruence).
  split; [reflexivity | exact He].
Defined.

(** ** [RebuildBoard] on any compact state *)

Lemma rebuiltCells_pieces l :
  length l = Z.to_nat (BOARD_SIZE * BOARD_SIZE) ->
  wfBoard (rebuiltCells l) /\ concat (occupancy (rebuiltCells l)) = l.
Proof.
  intros H. change (Z.to_nat (BOARD_SIZE * BOARD_SIZE)) with 64%nat in H.
  do 64 (destruct l as [|? l]; [discriminate H|]; cbn [length] in H; apply Nat.succ_inj in H).
  destruct l; [|discriminate H]. clear H.
  split; [split; [reflexivity | repeat constructor] | reflexivity].
Qed.

Lemma RebuildBoard_unfold m :
  RebuildBoard m = wrapErr "failed to settle support graph"
                     (settleSupportGraph (rebuiltCells (board m))).
Proof. reflexivity. Qed.

Lemma RebuildBoard_settled m :
  wfMinimal m -> Forall knownPiece (board m) ->
  exists b, RebuildBoard m = Ok b /\ settled b /\ concat (occupancy b) = board m.
Proof.
  intros Hm Hk. destruct (rebuiltCells_pieces (board m) Hm) as [Hwf Hocc].
  rewrite RebuildBoard_unfold.
  assert (Hv : validPieces (rebuiltCells (board m))).
  { apply validPieces_concat. by rewrite Hocc. }
  destruct (settleSupportGraph_spec _ Hwf Hv) as (b1 & Hs & Hwf1 & _).
  destruct (settleSupportGraph_settled _ b1 Hwf Hv Hs) as [Hsettled Hsame].
  exists b1. rewrite Hs. split; [done|]. split; [done|].
  by rewrite (occupancy_ext b1 (rebuiltCells (board m))).
Qed.

Lemma RebuildBoard_unknown m :
  wfMinimal m -> ~ Forall knownPiece (board m) ->
  exists pc, firstUnknown (board m) = Some pc /\ RebuildBoard m = Err (rebuildErrMsg pc).
Proof.
  intros Hm Hk. destruct (rebuiltCells_pieces (board m) Hm) as [Hwf Hocc].
  destruct (firstUnknown_exists _ Hk) as (pc & Hpc & _). exists pc. split; [done|].
  rewrite RebuildBoard_unfold, (settleSupportGraph_first_unknown _ pc); [done | done |].
  by rewrite Hocc.
Qed.

(** X11: [RebuildBoard] of a compact state over the closed piece set
    returns a settled board whose occupancy, cell for cell, is the array of
    the compact state, so compacting that board gives the same array back;
    with any other piece value in the array it returns the error of
    [getCoverage] for the first such value of the array, wrapped twice. *)
Theorem rebuild_settles_or_rejects (m : MinimalBoard) :
  wfMinimal m ->
  (Forall knownPiece (board m) ->
   exists b, RebuildBoard m = Ok b /\ settled b /\ concat (occupancy b) = board m /\
             forall heur m', getMinimalBoard heur b = Ok m' -> board m' = board m) /\
  (~ Forall knownPiece (board m) ->
   exists pc, firstUnknown (board m) = Some pc /\ RebuildBoard m = Err (rebuildErrMsg pc)).
Proof.
  intros Hm. split; [|by apply RebuildBoard_unknown].
  intros Hk. destruct (RebuildBoard_settled m Hm Hk) as (b & Hb & Hs & Hocc).
  exists b. split; [done|]. split; [done|]. split; [done|].
  intros heur m' Hm'. rewrite (getMinimalBoard_board heur b m'); [done | | done].
  by destruct Hs as (? & _).
Qed.

(** X11 at the zero compact state, and at one holding the piece value 6. *)
Lemma rebuild_settles_or_rejects_witness :
  (exists b, RebuildBoard zeroMinimalBoard = Ok b /\ settled b /\
             concat (occupancy b) = board zeroMinimalBoard /\
             forall heur m', getMinimalBoard heur b = Ok m' -> board m' = board zeroMinimalBoard) /\
  firstUnknown (board (occupancyOf [(0, 6)])) = Some 6 /\
  RebuildBoard (occupancyOf [(0, 6)]) =
    Err "failed to settle support graph: failed to get coverage of piece: attempted to get coverage for unknown piece: 6".
Proof.
  split.
  - apply (proj1 (rebuild_settles_or_rejects zeroMinimalBoard ltac:(reflexivity))).
    by_compute.
  - destruct (proj2 (rebuild_settles_or_rejects (occupancyOf [(0, 6)]) ltac:(reflexivity))
                ltac:(by_compute)) as (pc & Hpc & He).
    assert (pc = 6) as -> by (vm_compute in Hpc; congruence).
    split; [reflexivity | exact He].
Defined.

(** ** The coverage level *)

Lemma filter_length_all {A} (P : A -> Prop) `{Hdec : !forall x, Decision (P x)} (l : list A) :
  (length (filter P l) <= length l)%nat /\
  (length (filter P l) = length l <-> Forall P l).
Proof.
  induction l as [|a l [IH1 IH2]]; [by split|].
  rewrite filter_cons. destruct (decide (P a)) as [Ha | Ha]; cbn [length].
  - split; [lia|]. rewrite Forall_cons, <- IH2. intuition lia.
  - split; [lia|]. rewrite Forall_cons. intuition lia.
Qed.

Lemma isSupported_nonempty c : isSupported c <-> supportedBy c <> ∅.
Proof.
  unfold isSupported. split.
  - intros H E. rewrite E, size_empty in H. lia.
  - intros Hne. destruct (decide (size (supportedBy c) = 0%nat)) as [E | E]; [|lia].
    apply size_empty_inv, leibniz_equiv in E. done.
Qed.

Lemma length_concat_occupancy (b : list (list cell)) :
  wfBoard b -> length (concat (occupancy b)) = Z.to_nat (BOARD_SIZE * BOARD_SIZE).
Proof. intros Hwf. board_cells b Hwf. reflexivity. Qed.

Lemma length_concat_wf (b : list (list cell)) : wfBoard b -> length (concat b) = 64%nat.
Proof. intros Hwf. rewrite concat_cells by done. by rewrite length_map. Qed.

Lemma GetCoverageLevel_range b : wfBoard b -> 0 <= GetCoverageLevel b <= 64.
Proof.
  intros Hwf. rewrite GetCoverageLevel_count.
  pose proof (proj1 (filter_length_all isSupported (concat b))) as H.
  rewrite length_concat_wf in H by done. lia.
Qed.

(** X12: the coverage level lies between 0 and 64; it is 64 exactly when
    every cell has a non-empty [supportedBy]; and on a settled board it is
    the number of cells covered by at least one piece. *)
Theorem coverage_level_counts_supported_cells (b : list (list cell)) :
  wfBoard b ->
  0 <= GetCoverageLevel b <= BOARD_SIZE * BOARD_SIZE /\
  (GetCoverageLevel b = BOARD_SIZE * BOARD_SIZE <->
   Forall (Forall (fun c => supportedBy c <> ∅)) b) /\
  (settled b -> GetCoverageLevel b = Z.of_nat (coverageCount b)).
Proof.
  intros Hwf. split; [by apply GetCoverageLevel_range|]. split; [|apply GetCoverageLevel_settled].
  rewrite GetCoverageLevel_count.
  pose proof (proj2 (filter_length_all isSupported (concat b))) as H.
  rewrite length_concat_wf in H by done.
  change (BOARD_SIZE * BOARD_SIZE) with (Z.of_nat 64). rewrite Nat2Z.inj_iff, H, Forall_concat.
  apply Forall_iff. intros row. apply Forall_iff. intros c. apply isSupported_nonempty.
Qed.

(** X12 at the rook behind the pawn. *)
Lemma coverage_level_counts_supported_cells_witness :
  0 <= GetCoverageLevel rookBehindPawn <= BOARD_SIZE * BOARD_SIZE /\
  (GetCoverageLevel rookBehindPawn = BOARD_SIZE * BOARD_SIZE <->
   Forall (Forall (fun c => supportedBy c <> ∅)) rookBehindPawn) /\
  (settled rookBehindPawn -> GetCoverageLevel rookBehindPawn = Z.of_nat (coverageCount rookBehindPawn)).
Proof. apply (coverage_level_counts_supported_cells rookBehindPawn). by_compute. Defined.

(** ** The fields of a compact state *)

Lemma pieceValue_range p : 0 <= pieceValue p <= 9.
Proof. unfold pieceValue. repeat case_bool_decide; lia. Qed.

Lemma row_values_range (row : list cell) :
  0 <= foldr (fun c a => pieceValue (piece c) + a) 0 row <= 9 * Z.of_nat (length row).
Proof.
  induction row as [|c row IH]; cbn [foldr length]; [lia|].
  pose proof (pieceValue_range (piece c)). lia.
Qed.

Lemma sumValues_range_concat (b : list (list cell)) :
  0 <= sumValues b <= 9 * Z.of_nat (length (concat b)).
Proof.
  unfold sumValues. induction b as [|row b IH]; cbn [foldr concat]; [cbn; lia|].
  rewrite foldr_values_acc, length_app. pose proof (row_values_range row). lia.
Qed.

Lemma sumValues_range b : wfBoard b -> 0 <= sumValues b <= 576.
Proof.
  intros Hwf. pose proof (sumValues_range_concat b) as H.
  rewrite length_concat_wf in H by done. lia.
Qed.

Lemma getMinimalBoard_Ok heur b m :
  getMinimalBoard heur b = Ok m ->
  heur b = Ok (Heuristic m) /\ Board_Score b = Ok (Score m) /\
  Coverage m = GetCoverageLevel b /\
  IsSolved m = bool_decide (GetCoverageLevel b = BOARD_SIZE * BOARD_SIZE).
Proof.
  unfold getMinimalBoard. intros Hm.
  destruct (heur b) as [hs| | |] eqn:Hh; try discriminate Hm. cbn [wrapErr mbind outcome_bind] in Hm.
  destruct (Board_Score b) as [sc| | |] eqn:Hs; try discriminate Hm.
  cbn [wrapErr mbind outcome_bind] in Hm. injection Hm as <-. done.
Qed.

(** X13: the compact state of a board holds its occupancy in row-major
    order (64 entries), the heuristic's value, the sum of the piece values as
    score (between 0 and 576), the coverage level (between 0 and 64), and is
    marked solved exactly when the coverage level is 64. *)
Theorem compact_state_fields (heur : list (list cell) -> outcome spec_float)
    (b : list (list cell)) (m : MinimalBoard) :
  wfBoard b -> getMinimalBoard heur b = Ok m ->
  wfMinimal m /\ board m = concat (occupancy b) /\ heur b = Ok (Heuristic m) /\
  Score m = sumValues b /\ 0 <= Score m <= 9 * (BOARD_SIZE * BOARD_SIZE) /\
  Coverage m = GetCoverageLevel b /\ 0 <= Coverage m <= BOARD_SIZE * BOARD_SIZE /\
  (IsSolved m = true <-> Coverage m = BOARD_SIZE * BOARD_SIZE).
Proof.
  intros Hwf Hm. pose proof (getMinimalBoard_board heur b m Hwf Hm) as Hb.
  destruct (getMinimalBoard_Ok heur b m Hm) as (Hh & Hs & Hc & Hsolved).
  assert (Hsum : Score m = sumValues b).
  { destruct (Board_Score_cases b) as [[_ E] | [_ E]]; rewrite E in Hs; congruence. }
  split.
  { unfold wfMinimal. rewrite Hb. by apply length_concat_occupancy. }
  split; [done|]. split; [done|]. split; [done|].
  split; [rewrite Hsum; pose proof (sumValues_range b Hwf); unfold BOARD_SIZE; lia|].
  split; [done|]. rewrite Hc.
  split; [by apply GetCoverageLevel_range|].
  rewrite Hsolved. apply bool_decide_eq_true.
Qed.

(** X13 at the board with a queen and a pawn. *)
Lemma compact_state_fields_witness :
  wfMinimal (compactOf queenAndPawn) /\
  board (compactOf queenAndPawn) = concat (occupancy queenAndPawn) /\
  heuristic queenAndPawn = Ok (Heuristic (compactOf queenAndPawn)) /\
  Score (compactOf queenAndPawn) = sumValues queenAndPawn /\
  0 <= Score (compactOf queenAndPawn) <= 9 * (BOARD_SIZE * BOARD_SIZE) /\
  Coverage (compactOf queenAndPawn) = GetCoverageLevel queenAndPawn /\
  0 <= Coverage (compactOf queenAndPawn) <= BOARD_SIZE * BOARD_SIZE /\
  (IsSolved (compactOf queenAndPawn) = true <->
   Coverage (compactOf queenAndPawn) = BOARD_SIZE * BOARD_SIZE).
Proof.
  apply (compact_state_fields heuristic queenAndPawn (compactOf queenAndPawn));
    [by_compute | vm_compute; reflexivity].
Defined.

(** ** The heuristic *)

Lemma heuristicChecked_table :
  forallb (fun coverage => forallb (heuristicChecked coverage) (seqZ 0 577)) (seqZ 0 65) = true.
Proof. vm_compute. reflexivity. Qed.

Lemma heuristicChecked_all coverage score :
  0 <= coverage <= 64 -> 0 <= score <= 576 -> heuristicChecked coverage score = true.
Proof.
  intros Hc Hs. pose proof heuristicChecked_table as H.
  rewrite forallb_forall in H.
  assert (Hin : In coverage (seqZ 0 65)) by (apply list_elem_of_In, elem_of_seqZ; lia).
  apply H in Hin. rewrite forallb_forall in Hin. apply Hin.
  apply list_elem_of_In, elem_of_seqZ. lia.
Qed.

Lemma heuristic_valid b :
  validPieces b -> heuristic b = Ok (heuristicOf (GetCoverageLevel b) (sumValues b)).
Proof.
  intros Hv. unfold heuristic.
  destruct (Board_Score_cases b) as [[_ E] | [Hn _]]; [|done].
  rewrite E. reflexivity.
Qed.

Lemma heuristic_number b :
  wfBoard b -> validPieces b ->
  exists h, heuristic b = Ok h /\
    (isNaN h = true <-> sumValues b = 0 /\ GetCoverageLevel b = 0) /\
    (0 < sumValues b ->
     isFinite h = true /\ f32ltb h (float32_of_int (GetCoverageLevel b)) = false).
Proof.
  intros Hwf Hv. exists (heuristicOf (GetCoverageLevel b) (sumValues b)).
  split; [by apply heuristic_valid|].
  pose proof (GetCoverageLevel_range b Hwf) as Hc. pose proof (sumValues_range b Hwf) as Hs.
  pose proof (heuristicChecked_all _ _ Hc Hs) as H. unfold heuristicChecked in H.
  apply andb_prop in H as [Hnan Hfin]. apply Bool.eqb_prop in Hnan. split.
  - rewrite Hnan, andb_true_iff, !Z.eqb_eq. tauto.
  - intros Hpos. apply orb_prop in Hfin as [Hz | Hfin]; [apply Z.eqb_eq in Hz; lia|].
    apply andb_prop in Hfin as [Hf Hlt]. split; [done|]. by apply negb_true_iff.
Qed.

(** X14: on a board over the closed piece set [heuristic] returns a value,
    which is NaN exactly when the board has score 0 and coverage level 0;
    when the board holds a piece the value is finite and not below the
    coverage level. *)
Theorem heuristic_is_a_number_unless_empty (b : list (list cell)) :
  wfBoard b -> validPieces b ->
  exists h, heuristic b = Ok h /\
    (isNaN h = true <-> sumValues b = 0 /\ GetCoverageLevel b = 0) /\
    (0 < sumValues b ->
     isFinite h = true /\ f32ltb h (float32_of_int (GetCoverageLevel b)) = false).
Proof. apply heuristic_number. Qed.

(** X14 at the board with a queen and a pawn. *)
Lemma heuristic_is_a_number_unless_empty_witness :
  exists h, heuristic queenAndPawn = Ok h /\
    (isNaN h = true <-> sumValues queenAndPawn = 0 /\ GetCoverageLevel queenAndPawn = 0) /\
    (0 < sumValues queenAndPawn ->
     isFinite h = true /\ f32ltb h (float32_of_int (GetCoverageLevel queenAndPawn)) = false).
Proof. apply (heuristic_is_a_number_unless_empty queenAndPawn); by_compute. Defined.

(** ** Insertion into the dedup set *)

Lemma insertBoard_seen st m :
  isNaN (Heuristic m) = false -> Contains (seenBoards (insertBoard st m).1) m = true.
Proof.
  intros Hn. unfold insertBoard. destruct (Contains (seenBoards st) m) eqn:E; cbn; [done|].
  by apply Contains_Put.
Qed.

(** X15: the compact state of a board that holds at least one piece is
    equal to itself; once inserted it is found in [seenBoards], and a second
    [insertBoard] returns false, leaves the edge set and [seenBoards] as they
    are and counts one duplicate. *)
Theorem board_with_a_piece_is_deduplicated (b : list (list cell)) (m : MinimalBoard) (st : state) :
  wfBoard b -> getMinimalBoard heuristic b = Ok m -> 0 < Score m ->
  MinimalBoard_eqb m m = true /\
  Contains (seenBoards (insertBoard st m).1) m = true /\
  (insertBoard (insertBoard st m).1 m).2 = false /\
  edgeSet (insertBoard (insertBoard st m).1 m).1 = edgeSet (insertBoard st m).1 /\
  seenBoards (insertBoard (insertBoard st m).1 m).1 = seenBoards (insertBoard st m).1 /\
  duplicates (insertBoard (insertBoard st m).1 m).1 =
    int64 (duplicates (insertBoard st m).1 + 1).
Proof.
  intros Hwf Hm Hpos.
  destruct (getMinimalBoard_Ok heuristic b m Hm) as (Hh & Hs & _ & _).
  pose proof (Board_Score_Ok_valid b _ Hs) as Hv.
  assert (Hsum : Score m = sumValues b).
  { destruct (Board_Score_cases b) as [[_ E] | [_ E]]; rewrite E in Hs; congruence. }
  destruct (heuristic_number b Hwf Hv) as (h & Hh' & Hnan & _).
  rewrite Hh in Hh'. injection Hh' as <-.
  assert (Hn : isNaN (Heuristic m) = false).
  { destruct (isNaN (Heuristic m)); [|done]. destruct (proj1 Hnan eq_refl). lia. }
  split; [by apply MinimalBoard_eqb_refl|].
  pose proof (insertBoard_seen st m Hn) as Hc. split; [done|].
  generalize dependent ((insertBoard st m).1). intros st1 Hc.
  unfold insertBoard. by rewrite Hc.
Qed.

(** X15 at the board with one queen. *)
Lemma board_with_a_piece_is_deduplicated_witness :
  MinimalBoard_eqb queenCompact queenCompact = true /\
  Contains (seenBoards (insertBoard initialState queenCompact).1) queenCompact = true /\
  (insertBoard (insertBoard initialState queenCompact).1 queenCompact).2 = false /\
  edgeSet (insertBoard (insertBoard initialState queenCompact).1 queenCompact).1 =
    edgeSet (insertBoard initialState queenCompact).1 /\
  seenBoards (insertBoard (insertBoard initialState queenCompact).1 queenCompact).1 =
    seenBoards (insertBoard initialState queenCompact).1 /\
  duplicates (insertBoard (insertBoard initialState queenCompact).1 queenCompact).1 =
    int64 (duplicates (insertBoard initialState queenCompact).1 + 1).
Proof.
  apply (board_with_a_piece_is_deduplicated (rebuilt [(0, QUEEN)]) queenCompact initialState);
    [by_compute | vm_compute; reflexivity | vm_compute; reflexivity].
Defined.

(** ** The dedup set *)

Lemma MinimalBoard_eqb_nan key m : isNaN (Heuristic m) = true -> MinimalBoard_eqb key m = false.
Proof.
  intros Hn. unfold MinimalBoard_eqb.
  destruct (f32eqb_nan _ Hn (Heuristic key)) as [_ ->].
  by rewrite andb_false_r.
Qed.

Lemma Contains_nan s m : isNaN (Heuristic m) = true -> Contains s m = false.
Proof.
  intros Hn. unfold Contains. induction s as [|key s IH]; [done|].
  cbn. by rewrite MinimalBoard_eqb_nan, IH.
Qed.

(** X16: after [Put], [Contains] finds the board exactly when its
    heuristic is not NaN; [Put] never makes a board that was found
    unfindable; putting a board that is found changes nothing, and putting
    one that is not found adds it. *)
Theorem put_then_contains (s : list MinimalBoard) (m b : MinimalBoard) :
  Contains (Put s m) m = negb (isNaN (Heuristic m)) /\
  (Contains s b = true -> Contains (Put s m) b = true) /\
  (Contains s m = true -> Put s m = s) /\
  (Contains s m = false -> Put s m = s ++ [m]).
Proof.
  split; [|split; [|split]].
  - destruct (isNaN (Heuristic m)) eqn:Hn; [by apply Contains_nan | by apply Contains_Put].
  - intros Hb. unfold Put. destruct (Contains s m); [done|].
    unfold Contains in *. by rewrite existsb_app, Hb.
  - intros Hc. unfold Put. by rewrite Hc.
  - intros Hc. unfold Put. by rewrite Hc.
Qed.

(** ** The dispatch of one board *)

Lemma tail_decomposition_unique {A} (P : A -> Prop) kept d dropped kept' d' dropped' :
  kept ++ [d] ++ dropped = kept' ++ [d'] ++ dropped' ->
  ~ P d -> ~ P d' -> Forall P dropped -> Forall P dropped' ->
  kept = kept' /\ d = d' /\ dropped = dropped'.
Proof.
  intros Heq Hd Hd'. revert dropped' Heq.
  induction dropped as [|x l IH] using rev_ind; intros dropped' Heq Hall Hall'.
  - rewrite app_nil_r in Heq. destruct dropped' as [|x' l'] using rev_ind.
    + rewrite app_nil_r in Heq. apply app_inj_tail in Heq as [-> ->]. done.
    + exfalso. rewrite !app_assoc in Heq. apply app_inj_tail in Heq as [_ ->].
      apply Forall_app in Hall' as [_ Hx]. by apply Forall_cons in Hx as [Hx _].
  - destruct dropped' as [|x' l' _] using rev_ind.
    + exfalso. rewrite app_nil_r, !app_assoc in Heq. apply app_inj_tail in Heq as [_ <-].
      apply Forall_app in Hall as [_ Hx]. by apply Forall_cons in Hx as [Hx _].
    + rewrite !app_assoc in Heq. apply app_inj_tail in Heq as [Heq ->].
      rewrite <- !app_assoc in Heq.
      apply Forall_app in Hall as [Hall _]. apply Forall_app in Hall' as [Hall' _].
      destruct (IH l' Heq Hall Hall') as (-> & -> & ->). done.
Qed.

(** X17: when the edge set ends with a board within the bound followed
    only by boards over it, the dispatch drops those boards and, if the work
    queue has room, moves that board to the work queue and counts one
    outstanding job and one processed board; with a full work queue the board
    stays and the counters stand.  The bound, [seenBoards], [newBoardQueue]
    and the duplicates are left as they are. *)
Theorem dispatch_sends_last_board_within_bound (workQueueSize : Z) (st : state)
    (kept dropped : list MinimalBoard) (d : MinimalBoard) :
  edgeSet st = kept ++ [d] ++ dropped ->
  Score d <= currBestScore st -> Forall (fun m => Score m > currBestScore st) dropped ->
  exists st', dispatch workQueueSize st = Ok st' /\
    currBestScore st' = currBestScore st /\ seenBoards st' = seenBoards st /\
    newBoardQueue st' = newBoardQueue st /\ duplicates st' = duplicates st /\
    (Z.of_nat (length (workQueue st)) < workQueueSize ->
     workQueue st' = workQueue st ++ [d] /\ edgeSet st' = kept /\
     outstandingJobs st' = int32 (outstandingJobs st + 1) /\
     processed st' = int64 (processed st + 1)) /\
    (~ Z.of_nat (length (workQueue st)) < workQueueSize ->
     workQueue st' = workQueue st /\ edgeSet st' = kept ++ [d] /\
     outstandingJobs st' = outstandingJobs st /\ processed st' = processed st).
Proof.
  intros Hes Hd Hdrop.
  destruct (dispatch_cases workQueueSize st)
    as [[He _] | [(_ & Hall & _) | (kept' & d' & dropped' & Heq & Hd' & Hdrop' & Hp)]].
  - rewrite Hes in He. by destruct kept.
  - exfalso. rewrite Hes in Hall. apply Forall_app in Hall as [_ Hall].
    apply Forall_cons in Hall as [Hall _]. unfold overBound in Hall. lia.
  - rewrite Hes in Heq.
    destruct (tail_decomposition_unique (overBound (currBestScore st))
                kept d dropped kept' d' dropped' Heq) as (<- & <- & <-);
      [unfold overBound; lia | done | done | done |].
    rewrite Hp. case_bool_decide as Hroom.
    + eexists. split; [done|]. repeat split; try done.
    + eexists. split; [done|]. repeat split; try done.
Qed.

(** X17 at an edge set of two boards within the bound. *)
Lemma dispatch_sends_last_board_within_bound_witness :
  exists st', dispatch 8 twoBoardState = Ok st' /\
    currBestScore st' = currBestScore twoBoardState /\
    seenBoards st' = seenBoards twoBoardState /\
    newBoardQueue st' = newBoardQueue twoBoardState /\
    duplicates st' = duplicates twoBoardState /\
    (Z.of_nat (length (workQueue twoBoardState)) < 8 ->
     workQueue st' = workQueue twoBoardState ++ [pawnCompact] /\ edgeSet st' = [knightCompact] /\
     outstandingJobs st' = int32 (outstandingJobs twoBoardState + 1) /\
     processed st' = int64 (processed twoBoardState + 1)) /\
    (~ Z.of_nat (length (workQueue twoBoardState)) < 8 ->
     workQueue st' = workQueue twoBoardState /\ edgeSet st' = [knightCompact] ++ [pawnCompact] /\
     outstandingJobs st' = outstandingJobs twoBoardState /\
     processed st' = processed twoBoardState).
Proof.
  apply (dispatch_sends_last_board_within_bound 8 twoBoardState [knightCompact] [] pawnCompact).
  - reflexivity.
  - vm_compute. discriminate.
  - constructor.
Defined.

(** ** Receiving new boards *)

Lemma ingestBoard_frame st dirty nb :
  workQueue (ingestBoard st dirty nb).1 = workQueue st /\
  newBoardQueue (ingestBoard st dirty nb).1 = newBoardQueue st /\
  outstandingJobs (ingestBoard st dirty nb).1 = outstandingJobs st /\
  processed (ingestBoard st dirty nb).1 = processed st /\
  workQueueClosed (ingestBoard st dirty nb).1 = workQueueClosed st.
Proof.
  unfold ingestBoard, insertBoard, storeBestScore.
  destruct (IsSolved nb); cbn [andb]; [case_bool_decide; done|].
  destruct (Contains (seenBoards st) nb); done.
Qed.

Lemma searchDone_true st :
  searchDone st = true <->
  edgeSet st = [] /\ workQueue st = [] /\ newBoardQueue st = [] /\ outstandingJobs st = 0.
Proof.
  unfold searchDone. rewrite !andb_true_iff, !bool_decide_eq_true, !length_zero_iff_nil. tauto.
Qed.

Lemma newBoardLoop_spec fuel :
  forall st dirty n, (length (newBoardQueue st) <= fuel)%nat ->
  exists st' dirty' n' returned,
    newBoardLoop fuel st dirty n = Ok (st', dirty', n', returned) /\
    workQueue st' = workQueue st /\ outstandingJobs st' = outstandingJobs st /\
    processed st' = processed st /\
    n <= n' <= n + Z.of_nat (length (newBoardQueue st)) /\
    (returned = false ->
     newBoardQueue st' = [] /\ n' = n + Z.of_nat (length (newBoardQueue st)) /\
     workQueueClosed st' = workQueueClosed st) /\
    (returned = true ->
     n < n' /\ edgeSet st' = [] /\ workQueue st' = [] /\ newBoardQueue st' = [] /\
     outstandingJobs st' = 0 /\ workQueueClosed st' = true).
Proof.
  induction fuel as [|fuel IH]; intros st dirty n Hlen.
  - destruct (newBoardQueue st) as [|nb rest] eqn:Hq; [|cbn in Hlen; lia].
    exists st, dirty, n, false. cbn [newBoardLoop]. rewrite Hq. cbn [length].
    repeat split; try done; lia.
  - cbn [newBoardLoop]. destruct (newBoardQueue st) as [|nb rest] eqn:Hq.
    + exists st, dirty, n, false. cbn [length]. repeat split; try done; lia.
    + destruct (ingestBoard (setNewBoardQueue st rest) dirty nb) as [st1 dirty1] eqn:Hin.
      pose proof (ingestBoard_frame (setNewBoardQueue st rest) dirty nb) as Hframe.
      rewrite Hin in Hframe. cbn [fst setNewBoardQueue workQueue newBoardQueue outstandingJobs
                                   processed workQueueClosed] in Hframe.
      destruct Hframe as (Hwq & Hnq & Hoj & Hpr & Hcl).
      destruct (searchDone st1) eqn:Hdone.
      * apply searchDone_true in Hdone as (He & Hw & Hn & Ho).
        eexists _, dirty1, (n + 1), true. split; [done|]. cbn [workQueue outstandingJobs processed
          edgeSet newBoardQueue workQueueClosed length].
        repeat split; try done; try lia.
      * destruct (IH st1 dirty1 (n + 1)) as (st' & dirty' & n' & returned & Hloop & Hwq' & Hoj' &
                                              Hpr' & Hn' & Hfalse & Htrue).
        { rewrite Hnq. cbn in Hlen. lia. }
        exists st', dirty', n', returned. split; [done|].
        rewrite Hnq in Hn', Hfalse. cbn [length].
        split; [congruence|]. split; [congruence|]. split; [congruence|].
        split; [lia|]. split.
        -- intros Hr. destruct (Hfalse Hr) as (? & ? & ?). repeat split; try done; try lia.
           congruence.
        -- intros Hr. destruct (Htrue Hr) as (? & ? & ? & ? & ? & ?).
           repeat split; try done; lia.
Qed.



(** ** The bound *)

Lemma int32_small z : - 2 ^ 31 <= z < 2 ^ 31 -> int32 z = z.
Proof. intros H. unfold int32. rewrite Z.mod_small; lia. Qed.

Lemma ingestBoard_bound st dirty nb :
  - 2 ^ 31 <= Score nb -> currBestScore st <= 2 ^ 31 ->
  currBestScore (ingestBoard st dirty nb).1 <= currBestScore st /\
  (currBestScore (ingestBoard st dirty nb).1 < currBestScore st ->
   (ingestBoard st dirty nb).2 = true /\ IsSolved nb = true /\
   currBestScore (ingestBoard st dirty nb).1 = Score nb) /\
  (dirty = true -> (ingestBoard st dirty nb).2 = true).
Proof.
  intros Hlow Hhigh. unfold ingestBoard, insertBoard, storeBestScore.
  destruct (IsSolved nb); cbn [andb].
  - case_bool_decide as Hlt; cbn [fst snd currBestScore].
    + rewrite int32_small by lia. repeat split; try done; lia.
    + repeat split; try done; lia.
  - destruct (Contains (seenBoards st) nb); cbn [negb fst snd currBestScore];
      repeat split; try done; lia.
Qed.

Lemma newBoardLoop_bound fuel :
  forall st dirty n st' dirty' n' returned,
    newBoardLoop fuel st dirty n = Ok (st', dirty', n', returned) ->
    Forall (fun m => - 2 ^ 31 <= Score m) (newBoardQueue st) ->
    currBestScore st <= 2 ^ 31 ->
    currBestScore st' <= currBestScore st /\
    (currBestScore st' < currBestScore st -> dirty' = true) /\
    (dirty = true -> dirty' = true).
Proof.
  assert (Hstep : forall st rest dirty nb st1 dirty1,
            ingestBoard (setNewBoardQueue st rest) dirty nb = (st1, dirty1) ->
            - 2 ^ 31 <= Score nb -> currBestScore st <= 2 ^ 31 ->
            newBoardQueue st1 = rest /\ currBestScore st1 <= currBestScore st /\
            (currBestScore st1 < currBestScore st -> dirty1 = true) /\
            (dirty = true -> dirty1 = true)).
  { intros st rest dirty nb st1 dirty1 Hin Hlow Hhigh.
    pose proof (ingestBoard_frame (setNewBoardQueue st rest) dirty nb) as (_ & Hnq & _).
    pose proof (ingestBoard_bound (setNewBoardQueue st rest) dirty nb Hlow Hhigh)
      as (Hle & Hlt & Hd).
    rewrite Hin in Hnq, Hle, Hlt, Hd. cbn [fst snd] in *. repeat split; try done.
    intros H. by destruct (Hlt H). }
  induction fuel as [|fuel IH]; intros st dirty n st' dirty' n' returned Hloop Hall Hhigh;
    cbn [newBoardLoop] in Hloop; destruct (newBoardQueue st) as [|nb rest] eqn:Hq.
  - injection Hloop as <- <- <- <-. repeat split; try done; lia.
  - apply Forall_cons in Hall as [Hnb Hall].
    destruct (ingestBoard (setNewBoardQueue st rest) dirty nb) as [st1 dirty1] eqn:Hin.
    destruct (Hstep _ _ _ _ _ _ Hin Hnb Hhigh) as (_ & Hle & Hlt & Hd).
    destruct (searchDone st1); [|discriminate Hloop].
    injection Hloop as <- <- <- <-. cbn [currBestScore]. done.
  - injection Hloop as <- <- <- <-. repeat split; try done; lia.
  - apply Forall_cons in Hall as [Hnb Hall].
    destruct (ingestBoard (setNewBoardQueue st rest) dirty nb) as [st1 dirty1] eqn:Hin.
    destruct (Hstep _ _ _ _ _ _ Hin Hnb Hhigh) as (Hnq & Hle & Hlt & Hd).
    destruct (searchDone st1).
    + injection Hloop as <- <- <- <-. cbn [currBestScore]. done.
    + destruct (IH _ _ _ _ _ _ _ Hloop) as (Hle' & Hlt' & Hd'); [by rewrite Hnq | lia |].
      split; [lia|]. split; [|tauto].
      intros H. destruct (decide (currBestScore st' < currBestScore st1)); [tauto|].
      apply Hd', Hlt. lia.
Qed.

(** X19: while the orchestrator receives boards whose scores fit a 32-bit
    integer, the bound never rises; whenever it falls the dirty flag is set,
    and a dirty flag stays set. *)
Theorem bound_never_rises (fuel : nat) (st st' : state) (dirty dirty' returned : bool) (n n' : Z) :
  newBoardLoop fuel st dirty n = Ok (st', dirty', n', returned) ->
  Forall (fun m => - 2 ^ 31 <= Score m) (newBoardQueue st) ->
  currBestScore st <= 2 ^ 31 ->
  currBestScore st' <= currBestScore st /\
  (currBestScore st' < currBestScore st -> dirty' = true) /\
  (dirty = true -> dirty' = true).
Proof. apply newBoardLoop_bound. Qed.

(** ** The segment that is sorted *)

(** X20: the offset of the segment to sort lies between 0 and the length
    of the edge set, so [edgeSet[offset:]] is in range; it is 0 when the
    bound has changed; the dirty flag is false afterwards; and the sort keeps
    the boards before the offset in place and loses or adds no board. *)
Theorem sort_offset_in_range (st : state) (dirty : bool) (newBoards workQueueSize : Z) :
  0 <= newBoards -> 0 <= workQueueSize ->
  0 <= (sortOffset st dirty newBoards workQueueSize).1 <= Z.of_nat (length (edgeSet st)) /\
  (sortOffset st dirty newBoards workQueueSize).2 = false /\
  (dirty = true -> (sortOffset st dirty newBoards workQueueSize).1 = 0) /\
  (forall offset, 0 <= offset ->
     take (Z.to_nat offset) (edgeSet (sortEdgeSet st offset)) = take (Z.to_nat offset) (edgeSet st) /\
     edgeSet (sortEdgeSet st offset) ≡ₚ edgeSet st).
Proof.
  intros Hn Hw. unfold sortOffset. split; [|split; [|split]].
  - case_bool_decide; destruct dirty; cbn; lia.
  - case_bool_decide; destruct dirty; done.
  - intros ->. by rewrite orb_true_r.
  - intros offset Hoff. unfold sortEdgeSet. cbn [edgeSet setEdgeSet]. split.
    + destruct (decide (Z.to_nat offset <= length (edgeSet st))%nat) as [Hle | Hgt].
      * rewrite take_app_le by (rewrite length_take; lia). by rewrite take_take, Nat.min_id.
      * rewrite drop_ge by lia. cbn. by rewrite app_nil_r, take_take, Nat.min_id.
    + rewrite sortSlice_perm. by rewrite take_drop.
Qed.

(** X20 at an edge set of two boards after a change of the bound. *)
Lemma sort_offset_in_range_witness :
  0 <= (sortOffset twoBoardState true 1 8).1 <= Z.of_nat (length (edgeSet twoBoardState)) /\
  (sortOffset twoBoardState true 1 8).2 = false /\
  (true = true -> (sortOffset twoBoardState true 1 8).1 = 0) /\
  (forall offset, 0 <= offset ->
     take (Z.to_nat offset) (edgeSet (sortEdgeSet twoBoardState offset)) =
       take (Z.to_nat offset) (edgeSet twoBoardState) /\
     edgeSet (sortEdgeSet twoBoardState offset) ≡ₚ edgeSet twoBoardState).
Proof. apply (sort_offset_in_range twoBoardState true 1 8); lia. Defined.

(** X19 at a queue holding one solved board of score 20. *)
Lemma bound_never_rises_witness :
  currBestScore (storeBestScore (setNewBoardQueue solvedWaiting []) 20)
    <= currBestScore solvedWaiting /\
  (currBestScore (storeBestScore (setNewBoardQueue solvedWaiting []) 20)
     < currBestScore solvedWaiting -> true = true) /\
  (false = true -> true = true).
Proof.
  apply (bound_never_rises 1 solvedWaiting (storeBestScore (setNewBoardQueue solvedWaiting []) 20)
           false true false 0 1).
  - reflexivity.
  - repeat constructor. vm_compute. discriminate.
  - vm_compute. discriminate.
Defined.

(** ** The boards [reduce] returns cannot be reduced *)

Lemma reduceBoards_irreducible fuel :
  forall b bs, settled b -> reduceBoards fuel b = Ok bs ->
    Forall (fun br => settled br /\ removableCells br = []) bs.
Proof.
  induction fuel as [|fuel IH]; intros b bs Hs Hred; [discriminate Hred|].
  destruct (reduceBoards_branches fuel b bs Hs Hred)
    as [[Hnone ->] | (_ & bss & Hall & ->)]; [constructor; [done | constructor]|].
  apply Forall_concat.
  assert (Hgen : forall l, Forall (fun xy => xy ∈ removableCells b) l ->
            Forall2 (fun xy rs => removalBranch fuel b xy = Ok rs) l bss ->
            Forall (Forall (fun br => settled br /\ removableCells br = [])) bss).
  { clear Hall Hred. intros l Hin Hall. revert Hin.
    induction Hall as [|[x y] rs l bss Hbr Hrest IHl]; intros Hin; [constructor|].
    apply Forall_cons in Hin as [Hxy Hin]. constructor; [|by apply IHl].
    apply removalBranch_Ok in Hbr as (nb & Hnb & Hrs). cbn [fst snd] in Hnb.
    apply removableCells_spec in Hxy as ([Hx Hy]%elem_of_cellIndices & _).
    destruct (removedBoard_spec b x y Hs Hx Hy) as (nb' & Hnb' & Hsnb & _).
    rewrite Hnb in Hnb'. injection Hnb' as <-. by apply (IH nb). }
  apply (Hgen (removableCells b)); [by apply Forall_forall | done].
Qed.

(** X21: [reduce] of a settled board returns at least one board, and
    every board it returns is settled and has no removable piece: reducing it
    again returns that board alone and allocates nothing. *)
Theorem reduce_returns_irreducible_boards (h : list (list (list cell))) (b : nat)
    (bv : list (list cell)) :
  h !! b = Some bv -> settled bv ->
  exists rs ext,
    reduce reduceFuel h b = Ok (rs, h ++ ext) /\ rs <> [] /\
    Forall (fun r => exists br, (h ++ ext) !! r = Some br /\ settled br /\
                                removableCells br = [] /\
                                reduce reduceFuel (h ++ ext) r = Ok ([r], h ++ ext)) rs.
Proof.
  intros Hb Hs.
  destruct (reduce_total h b bv Hb Hs) as (rs & ext & bs & Hred & Hpt & Hbs & _).
  exists rs, ext. split; [done|]. split.
  - intros ->. apply Forall2_nil_inv_l in Hpt as ->.
    by apply reduceBoards_nonempty in Hbs.
  - pose proof (reduceBoards_irreducible _ _ _ Hs Hbs) as Hirr.
    pose proof (pointTo_Forall _ _ _ _ Hpt Hirr) as Hall.
    eapply Forall_impl; [exact Hall|]. intros r (br & Hr & Hsbr & Hnone).
    exists br. split; [done|]. split; [done|]. split; [done|].
    by apply (reduce_no_removable _ _ _ br).
Qed.

(** X21 at the three pawns. *)
Lemma reduce_returns_irreducible_boards_witness :
  exists rs ext,
    reduce reduceFuel [threePawns] 0%nat = Ok (rs, [threePawns] ++ ext) /\ rs <> [] /\
    Forall (fun r => exists br, ([threePawns] ++ ext) !! r = Some br /\ settled br /\
                                removableCells br = [] /\
                                reduce reduceFuel ([threePawns] ++ ext) r =
                                  Ok ([r], [threePawns] ++ ext)) rs.
Proof.
  apply (reduce_returns_irreducible_boards [threePawns] 0%nat threePawns);
    [reflexivity | exact threePawns_settled].
Defined.

(** ** Successor generation *)

Lemma getCell_wf b c :
  wfBoard b -> 0 <= c < 64 ->
  exists cl, getCell b c = Ok cl /\ cellAt b (point_x c) (point_y c) = Ok cl.
Proof.
  intros Hwf Hc. destruct (point_decompose c) as (Hx & Hy & Heq); [unfold BOARD_SIZE; lia|].
  destruct (cellAt_wf b _ _ Hwf Hx Hy) as (cl & Hcl & _).
  exists cl. split; [|done]. rewrite Heq, getCell_cellAt by done. exact Hcl.
Qed.

Lemma getAllCoverage_Ok b p :
  wfBoard b -> 0 <= p < 64 ->
  exists m, getAllCoverage b p = Ok m /\
    forall pc s, (pc, s) ∈ map_to_list m ->
      PAWN <= pc <= QUEEN /\ getCoverage b p pc = Ok s /\ forall c, c ∈ s -> 0 <= c < 64.
Proof.
  intros Hwf Hp. destruct (point_decompose p) as (Hx & Hy & Heq); [unfold BOARD_SIZE; lia|].
  assert (Hcov : forall pc, PAWN <= pc <= QUEEN ->
            exists s, getCoverage b p pc = Ok s /\ forall c, c ∈ s -> 0 <= c < 64).
  { intros pc Hpc. rewrite Heq. apply getCoverage_known; try done.
    - unfold knownPiece, PAWN, QUEEN in *. lia.
    - unfold NONE, PAWN in *. lia. }
  destruct (Hcov PAWN) as (s1 & H1 & R1); [unfold PAWN, QUEEN; lia|].
  destruct (Hcov KNIGHT) as (s2 & H2 & R2); [unfold PAWN, KNIGHT, QUEEN; lia|].
  destruct (Hcov ROOK) as (s3 & H3 & R3); [unfold PAWN, ROOK, QUEEN; lia|].
  destruct (Hcov BISHOP) as (s4 & H4 & R4); [unfold PAWN, BISHOP, QUEEN; lia|].
  destruct (Hcov QUEEN) as (s5 & H5 & R5); [unfold PAWN, QUEEN; lia|].
  unfold getAllCoverage. rewrite H1, H2, H3, H4, H5. cbn [wrapErr mbind outcome_bind].
  eexists. split; [done|]. intros pc s Hin. apply elem_of_map_to_list in Hin.
  rewrite !lookup_insert_Some, lookup_empty in Hin.
  destruct Hin as [[<- <-] | [_ [[<- <-] | [_ [[<- <-] | [_ [[<- <-] | [_ [[<- <-] | [_ ?]]]]]]]]]];
    try done; (split; [unfold PAWN, KNIGHT, BISHOP, ROOK, QUEEN; lia | done]).
Qed.

Lemma coversNew_Ok b l :
  wfBoard b -> Forall (fun c => 0 <= c < 64) l -> exists r, coversNew b l = Ok r.
Proof.
  intros Hwf. induction 1 as [|c l Hc _ IH]; cbn [coversNew]; [by eexists|].
  destruct (getCell_wf b c Hwf Hc) as (cl & -> & _). cbn [mbind outcome_bind].
  case_bool_decide; [by eexists | done].
Qed.

Lemma coversNew_covered b l :
  wfBoard b -> Forall (Forall (fun c => supportedBy c <> ∅)) b ->
  Forall (fun c => 0 <= c < 64) l -> coversNew b l = Ok false.
Proof.
  intros Hwf Hall. induction 1 as [|c l Hc _ IH]; cbn [coversNew]; [done|].
  destruct (getCell_wf b c Hwf Hc) as (cl & -> & Hcl). cbn [mbind outcome_bind].
  apply cellAt_Ok in Hcl as (_ & _ & row & Hrow & Hcell).
  rewrite Forall_lookup in Hall. specialize (Hall _ _ Hrow).
  rewrite Forall_lookup in Hall. specialize (Hall _ _ Hcell). cbn in Hall.
  rewrite bool_decide_eq_false_2; [done|].
  intros Hz. apply Hall. by apply size_empty_inv, leibniz_equiv in Hz.
Qed.

(** X22: a board whose coverage level is 64 has no successor:
    [ProposeBoards] returns the empty set and allocates nothing. *)
Theorem solved_board_proposes_nothing (heur : list (list cell) -> outcome spec_float)
    (h : list (list (list cell))) (b : nat) (bv : list (list cell)) :
  h !! b = Some bv -> wfBoard bv -> GetCoverageLevel bv = BOARD_SIZE * BOARD_SIZE ->
  ProposeBoards heur h b = Ok ([], h).
Proof.
  intros Hb Hwf Hlevel.
  assert (Hall : Forall (Forall (fun c => supportedBy c <> ∅)) bv).
  { rewrite GetCoverageLevel_count in Hlevel.
    pose proof (proj2 (filter_length_all isSupported (concat bv))) as H.
    rewrite length_concat_wf in H by done.
    change (BOARD_SIZE * BOARD_SIZE) with (Z.of_nat 64) in Hlevel.
    apply Nat2Z.inj, H, Forall_concat in Hlevel.
    eapply Forall_impl; [exact Hlevel|]. intros row Hrow.
    eapply Forall_impl; [exact Hrow|]. intros c. apply isSupported_nonempty. }
  unfold ProposeBoards. apply foldM_skip. intros [x y] [Hx Hy]%elem_of_cellIndices.
  cbn [snd]. rewrite (load_Some _ _ _ Hb). cbn [mbind outcome_bind].
  destruct (cellAt_wf bv x y Hwf Hx Hy) as (c & -> & _). cbn [mbind outcome_bind].
  case_bool_decide; [done|].
  destruct (getAllCoverage_Ok bv (newPoint x y).1 Hwf) as (m & -> & Hm).
  { unfold newPoint. cbn [fst]. fold (newPointUnsafe x y).
    rewrite newPointUnsafe_pointOf by done. by apply pointOf_range. }
  cbn [wrapErr mbind outcome_bind]. apply foldM_skip. intros [pc s] Hin.
  cbn [fst snd]. rewrite (load_Some _ _ _ Hb). cbn [mbind outcome_bind].
  destruct (Hm pc s Hin) as (_ & _ & Hrange).
  rewrite coversNew_covered; [done | done | done |].
  apply Forall_forall. intros q Hq. apply Hrange. by apply elem_of_elements.
Qed.

(** X22 at the row of rooks. *)
Lemma solved_board_proposes_nothing_witness :
  ProposeBoards heuristic [rookRow] 0%nat = Ok ([], [rookRow]).
Proof.
  apply (solved_board_proposes_nothing heuristic [rookRow] 0%nat rookRow);
    [reflexivity | by_compute | vm_compute; reflexivity].
Defined.

Lemma Put_Forall (P : MinimalBoard -> Prop) s m : Forall P s -> P m -> Forall P (Put s m).
Proof.
  intros Hs Hm. unfold Put. destruct (Contains s m); [done|].
  apply Forall_app. split; [done|]. by constructor.
Qed.

Lemma pieceOf_setPiece b x y pc x' y' :
  wfBoard b -> 0 <= x < 8 -> 0 <= y < 8 ->
  pieceOf (setPiece b x y pc) x' y' =
  if bool_decide ((x', y') = (x, y)) then pc else pieceOf b x' y'.
Proof.
  intros Hwf Hx Hy. destruct (decide (0 <= x' < 8 /\ 0 <= y' < 8)) as [[Hx' Hy'] | Hout].
  - destruct (cellAt_wf b x' y' Hwf Hx' Hy') as (c & Hc & _).
    assert (Hset : cellAt (setPiece b x y pc) x' y' =
              if bool_decide (x' = x /\ y' = y)
              then Ok {| piece := pc; supports := supports c; supportedBy := supportedBy c |}
              else Ok c).
    { unfold setPiece. rewrite cellAt_alter, Hc by done. by case_bool_decide. }
    rewrite (pieceOf_cellAt b x' y' c) by done.
    destruct (decide ((x', y') = (x, y))) as [Heq | Hne].
    + rewrite (bool_decide_eq_true_2 _ Heq). injection Heq as -> ->.
      rewrite bool_decide_eq_true_2 in Hset by done.
      by rewrite (pieceOf_cellAt _ _ _ _ Hx Hy Hset).
    + rewrite (bool_decide_eq_false_2 _ Hne).
      rewrite bool_decide_eq_false_2 in Hset by (intros [-> ->]; done).
      by rewrite (pieceOf_cellAt _ _ _ _ Hx' Hy' Hset).
  - unfold pieceOf. rewrite !pieceAt_outside by done.
    rewrite bool_decide_eq_false_2; [done|]. intros [= -> ->]. apply Hout. done.
Qed.

Lemma index_wf_row b x :
  wfBoard b -> 0 <= x < 8 -> exists row, index b x = Ok row /\ length row = 8%nat.
Proof.
  intros Hwf Hx. destruct (wfBoard_lookup b x 0 Hwf Hx ltac:(lia)) as (row & _ & Hrow & _ & Hlen).
  exists row. split; [|done]. apply index_Ok. split; [lia | done].
Qed.

Lemma index_row (row : list cell) y :
  length row = 8%nat -> 0 <= y < 8 -> exists c, index row y = Ok c.
Proof.
  intros Hlen Hy. destruct (lookup_lt_is_Some_2 row (Z.to_nat y)) as [c Hc]; [lia|].
  exists c. apply index_Ok. split; [lia | done].
Qed.

Lemma proposePiece_spec bv b x y pc result h1 :
  settled bv -> h1 !! b = Some bv -> 0 <= x < 8 -> 0 <= y < 8 ->
  pieceOf bv x y = NONE -> PAWN <= pc <= QUEEN -> Forall (proposedFrom bv) result ->
  exists result' ext,
    proposePiece heuristic b (pointOf x y) pc (result, h1) = Ok (result', h1 ++ ext) /\
    Forall (proposedFrom bv) result'.
Proof.
  intros Hs Hb Hx Hy Hempty Hpc Hres. pose proof Hs as (Hwf & Hv & _).
  assert (Hwfc : wfBoard (Board_copy bv)) by by apply wfBoard_map.
  set (placed := setPiece (Board_copy bv) x y pc).
  assert (Hwfp : wfBoard placed) by by apply wfBoard_alter.
  assert (Hpieces : forall x' y', pieceOf placed x' y' =
            if bool_decide ((x', y') = (x, y)) then pc else pieceOf bv x' y').
  { intros x' y'. unfold placed. rewrite pieceOf_setPiece by done.
    by rewrite (pieceOf_occupancy (Board_copy bv) bv) by apply occupancy_copy. }
  assert (Hvp : validPieces placed).
  { apply validPieces_pointwise; [done|]. intros x' y' _ _. rewrite Hpieces.
    case_bool_decide; [unfold knownPiece, PAWN, QUEEN in *; lia | by apply knownPiece_pieceOf]. }
  destruct (settleSupportGraph_spec placed Hwfp Hvp) as (nb1 & Hsettle & Hwf1 & _).
  destruct (settleSupportGraph_settled placed nb1 Hwfp Hvp Hsettle) as [Hs1 Hsame].
  destruct (reduce_total (h1 ++ [nb1]) (length h1) nb1 (lookup_last h1 nb1) Hs1)
    as (rs & ext & bs & Hred & Hpt & _ & Hall).
  pose proof (pointTo_Forall _ _ _ _ Hpt Hall) as Hrs.
  destruct (foldM_invariant
              (fun result reducedBoard =>
                 rb ← load ((h1 ++ [nb1]) ++ ext) reducedBoard;
                 minimalBoard ← wrapErr "failed to minimize cloned board"
                                  (getMinimalBoard heuristic rb);
                 Ok (Put result minimalBoard))
              (fun _ result => Forall (proposedFrom bv) result) rs)
    with (a := result) as (result' & Hfold & Hres').
  { intros done r res Hinv Hr. rewrite Forall_forall in Hrs.
    destruct (Hrs r Hr) as (br & Hbr & Hsbr & Hrestr & _).
    rewrite (load_Some _ _ _ Hbr). cbn [mbind outcome_bind].
    destruct (getMinimalBoard_total br) as (m & Hm); [by destruct Hsbr as (_ & ? & _)|].
    rewrite Hm. cbn [wrapErr mbind outcome_bind]. eexists. split; [done|].
    apply Put_Forall; [done|]. exists br. split; [done|]. split; [|done].
    exists x, y, pc. split; [done|]. split; [done|]. split; [done|]. split; [done|].
    intros x' y'. destruct (Hrestr x' y') as [Heq | Hnone]; [|by left].
    right. by rewrite Heq, (pieceOf_samePieces nb1 placed), Hpieces. }
  { done. }
  exists result', ([nb1] ++ ext). split; [|done].
  unfold proposePiece. rewrite (load_Some _ _ _ Hb). cbn [mbind outcome_bind alloc].
  rewrite (load_Some _ _ _ (lookup_last h1 (Board_copy bv))). cbn [mbind outcome_bind].
  destruct (point_xy x y Hx Hy) as [-> ->].
  destruct (index_wf_row (Board_copy bv) x Hwfc Hx) as (row & -> & Hlen).
  cbn [mbind outcome_bind].
  destruct (index_row row y Hlen Hy) as (c & ->). cbn [mbind outcome_bind].
  fold placed. rewrite Hsettle. cbn [wrapErr mbind outcome_bind].
  rewrite store_last, Hred. cbn [wrapErr mbind outcome_bind].
  rewrite Hfold. cbn [mbind outcome_bind]. by rewrite <- app_assoc.
Qed.

Lemma ProposeBoards_spec h b bv :
  settled bv -> h !! b = Some bv ->
  exists ms ext, ProposeBoards heuristic h b = Ok (ms, h ++ ext) /\
                 Forall (proposedFrom bv) ms.
Proof.
  intros Hs Hb. pose proof Hs as (Hwf & Hv & _).
  pose (J := fun (_ : list (Z * Z)) (st : list MinimalBoard * list (list (list cell))) =>
               Forall (proposedFrom bv) st.1 /\ exists ext, st.2 = h ++ ext).
  destruct (foldM_invariant
              (fun (st : list MinimalBoard * list (list (list cell))) (xy : Z * Z) =>
                 let '(x, y) := xy in
                 bv ← load st.2 b;
                 currCell ← cellAt bv x y;
                 if bool_decide (piece currCell ≠ NONE) then Ok st
                 else
                   let currCellPoint := (newPoint x y).1 in
                   coverages ← wrapErr "failed to get coverages" (getAllCoverage bv currCellPoint);
                   foldM (fun (st : list MinimalBoard * list (list (list cell)))
                              (pc : Z * gset Z) =>
                            bv ← load st.2 b;
                            coveredNew ← coversNew bv (elements pc.2);
                            if (coveredNew : bool)
                            then proposePiece heuristic b currCellPoint pc.1 st
                            else Ok st)
                         st (map_to_list coverages))
              J cellIndices) with (a := ([] : list MinimalBoard, h))
    as ([ms h'] & Hfold & Hms & ext & Hh').
  - intros done [x y] [res hcur] [Hres [ext Hcur]] [Hx Hy]%elem_of_cellIndices.
    cbn [fst snd] in *. subst hcur.
    assert (Hbcur : (h ++ ext) !! b = Some bv) by by apply lookup_app_l_Some.
    rewrite (load_Some _ _ _ Hbcur). cbn [mbind outcome_bind].
    destruct (cellAt_wf bv x y Hwf Hx Hy) as (c & Hc & _). rewrite Hc.
    cbn [mbind outcome_bind]. case_bool_decide as Hne.
    { eexists. split; [done|]. split; [done | by exists ext]. }
    assert (Hempty : pieceOf bv x y = NONE).
    { rewrite (pieceOf_cellAt bv x y c) by done. destruct (decide (piece c = NONE)); tauto. }
    assert (Hpt : (newPoint x y).1 = pointOf x y).
    { unfold newPoint. cbn [fst]. fold (newPointUnsafe x y). by apply newPointUnsafe_pointOf. }
    rewrite Hpt.
    destruct (getAllCoverage_Ok bv (pointOf x y) Hwf) as (m & -> & Hm);
      [by apply pointOf_range|].
    cbn [wrapErr mbind outcome_bind].
    destruct (foldM_invariant
                (fun (st : list MinimalBoard * list (list (list cell))) (pc : Z * gset Z) =>
                   bv ← load st.2 b;
                   coveredNew ← coversNew bv (elements pc.2);
                   if (coveredNew : bool)
                   then proposePiece heuristic b (pointOf x y) pc.1 st
                   else Ok st)
                (fun _ st => Forall (proposedFrom bv) st.1 /\ exists ext, st.2 = h ++ ext)
                (map_to_list m)) with (a := (res, h ++ ext))
      as (st' & Hinner & Hst').
    + intros done' [pc s] [res' hcur'] [Hres' [ext' Hcur']] Hin. cbn [fst snd] in *. subst hcur'.
      assert (Hbcur' : (h ++ ext') !! b = Some bv) by by apply lookup_app_l_Some.
      rewrite (load_Some _ _ _ Hbcur'). cbn [mbind outcome_bind].
      destruct (Hm pc s Hin) as (Hpc & _ & Hrange).
      destruct (coversNew_Ok bv (elements s) Hwf) as ([|] & ->).
      { apply Forall_forall. intros q Hq. apply Hrange. by apply elem_of_elements. }
      * cbn [mbind outcome_bind].
        destruct (proposePiece_spec bv b x y pc res' (h ++ ext') Hs Hbcur' Hx Hy Hempty Hpc Hres')
          as (res'' & ext'' & -> & Hres'').
        eexists. split; [done|]. cbn [fst snd]. split; [done|].
        exists (ext' ++ ext''). by rewrite app_assoc.
      * cbn [mbind outcome_bind]. eexists. split; [done|]. split; [done | by exists ext'].
    + split; [done | by exists ext].
    + exists st'. split; [done|]. exact Hst'.
  - split; [constructor | exists []; by rewrite app_nil_r].
  - cbn [fst snd] in *. subst h'. exists ms, ext. split; [exact Hfold | done].
Qed.

Lemma proposedFrom_rebuildable bv m : proposedFrom bv m -> rebuildable m.
Proof.
  intros (br & (Hwf & Hv & _) & _ & Hm).
  pose proof (getMinimalBoard_board heuristic br m Hwf Hm) as Hb.
  destruct (getMinimalBoard_Ok heuristic br m Hm) as (_ & Hs & _ & _).
  split; [|split].
  - unfold wfMinimal. rewrite Hb. by apply length_concat_occupancy.
  - rewrite Hb. by apply validPieces_concat.
  - destruct (Board_Score_cases br) as [[_ E] | [_ E]]; rewrite E in Hs; [|discriminate Hs].
    injection Hs as <-. pose proof (sumValues_range br Hwf). lia.
Qed.

(** X23: on a settled board [ProposeBoards] succeeds and leaves the board
    it was given as it was; every compact state it returns is the compaction
    of a settled board that holds the pieces of the input and one more piece
    on a cell that was empty, less the pieces [reduce] removed, and it is a
    compact state [RebuildBoard] accepts, with a score of at least 0. *)
Theorem propose_boards_total_and_sound (h : list (list (list cell))) (b : nat)
    (bv : list (list cell)) :
  settled bv -> h !! b = Some bv ->
  exists ms ext,
    ProposeBoards heuristic h b = Ok (ms, h ++ ext) /\
    (h ++ ext) !! b = Some bv /\
    Forall (fun m => rebuildable m /\
                     exists br, settled br /\ successorOf bv br /\
                                getMinimalBoard heuristic br = Ok m) ms.
Proof.
  intros Hs Hb. destruct (ProposeBoards_spec h b bv Hs Hb) as (ms & ext & Hp & Hms).
  exists ms, ext. split; [done|]. split; [by apply lookup_app_l_Some|].
  eapply Forall_impl; [exact Hms|]. intros m Hm. split; [by apply (proposedFrom_rebuildable bv)|].
  exact Hm.
Qed.

(** X23 at the three pawns. *)
Lemma propose_boards_total_and_sound_witness :
  exists ms ext,
    ProposeBoards heuristic [threePawns] 0%nat = Ok (ms, [threePawns] ++ ext) /\
    ([threePawns] ++ ext) !! 0%nat = Some threePawns /\
    Forall (fun m => rebuildable m /\
                     exists br, settled br /\ successorOf threePawns br /\
                                getMinimalBoard heuristic br = Ok m) ms.
Proof.
  apply (propose_boards_total_and_sound [threePawns] 0%nat threePawns);
    [exact threePawns_settled | reflexivity].
Defined.

(** ** One job of a worker *)

Lemma workerJob_frame st b st' :
  workerJob st b = Ok st' ->
  workQueue st' = workQueue st /\ edgeSet st' = edgeSet st /\ seenBoards st' = seenBoards st /\
  currBestScore st' = currBestScore st /\ processed st' = processed st /\
  duplicates st' = duplicates st /\ workQueueClosed st' = workQueueClosed st.
Proof.
  unfold workerJob, workerBody. destruct (RebuildBoard b) as [bv| | |]; cbn [mbind outcome_bind];
    try (intros [= <-]; done); try discriminate.
  destruct (ProposeBoards heuristic [bv] 0%nat) as [[ms h']| | |];
    cbn [wrapErr mbind outcome_bind]; try (intros [= <-]; done); discriminate.
Qed.

Lemma workerBody_rebuildable st m :
  wfMinimal m -> Forall knownPiece (board m) ->
  exists sent,
    workerBody st m =
      Ok (addOutstandingJobs (setNewBoardQueue st (newBoardQueue st ++ sent)) (-1)) /\
    Forall (fun p => Score p <= currBestScore st /\ rebuildable p) sent.
Proof.
  intros Hwf Hk. destruct (RebuildBoard_settled m Hwf Hk) as (bv & Hbv & Hs & _).
  destruct (ProposeBoards_spec [bv] 0%nat bv Hs eq_refl) as (ms & ext & Hp & Hms).
  unfold workerBody. rewrite Hbv. cbn [mbind outcome_bind]. rewrite Hp.
  cbn [wrapErr mbind outcome_bind]. eexists. split; [done|].
  apply Forall_forall. intros p [Hscore Hin]%list_elem_of_filter. split; [done|].
  rewrite Forall_forall in Hms. by apply (proposedFrom_rebuildable bv), Hms.
Qed.

Lemma workerJob_rebuildable st m :
  wfMinimal m -> Forall knownPiece (board m) ->
  exists st' sent,
    workerJob st m = Ok st' /\
    newBoardQueue st' = newBoardQueue st ++ sent /\
    Forall (fun p => Score p <= currBestScore st /\ rebuildable p) sent.
Proof.
  intros Hwf Hk. destruct (workerBody_rebuildable st m Hwf Hk) as (sent & Hbody & Hsent).
  unfold workerJob. rewrite Hbody. eexists _, sent. split; [done|]. split; done.
Qed.

Lemma workerBody_unknown st m :
  wfMinimal m -> ~ Forall knownPiece (board m) ->
  exists pc, firstUnknown (board m) = Some pc /\ workerBody st m = Err (rebuildErrMsg pc).
Proof.
  intros Hwf Hk. destruct (RebuildBoard_unknown m Hwf Hk) as (pc & Hpc & He).
  exists pc. split; [done|]. unfold workerBody. by rewrite He.
Qed.

(** X24: on a compact state over the closed piece set the closure of a
    worker returns nil, having run both decrements of the counter; it appends
    to [newBoardQueue] only boards whose score is within the bound and which
    a worker can rebuild in turn, and it leaves the work queue, the edge set,
    [seenBoards], the bound and the counters of processed boards and
    duplicates as they are.  On a compact state holding another piece value
    the closure returns the error of [RebuildBoard], the worker drops it, and
    the job ends after the deferred decrement alone. *)
Theorem worker_queues_rebuildable_boards_within_bound (st : state) (m : MinimalBoard) :
  wfMinimal m ->
  (Forall knownPiece (board m) ->
   exists st1 st' sent,
     workerBody st m = Ok st1 /\
     workerJob st m = Ok st' /\
     newBoardQueue st' = newBoardQueue st ++ sent /\
     Forall (fun p => Score p <= currBestScore st /\ rebuildable p) sent /\
     outstandingJobs st' = int32 (int32 (outstandingJobs st + -1) + -1) /\
     workQueue st' = workQueue st /\ edgeSet st' = edgeSet st /\
     seenBoards st' = seenBoards st /\ currBestScore st' = currBestScore st /\
     processed st' = processed st /\ duplicates st' = duplicates st) /\
  (~ Forall knownPiece (board m) ->
   exists pc,
     firstUnknown (board m) = Some pc /\
     workerBody st m = Err (rebuildErrMsg pc) /\
     workerJob st m = Ok (addOutstandingJobs st (-1))).
Proof.
  intros Hwf. split.
  - intros Hk.
    destruct (workerBody_rebuildable st m Hwf Hk) as (sent & Hbody & Hsent).
    eexists _, _, sent. split; [exact Hbody|].
    unfold workerJob. rewrite Hbody. split; [reflexivity|]. repeat split; done.
  - intros Hk. destruct (workerBody_unknown st m Hwf Hk) as (pc & Hpc & He).
    exists pc. split; [done|]. split; [done|]. unfold workerJob. by rewrite He.
Qed.

(** X24 at the root board, and at a compact state holding the piece value 6. *)
Lemma worker_queues_rebuildable_boards_within_bound_witness :
  (exists st1 st' sent,
     workerBody initialState zeroMinimalBoard = Ok st1 /\
     workerJob initialState zeroMinimalBoard = Ok st' /\
     newBoardQueue st' = newBoardQueue initialState ++ sent /\
     Forall (fun p => Score p <= currBestScore initialState /\ rebuildable p) sent /\
     outstandingJobs st' = int32 (int32 (outstandingJobs initialState + -1) + -1) /\
     workQueue st' = workQueue initialState /\ edgeSet st' = edgeSet initialState /\
     seenBoards st' = seenBoards initialState /\
     currBestScore st' = currBestScore initialState /\
     processed st' = processed initialState /\ duplicates st' = duplicates initialState) /\
  (exists pc,
     firstUnknown (board (occupancyOf [(0, 6)])) = Some pc /\
     workerBody initialState (occupancyOf [(0, 6)]) = Err (rebuildErrMsg pc) /\
     workerJob initialState (occupancyOf [(0, 6)]) = Ok (addOutstandingJobs initialState (-1))).
Proof.
  split.
  - apply (proj1 (worker_queues_rebuildable_boards_within_bound initialState zeroMinimalBoard
                    ltac:(reflexivity))).
    by_compute.
  - apply (proj2 (worker_queues_rebuildable_boards_within_bound initialState
                    (occupancyOf [(0, 6)]) ltac:(reflexivity))).
    by_compute.
Defined.

(** ** Invariants of the search *)

Lemma rebuildable_zero : rebuildable zeroMinimalBoard.
Proof. split; [reflexivity|]. split; [by_compute | done]. Qed.

Lemma dispatch_inv (P : MinimalBoard -> Prop) ws st st1 :
  dispatch ws st = Ok st1 ->
  currBestScore st1 = currBestScore st /\ newBoardQueue st1 = newBoardQueue st /\
  (Z.of_nat (length (workQueue st)) <= ws -> Z.of_nat (length (workQueue st1)) <= ws) /\
  (Forall P (edgeSet st) -> Forall P (workQueue st) ->
   Forall P (edgeSet st1) /\ Forall P (workQueue st1)).
Proof.
  intros Hd.
  destruct (dispatch_cases ws st)
    as [[_ Hp] | [(_ & _ & Hp) | (kept & d & dropped & Heq & _ & _ & Hp)]];
    rewrite Hp in Hd; [| discriminate Hd |].
  - injection Hd as <-. done.
  - injection Hd as <-. case_bool_decide as Hroom.
    + cbn. split; [done|]. split; [done|]. split.
      * rewrite length_app. cbn. lia.
      * rewrite Heq. intros [Hk [Hdd _]%Forall_app]%Forall_app Hwq.
        split; [done|]. apply Forall_app. done.
    + cbn. split; [done|]. split; [done|]. split; [done|].
      rewrite Heq, app_assoc. intros [Hk _]%Forall_app Hwq. done.
Qed.

Lemma ingestBoard_edgeSet (P : MinimalBoard -> Prop) st dirty nb :
  Forall P (edgeSet st) -> P nb -> Forall P (edgeSet (ingestBoard st dirty nb).1).
Proof.
  intros He Hnb. unfold ingestBoard, insertBoard, storeBestScore.
  destruct (IsSolved nb); cbn [andb]; [case_bool_decide; done|].
  destruct (Contains (seenBoards st) nb); cbn; [done|].
  apply Forall_app. split; [done | by constructor].
Qed.

Lemma newBoardLoop_edgeSet (P : MinimalBoard -> Prop) fuel :
  forall st dirty n st' dirty' n' returned,
    newBoardLoop fuel st dirty n = Ok (st', dirty', n', returned) ->
    Forall P (edgeSet st) -> Forall P (newBoardQueue st) -> Forall P (edgeSet st').
Proof.
  assert (Hstep : forall st rest dirty nb st1 dirty1,
            ingestBoard (setNewBoardQueue st rest) dirty nb = (st1, dirty1) ->
            Forall P (edgeSet st) -> P nb ->
            newBoardQueue st1 = rest /\ Forall P (edgeSet st1)).
  { intros st rest dirty nb st1 dirty1 Hin He Hnb.
    pose proof (ingestBoard_frame (setNewBoardQueue st rest) dirty nb) as (_ & Hnq & _).
    pose proof (ingestBoard_edgeSet P (setNewBoardQueue st rest) dirty nb He Hnb) as Hes.
    rewrite Hin in Hnq, Hes. done. }
  induction fuel as [|fuel IH]; intros st dirty n st' dirty' n' returned Hloop He Hq;
    cbn [newBoardLoop] in Hloop; destruct (newBoardQueue st) as [|nb rest] eqn:Hnq.
  - by injection Hloop as <- <- <- <-.
  - apply Forall_cons in Hq as [Hnb Hq].
    destruct (ingestBoard (setNewBoardQueue st rest) dirty nb) as [st1 dirty1] eqn:Hin.
    destruct (Hstep _ _ _ _ _ _ Hin He Hnb) as [_ Hes].
    destruct (searchDone st1); [|discriminate Hloop].
    by injection Hloop as <- <- <- <-.
  - by injection Hloop as <- <- <- <-.
  - apply Forall_cons in Hq as [Hnb Hq].
    destruct (ingestBoard (setNewBoardQueue st rest) dirty nb) as [st1 dirty1] eqn:Hin.
    destruct (Hstep _ _ _ _ _ _ Hin He Hnb) as [Hrest Hes].
    destruct (searchDone st1).
    + by injection Hloop as <- <- <- <-.
    + apply (IH _ _ _ _ _ _ _ Hloop); [done | by rewrite Hrest].
Qed.

Lemma sortEdgeSet_Forall (P : MinimalBoard -> Prop) st offset :
  Forall P (edgeSet st) -> Forall P (edgeSet (sortEdgeSet st offset)).
Proof.
  intros He. unfold sortEdgeSet. cbn [edgeSet setEdgeSet].
  assert (Hperm : take (Z.to_nat offset) (edgeSet st) ++
                  sortSlice lessHeuristic (drop (Z.to_nat offset) (edgeSet st)) ≡ₚ edgeSet st).
  { by rewrite sortSlice_perm, take_drop. }
  by rewrite Hperm.
Qed.

Lemma rebuildable_score_low m : rebuildable m -> - 2 ^ 31 <= Score m.
Proof. intros (_ & _ & H). lia. Qed.

Lemma orchestratorPass_inv ws st dirty st' dirty' returned :
  orchestratorPass ws st dirty = Ok (st', dirty', returned) ->
  currBestScore st <= 28 -> Z.of_nat (length (workQueue st)) <= ws ->
  Forall rebuildable (edgeSet st) -> Forall rebuildable (workQueue st) ->
  Forall rebuildable (newBoardQueue st) ->
  currBestScore st' <= 28 /\ Z.of_nat (length (workQueue st')) <= ws /\
  Forall rebuildable (edgeSet st') /\ Forall rebuildable (workQueue st') /\
  Forall rebuildable (newBoardQueue st').
Proof.
  intros Hpass Hb Hcap He Hw Hq. unfold orchestratorPass in Hpass.
  destruct (dispatch ws st) as [st1| | |] eqn:Hd; try discriminate Hpass.
  cbn [mbind outcome_bind] in Hpass.
  destruct (dispatch_inv rebuildable ws st st1 Hd) as (Hb1 & Hq1 & Hcap1 & Hew1).
  destruct (Hew1 He Hw) as [He1 Hw1]. specialize (Hcap1 Hcap).
  destruct (newBoardLoop_spec (length (newBoardQueue st1)) st1 dirty 0 ltac:(lia))
    as (st2 & dirty2 & n2 & ret & Hloop & Hwq2 & _ & _ & _ & Hfalse & Htrue).
  rewrite Hloop in Hpass. cbn [mbind outcome_bind] in Hpass.
  rewrite <- Hq1 in Hq.
  pose proof (newBoardLoop_edgeSet rebuildable _ _ _ _ _ _ _ _ Hloop He1 Hq) as He2.
  destruct (newBoardLoop_bound _ _ _ _ _ _ _ _ Hloop) as (Hb2 & _).
  { eapply Forall_impl; [exact Hq|]. apply rebuildable_score_low. }
  { lia. }
  assert (Hq2 : newBoardQueue st2 = []).
  { destruct ret; [by destruct (Htrue eq_refl) as (_ & _ & _ & ? & _)
                  | by destruct (Hfalse eq_refl) as (? & _)]. }
  destruct ret.
  - injection Hpass as <- <- <-. rewrite Hwq2, Hq2. repeat split; try done; lia.
  - destruct (sortOffset st2 dirty2 n2 ws) as [offset dirty3].
    injection Hpass as <- <- <-.
    split; [cbn; lia|]. split; [cbn; by rewrite Hwq2|].
    split; [by apply sortEdgeSet_Forall|]. cbn. rewrite Hwq2, Hq2. done.
Qed.

Lemma reachable_invariant ws c : 0 <= ws -> reachable ws c -> searchInvariant ws c.
Proof.
  intros Hws. induction 1 as [|c c' _ IH Hstep].
  - unfold searchInvariant. cbn.
    split; [done|]. split; [done|].
    split; [constructor; [apply rebuildable_zero | constructor]|]. done.
  - destruct IH as (Hb & Hcap & He & Hw & Hq & Hf).
    destruct Hstep as [c st' dirty' returned _ Hpass | c b rest Hwq | c b st' before after Hfl Hjob].
    + destruct (orchestratorPass_inv _ _ _ _ _ _ Hpass Hb Hcap He Hw Hq)
        as (? & ? & ? & ? & ?).
      unfold searchInvariant. cbn. done.
    + rewrite Hwq in Hw, Hcap. apply Forall_cons in Hw as [Hbb Hw].
      unfold searchInvariant. cbn. cbn in Hcap.
      split; [done|]. split; [lia|]. split; [done|]. split; [done|]. split; [done|].
      apply Forall_app. split; [done | by constructor].
    + rewrite Hfl in Hf. apply Forall_app in Hf as [Hbef [Hbb Haft]%Forall_cons].
      destruct Hbb as (Hwf & Hk & _).
      destruct (workerJob_rebuildable (shared c) b Hwf Hk) as (st'' & sent & Hjob' & Hnq & Hsent).
      rewrite Hjob in Hjob'. injection Hjob' as <-.
      destruct (workerJob_frame _ _ _ Hjob) as (Hwq' & He' & _ & Hb' & _).
      unfold searchInvariant. cbn. rewrite Hwq', He', Hb', Hnq.
      split; [done|]. split; [done|]. split; [done|]. split; [done|].
      split; [|by apply Forall_app].
      apply Forall_app. split; [done|].
      eapply Forall_impl; [exact Hsent|]. by intros p [_ ?].
Qed.

(** X25: in every reachable configuration of the search the work queue
    holds at most [workQueueSize] boards. *)
Theorem work_queue_never_exceeds_capacity (workQueueSize : Z) (c : config) :
  0 <= workQueueSize -> reachable workQueueSize c ->
  Z.of_nat (length (workQueue (shared c))) <= workQueueSize.
Proof. intros Hws Hr. by destruct (reachable_invariant _ _ Hws Hr) as (_ & ? & _). Qed.

Lemma reachable_firstPass : reachable 8 firstPass.
Proof.
  eapply reachable_step; [apply reachable_init|].
  eapply step_orchestrator; [reflexivity | vm_compute; reflexivity].
Qed.

(** X25 after the first pass of the orchestrator. *)
Lemma work_queue_never_exceeds_capacity_witness :
  Z.of_nat (length (workQueue (shared firstPass))) <= 8.
Proof.
  apply (work_queue_never_exceeds_capacity 8 firstPass); [lia | exact reachable_firstPass].
Defined.

(** X26: in every reachable configuration the bound is at most the seed
    28, every board in the edge set, in either queue or held by a worker is a
    compact state over the closed piece set with a score of at least 0, and
    the closure of a worker on a board it holds returns nil: it neither
    returns an error nor panics. *)
Theorem bound_stays_below_seed_and_workers_never_fail (workQueueSize : Z) (c : config) :
  0 <= workQueueSize -> reachable workQueueSize c ->
  currBestScore (shared c) <= 28 /\
  Forall rebuildable (edgeSet (shared c) ++ workQueue (shared c) ++
                      newBoardQueue (shared c) ++ inFlight c) /\
  (forall b, b ∈ inFlight c -> exists st1, workerBody (shared c) b = Ok st1).
Proof.
  intros Hws Hr. destruct (reachable_invariant _ _ Hws Hr) as (Hb & _ & He & Hw & Hq & Hf).
  split; [done|]. split; [by rewrite !Forall_app|].
  intros b Hin. rewrite Forall_forall in Hf. destruct (Hf b Hin) as (Hwf & Hk & _).
  destruct (workerBody_rebuildable (shared c) b Hwf Hk) as (sent & Hbody & _). eauto.
Qed.

Lemma reachable_firstReceive : reachable 8 firstReceive.
Proof.
  eapply reachable_step; [exact reachable_firstPass|].
  apply (step_receive 8 firstPass zeroMinimalBoard []). vm_compute. reflexivity.
Qed.

(** X26 once a worker holds the root board that the first pass of the
    orchestrator dispatched. *)
Lemma bound_stays_below_seed_and_workers_never_fail_witness :
  inFlight firstReceive = [zeroMinimalBoard] /\
  currBestScore (shared firstReceive) <= 28 /\
  Forall rebuildable (edgeSet (shared firstReceive) ++ workQueue (shared firstReceive) ++
                      newBoardQueue (shared firstReceive) ++ inFlight firstReceive) /\
  (forall b, b ∈ inFlight firstReceive -> exists st1, workerBody (shared firstReceive) b = Ok st1).
Proof.
  split; [vm_compute; reflexivity|].
  apply (bound_stays_below_seed_and_workers_never_fail 8 firstReceive);
    [lia | exact reachable_firstReceive].
Defined.

(** ** The counter of outstanding jobs in reachable states *)

Lemma int32_add z d : int32 (int32 z + d) = int32 (z + d).
Proof.
  unfold int32. f_equal.
  replace ((z + 2 ^ 31) mod 2 ^ 32 - 2 ^ 31 + d + 2 ^ 31) with ((z + 2 ^ 31) mod 2 ^ 32 + d) by lia.
  rewrite Zplus_mod_idemp_l. f_equal. lia.
Qed.

Lemma int32_sub_int64 a p d : int32 (a - int64 (p + d)) = int32 (a - p - d).
Proof.
  unfold int32, int64. f_equal.
  pose proof (Z.div_mod (p + d + 2 ^ 63) (2 ^ 64) ltac:(lia)) as H.
  replace (a - ((p + d + 2 ^ 63) mod 2 ^ 64 - 2 ^ 63) + 2 ^ 31)
    with (a - p - d + 2 ^ 31 + (2 ^ 32 * ((p + d + 2 ^ 63) / 2 ^ 64)) * 2 ^ 32) by lia.
  by rewrite Z.mod_add by lia.
Qed.

Lemma dispatch_counter ws st st1 :
  dispatch ws st = Ok st1 ->
  (workQueue st1 = workQueue st /\ outstandingJobs st1 = outstandingJobs st /\
   processed st1 = processed st) \/
  (exists d, workQueue st1 = workQueue st ++ [d] /\
             outstandingJobs st1 = int32 (outstandingJobs st + 1) /\
             processed st1 = int64 (processed st + 1)).
Proof.
  intros Hd.
  destruct (dispatch_cases ws st)
    as [[_ Hp] | [(_ & _ & Hp) | (kept & d & dropped & Heq & _ & _ & Hp)]];
    rewrite Hp in Hd; [| discriminate Hd |].
  - injection Hd as <-. by left.
  - injection Hd as <-. case_bool_decide; [right; by exists d | by left].
Qed.

Lemma orchestratorPass_counter ws st dirty st' dirty' returned :
  orchestratorPass ws st dirty = Ok (st', dirty', returned) ->
  (workQueue st' = workQueue st /\ outstandingJobs st' = outstandingJobs st /\
   processed st' = processed st) \/
  (exists d, workQueue st' = workQueue st ++ [d] /\
             outstandingJobs st' = int32 (outstandingJobs st + 1) /\
             processed st' = int64 (processed st + 1)).
Proof.
  intros Hpass. unfold orchestratorPass in Hpass.
  destruct (dispatch ws st) as [st1| | |] eqn:Hd; try discriminate Hpass.
  cbn [mbind outcome_bind] in Hpass.
  destruct (newBoardLoop_spec (length (newBoardQueue st1)) st1 dirty 0 ltac:(lia))
    as (st2 & dirty2 & n2 & ret & Hloop & Hwq2 & Hoj2 & Hpr2 & _).
  rewrite Hloop in Hpass. cbn [mbind outcome_bind] in Hpass.
  assert (Hsame : workQueue st' = workQueue st1 /\ outstandingJobs st' = outstandingJobs st1 /\
                  processed st' = processed st1).
  { destruct ret.
    - by injection Hpass as <- <- <-.
    - destruct (sortOffset st2 dirty2 n2 ws) as [offset dirty3].
      by injection Hpass as <- <- <-. }
  destruct Hsame as (-> & -> & ->). by apply (dispatch_counter ws).
Qed.

Lemma reachable_counter ws c :
  0 <= ws -> reachable ws c ->
  outstandingJobs (shared c) =
  int32 (2 * Z.of_nat (length (workQueue (shared c)) + length (inFlight c))
         - processed (shared c)).
Proof.
  intros Hws Hr. induction Hr as [|c c' Hr IH Hstep]; [reflexivity|].
  pose proof (reachable_invariant ws c Hws Hr) as (_ & _ & _ & _ & _ & Hf).
  destruct Hstep as [c st' dirty' returned _ Hpass | c b rest Hwq | c b st' before after Hfl Hjob];
    cbn [shared inFlight].
  - destruct (orchestratorPass_counter _ _ _ _ _ _ Hpass)
      as [(-> & -> & ->) | (d & -> & -> & ->)]; [done|].
    rewrite IH, int32_add, int32_sub_int64, length_app. cbn [length]. f_equal. lia.
  - cbn [workQueue setWorkQueue processed outstandingJobs].
    rewrite IH, Hwq, length_app. cbn [length]. f_equal. lia.
  - rewrite Hfl in Hf. apply Forall_app in Hf as [_ [(Hwf & Hk & _) _]%Forall_cons].
    destruct (RebuildBoard_settled b Hwf Hk) as (bv & Hbv & Hs & _).
    destruct (ProposeBoards_spec [bv] 0%nat bv Hs eq_refl) as (ms & ext & Hp & _).
    rewrite (workerJob_decrements_twice _ _ _ _ _ _ Hbv Hp Hjob).
    destruct (workerJob_frame _ _ _ Hjob) as (-> & _ & _ & _ & -> & _).
    rewrite IH, int32_add, <- Z.add_assoc, int32_add, Hfl, !length_app.
    cbn [length]. f_equal. lia.
Qed.

(** X27: in every reachable configuration the counter of outstanding
    jobs is, as a 32-bit integer, twice the number of boards in the work
    queue or held by a worker, less the number of boards processed: a
    dispatch adds one and a finished job takes two. *)
Theorem outstanding_jobs_counts_twice_per_finished_job (workQueueSize : Z) (c : config) :
  0 <= workQueueSize -> reachable workQueueSize c ->
  outstandingJobs (shared c) =
  int32 (2 * Z.of_nat (length (workQueue (shared c)) + length (inFlight c))
         - processed (shared c)).
Proof. apply reachable_counter. Qed.

(** X27 after the first pass of the orchestrator. *)
Lemma outstanding_jobs_counts_twice_per_finished_job_witness :
  outstandingJobs (shared firstPass) =
  int32 (2 * Z.of_nat (length (workQueue (shared firstPass)) + length (inFlight firstPass))
         - processed (shared firstPass)).
Proof.
  apply (outstanding_jobs_counts_twice_per_finished_job 8 firstPass);
    [lia | exact reachable_firstPass].
Defined.

(** ** The dedup set only grows *)

Lemma ingestBoard_seen st dirty nb b :
  Contains (seenBoards st) b = true -> Contains (seenBoards (ingestBoard st dirty nb).1) b = true.
Proof.
  intros Hc. unfold ingestBoard, insertBoard, storeBestScore.
  destruct (IsSolved nb); cbn [andb]; [case_bool_decide; done|].
  destruct (Contains (seenBoards st) nb) eqn:E; cbn; [done|].
  unfold Put. rewrite E. unfold Contains in *. by rewrite existsb_app, Hc.
Qed.

Lemma newBoardLoop_seen fuel b :
  forall st dirty n st' dirty' n' returned,
    newBoardLoop fuel st dirty n = Ok (st', dirty', n', returned) ->
    Contains (seenBoards st) b = true -> Contains (seenBoards st') b = true.
Proof.
  assert (Hstep : forall st rest dirty nb st1 dirty1,
            ingestBoard (setNewBoardQueue st rest) dirty nb = (st1, dirty1) ->
            Contains (seenBoards st) b = true -> Contains (seenBoards st1) b = true).
  { intros st rest dirty nb st1 dirty1 Hin Hc.
    pose proof (ingestBoard_seen (setNewBoardQueue st rest) dirty nb b Hc) as H.
    by rewrite Hin in H. }
  induction fuel as [|fuel IH]; intros st dirty n st' dirty' n' returned Hloop Hc;
    cbn [newBoardLoop] in Hloop; destruct (newBoardQueue st) as [|nb rest] eqn:Hnq.
  - by injection Hloop as <- <- <- <-.
  - destruct (ingestBoard (setNewBoardQueue st rest) dirty nb) as [st1 dirty1] eqn:Hin.
    pose proof (Hstep _ _ _ _ _ _ Hin Hc) as Hc1.
    destruct (searchDone st1); [|discriminate Hloop].
    by injection Hloop as <- <- <- <-.
  - by injection Hloop as <- <- <- <-.
  - destruct (ingestBoard (setNewBoardQueue st rest) dirty nb) as [st1 dirty1] eqn:Hin.
    pose proof (Hstep _ _ _ _ _ _ Hin Hc) as Hc1.
    destruct (searchDone st1).
    + by injection Hloop as <- <- <- <-.
    + by apply (IH _ _ _ _ _ _ _ Hloop).
Qed.

Lemma dispatch_seen ws st st1 : dispatch ws st = Ok st1 -> seenBoards st1 = seenBoards st.
Proof.
  intros Hd.
  destruct (dispatch_cases ws st)
    as [[_ Hp] | [(_ & _ & Hp) | (kept & d & dropped & Heq & _ & _ & Hp)]];
    rewrite Hp in Hd; [| discriminate Hd |].
  - by injection Hd as <-.
  - injection Hd as <-. by case_bool_decide.
Qed.

(** X28: no step of the search makes a board that [seenBoards] holds
    unfindable: the dedup set only grows. *)
Theorem seen_boards_only_grow (workQueueSize : Z) (c c' : config) (b : MinimalBoard) :
  step workQueueSize c c' ->
  Contains (seenBoards (shared c)) b = true -> Contains (seenBoards (shared c')) b = true.
Proof.
  intros Hstep Hc.
  destruct Hstep as [c st' dirty' returned _ Hpass | c b0 rest Hwq | c b0 st' before after Hfl Hjob];
    cbn [shared].
  - unfold orchestratorPass in Hpass.
    destruct (dispatch workQueueSize (shared c)) as [st1| | |] eqn:Hd; try discriminate Hpass.
    cbn [mbind outcome_bind] in Hpass. rewrite <- (dispatch_seen _ _ _ Hd) in Hc.
    destruct (newBoardLoop (length (newBoardQueue st1)) st1 (dirty c) 0)
      as [[[[st2 dirty2] n2] ret]| | |] eqn:Hloop; try discriminate Hpass.
    cbn [mbind outcome_bind] in Hpass.
    pose proof (newBoardLoop_seen _ b _ _ _ _ _ _ _ Hloop Hc) as Hc2.
    destruct ret.
    + by injection Hpass as <- <- <-.
    + destruct (sortOffset st2 dirty2 n2 workQueueSize) as [offset dirty3].
      by injection Hpass as <- <- <-.
  - done.
  - by destruct (workerJob_frame _ _ _ Hjob) as (_ & _ & -> & _).
Qed.

(** X28 at the first pass of the orchestrator and the root board. *)
Lemma seen_boards_only_grow_witness :
  Contains (seenBoards (shared firstPass)) zeroMinimalBoard = true.
Proof.
  apply (seen_boards_only_grow 8 (mkConfig initialState false []) firstPass zeroMinimalBoard).
  - eapply step_orchestrator; [reflexivity | vm_compute; reflexivity].
  - reflexivity.
Defined.

(** ** The tables of the pieces *)

Lemma knownPiece_cases p :
  knownPiece p -> p = NONE \/ p = PAWN \/ p = KNIGHT \/ p = BISHOP \/ p = ROOK \/ p = QUEEN.
Proof. unfold knownPiece, NONE, PAWN, KNIGHT, BISHOP, ROOK, QUEEN. lia. Qed.

Lemma GetRune_unknown p : ~ knownPiece p -> GetRune p = 0.
Proof.
  intros Hk. unfold GetRune, runes, knownPiece, NONE, PAWN, KNIGHT, BISHOP, ROOK, QUEEN in *.
  rewrite !lookup_insert_ne, lookup_singleton_ne by lia. done.
Qed.

(** X29: [GetRune] never fails: the six pieces have pairwise distinct
    runes, none of them 0, and every other value reads the zero rune;
    [GetScore] returns a value between 1 and 9 for the five pieces and panics
    for every other value, [NONE] included. *)
Theorem piece_tables_on_missing_keys :
  (forall p, GetRune p = 0 <-> ~ knownPiece p) /\
  (forall p q, knownPiece p -> knownPiece q -> GetRune p = GetRune q -> p = q) /\
  (forall p, PAWN <= p <= QUEEN -> exists v, GetScore p = Ok v /\ 1 <= v <= 9) /\
  (forall p, ~ (PAWN <= p <= QUEEN) -> GetScore p = Panic unknownPieceMsg).
Proof.
  split; [|split; [|split]].
  - intros p. split; [|apply GetRune_unknown].
    intros Hz Hk. apply knownPiece_cases in Hk.
    destruct Hk as [-> | [-> | [-> | [-> | [-> | ->]]]]]; vm_compute in Hz; discriminate Hz.
  - intros p q Hp Hq. apply knownPiece_cases in Hp, Hq.
    destruct Hp as [-> | [-> | [-> | [-> | [-> | ->]]]]];
      destruct Hq as [-> | [-> | [-> | [-> | [-> | ->]]]]];
      intros H; try reflexivity; vm_compute in H; discriminate H.
  - intros p Hp. exists (pieceValue p). split.
    + apply GetScore_known; unfold knownPiece, NONE, PAWN, QUEEN in *; lia.
    + unfold pieceValue, PAWN, KNIGHT, BISHOP, ROOK, QUEEN in *. repeat case_bool_decide; lia.
  - intros p Hp. destruct (decide (p = NONE)) as [-> | Hne]; [reflexivity|].
    apply GetScore_unknown. unfold knownPiece, NONE, PAWN, QUEEN in *. lia.
Qed.

(** ** The coverage of every piece at a cell *)

(** X30: for a cell of the board [getAllCoverage] succeeds, its result has
    exactly the five pieces as keys, each with the coverage [getCoverage]
    gives for it, and the queen's entry is the union of the bishop's and the
    rook's. *)
Theorem getAllCoverage_holds_the_five_pieces (b : list (list cell)) (p : Z) :
  wfBoard b -> 0 <= p < BOARD_SIZE * BOARD_SIZE ->
  exists m, getAllCoverage b p = Ok m /\
    (forall pc, PAWN <= pc <= QUEEN ->
       exists s, m !! pc = Some s /\ getCoverage b p pc = Ok s) /\
    (forall pc, ~ (PAWN <= pc <= QUEEN) -> m !! pc = None) /\
    (forall bs rs qs, m !! BISHOP = Some bs -> m !! ROOK = Some rs -> m !! QUEEN = Some qs ->
       qs = bs ∪ rs).
Proof.
  intros Hwf Hp. destruct (point_decompose p Hp) as (Hx & Hy & Heq).
  assert (Hcov : forall pc, PAWN <= pc <= QUEEN -> exists s, getCoverage b p pc = Ok s).
  { intros pc Hpc. rewrite Heq.
    destruct (getCoverage_known b (point_x p) (point_y p) pc Hwf Hx Hy) as (s & Hs & _).
    - unfold knownPiece, PAWN, QUEEN in *. lia.
    - unfold NONE, PAWN in *. lia.
    - by exists s. }
  destruct (Hcov PAWN) as (s1 & H1); [unfold PAWN, QUEEN; lia|].
  destruct (Hcov KNIGHT) as (s2 & H2); [unfold PAWN, KNIGHT, QUEEN; lia|].
  destruct (Hcov ROOK) as (s3 & H3); [unfold PAWN, ROOK, QUEEN; lia|].
  destruct (Hcov BISHOP) as (s4 & H4); [unfold PAWN, BISHOP, QUEEN; lia|].
  destruct (Hcov QUEEN) as (s5 & H5); [unfold PAWN, QUEEN; lia|].
  assert (Hq : s5 = s4 ∪ s3).
  { unfold getCoverage in H3, H4, H5. cbn in H3, H4, H5.
    rewrite (queenCoverage_union b p s4 s3 H4 H3) in H5. by injection H5 as <-. }
  unfold getAllCoverage. rewrite H1, H2, H3, H4, H5. cbn [wrapErr mbind outcome_bind].
  eexists. split; [done|]. split; [|split].
  - intros pc Hpc.
    assert (Hcase : pc = PAWN \/ pc = KNIGHT \/ pc = BISHOP \/ pc = ROOK \/ pc = QUEEN)
      by (unfold PAWN, KNIGHT, BISHOP, ROOK, QUEEN in *; lia).
    destruct Hcase as [-> | [-> | [-> | [-> | ->]]]]; eexists; (split; [reflexivity | done]).
  - intros pc Hpc. unfold PAWN, KNIGHT, BISHOP, ROOK, QUEEN in *.
    rewrite !lookup_insert_ne, lookup_empty by lia. done.
  - intros bs rs qs [= <-] [= <-] [= <-]. exact Hq.
Qed.

(** X30 at the queen of the board with a queen and a pawn. *)
Lemma getAllCoverage_holds_the_five_pieces_witness :
  exists m, getAllCoverage queenAndPawn 27 = Ok m /\
    (forall pc, PAWN <= pc <= QUEEN ->
       exists s, m !! pc = Some s /\ getCoverage queenAndPawn 27 pc = Ok s) /\
    (forall pc, ~ (PAWN <= pc <= QUEEN) -> m !! pc = None) /\
    (forall bs rs qs, m !! BISHOP = Some bs -> m !! ROOK = Some rs -> m !! QUEEN = Some qs ->
       qs = bs ∪ rs).
Proof.
  apply (getAllCoverage_holds_the_five_pieces queenAndPawn 27);
    [by_compute | unfold BOARD_SIZE; lia].
Defined.
